(** * Sudoku as SAT and as CSP: a shallow embedding of [main.py]

    The class [Sudoku] of [main.py] is embedded as functions over an explicit
    program state.  The state holds the object store and the fields of the
    one [Sudoku] instance.  Methods are computations in a state-and-exception
    monad.

    A grid is a Python list of lists, two layers of objects that are passed
    by reference: every row is a list object, and the grid is a list of
    references to row objects.  Two rows of a grid can be one and the same
    object (as in [[[0] * 9] * 9]); a write to one of them is then a write
    to the other, and [copy.deepcopy] keeps them shared in the copy.

    Grid entries are Python integers, modelled as [Z]; row and column
    indices always come from [range], they are [nat].  The timer fields
    ([__timer], [__t]) only measure wall-clock time and are left out. *)

From stdpp Require Import gmap list.
From Stdlib Require Import ZArith Lia.

(** ** Data model *)

Abbreviation GRID_LEN := 9%nat (only parsing).
Abbreviation SUBGRID_LEN := 3%nat (only parsing).
Abbreviation MAX_NUMBER := 9%Z (only parsing).

(** A grid value: a list of rows. *)
Abbreviation Grid := (list (list Z)).
(** A reference to a row object or to a grid object of the store. *)
Abbreviation ref := nat (only parsing).
(** The key [(row, col, number)] of the atom tables. *)
Abbreviation triple := (nat * nat * Z)%type.
(** A clause is a list of integer literals, a formula a list of clauses. *)
Abbreviation clause := (list Z).

(** Python exceptions that the embedded code can raise.  [RecursionError]
    stands for an exhausted recursion budget, [DanglingRef] for a store
    lookup of a reference that was never allocated (it cannot happen for
    references handed out by the store). *)
Inductive exn :=
  ValueError | IndexError | KeyError | TypeError | RecursionError | DanglingRef.

Inductive res (A : Type) :=
  | Ok (a : A)
  | Raise (e : exn).
Arguments Ok {A} a.
Arguments Raise {A} e.

(** The object store: the row objects, and the grid objects, which hold
    the references of their rows. *)
Record store := mkStore {
  row_objs : list (list Z);         (* row objects, indexed by reference *)
  grid_objs : list (list ref)       (* grid objects, indexed by reference *)
}.

(** The value of a list of row references. *)
Definition deref (rws : list (list Z)) (rr : list ref) : option Grid :=
  mapM (λ x, rws !! x) rr.

(** [h !! r] is the value of the grid object [r]: its rows, read through
    their references. *)
#[global] Instance store_lookup : Lookup nat Grid store :=
  λ r h, grid_objs h !! r ≫= deref (row_objs h).

(** The object store together with the fields of the [Sudoku] instance. *)
Record state := mkState {
  heap : store;                     (* the objects *)
  self_grid : ref;                  (* self.__grid *)
  atom_id : gmap triple Z;          (* self.__atom_id *)
  id_atom : gmap Z triple;          (* self.__id_atom *)
  solution : option ref;            (* self.__solution, None for None *)
  solution_found : bool             (* self.__solution_found *)
}.

Definition set_heap (h : store) (s : state) : state :=
  mkState h (self_grid s) (atom_id s) (id_atom s) (solution s) (solution_found s).
Definition set_atom_id (m : gmap triple Z) (s : state) : state :=
  mkState (heap s) (self_grid s) m (id_atom s) (solution s) (solution_found s).
Definition set_id_atom (m : gmap Z triple) (s : state) : state :=
  mkState (heap s) (self_grid s) (atom_id s) m (solution s) (solution_found s).
Definition set_solution (r : option ref) (s : state) : state :=
  mkState (heap s) (self_grid s) (atom_id s) (id_atom s) r (solution_found s).
Definition set_solution_found (b : bool) (s : state) : state :=
  mkState (heap s) (self_grid s) (atom_id s) (id_atom s) (solution s) b.

(** ** The monad of methods *)

Definition M (A : Type) : Type := state → res (A * state).

Definition ret {A} (a : A) : M A := λ s, Ok (a, s).
Definition bind {A B} (m : M A) (k : A → M B) : M B :=
  λ s, match m s with
       | Ok (a, s') => k a s'
       | Raise e => Raise e
       end.
Definition raise {A} (e : exn) : M A := λ _, Raise e.
Definition get {A} (f : state → A) : M A := λ s, Ok (f s, s).
Definition modify (f : state → state) : M unit := λ s, Ok (tt, f s).

Notation "'do' x ← m ; k" := (bind m (λ x, k))
  (at level 10, x name, m at level 100, k at level 200,
   format "'[v' 'do'  x  ←  m ; '/' k ']'").
Notation "m ;; k" := (bind m (λ _, k))
  (at level 100, k at level 200, right associativity).

(** [for x in l: s = body x s], with the loop-carried variables [s]. *)
Fixpoint for_in {A S} (l : list A) (body : A → S → M S) (acc : S) : M S :=
  match l with
  | [] => ret acc
  | x :: l' => do acc' ← body x acc; for_in l' body acc'
  end.

(** [for x in l: if not (check x): return False], then falls through with
    [True]: the shape of every loop of [__check_constraints]. *)
Fixpoint for_all {A} (l : list A) (check : A → M bool) : M bool :=
  match l with
  | [] => ret true
  | x :: l' => do ok ← check x; if ok then for_all l' check else ret false
  end.

(** [range(a, b)], [range(a, b)] over integers and [range(a, b, k)]. *)
Definition range (a b : nat) : list nat := seq a (b - a).
Definition rangeZ (a b : Z) : list Z := seqZ a (b - a).
Definition range_step (a b k : nat) : list nat :=
  (λ i, a + i * k) <$> seq 0 ((b - a + k - 1) / k).

(** ** The object store *)

(** Reading a grid object: the current contents of its rows. *)
Definition load (r : ref) : M Grid :=
  λ s, match heap s !! r with
       | Some g => Ok (g, s)
       | None => Raise DanglingRef
       end.

(** The rows of [copy.deepcopy]: every row object is copied to a new
    object, once.  [memo] is the memo of [deepcopy]: it maps the rows that
    have been copied to their copies, and a row that is met again gets the
    copy it has, so rows that were one object are one object in the copy.
    The result is the references of the copied rows and the new row
    objects. *)
Fixpoint copy_rows (rr : list ref) (memo : gmap nat nat) (rws : list (list Z))
    : option (list ref * list (list Z)) :=
  match rr with
  | [] => Some ([], rws)
  | x :: rr =>
      match memo !! x with
      | Some y =>
          '(ys, rws') ← copy_rows rr memo rws;
          Some (y :: ys, rws')
      | None =>
          line ← rws !! x;
          '(ys, rws') ← copy_rows rr (<[x := length rws]> memo) (rws ++ [line]);
          Some (length rws :: ys, rws')
      end
  end.

(** [copy.deepcopy(r)]: a new grid object over copies of the rows. *)
Definition deepcopy (r : ref) : M ref :=
  λ s, match grid_objs (heap s) !! r ≫= λ rr, copy_rows rr ∅ (row_objs (heap s)) with
       | Some (ys, rws) =>
           Ok (length (grid_objs (heap s)),
               set_heap (mkStore rws (grid_objs (heap s) ++ [ys])) s)
       | None => Raise DanglingRef
       end.

(** [r[row][col]]. *)
Definition getitem (r : ref) (row col : nat) : M Z :=
  do g ← load r;
  match g !! row with
  | None => raise IndexError
  | Some line =>
      match line !! col with
      | None => raise IndexError
      | Some v => ret v
      end
  end.

(** [r[row][col] = v]: [r[row]] is a row object, and the assignment
    mutates this object in place; every grid that holds the row object
    sees the new entry. *)
Definition setitem (r : ref) (row col : nat) (v : Z) : M unit :=
  λ s, match grid_objs (heap s) !! r with
       | None => Raise DanglingRef
       | Some rr =>
           match rr !! row with
           | None => Raise IndexError
           | Some x =>
               match row_objs (heap s) !! x with
               | None => Raise DanglingRef
               | Some line =>
                   if decide (col < length line)
                   then Ok (tt, set_heap
                                  (mkStore (<[x := <[col := v]> line]> (row_objs (heap s)))
                                     (grid_objs (heap s))) s)
                   else Raise IndexError
               end
           end
       end.

(** ** [Sudoku.__init__] *)

(** [Sudoku(grid)] for a grid object [grid] of the store [h].  The message
    ['Wrong grid size'] of the [ValueError] is not modelled. *)
Definition init (h : store) (grid : ref) : res state :=
  match h !! grid with
  | None => Raise DanglingRef
  | Some g =>
      if negb (length g =? GRID_LEN) then Raise ValueError
      else if forallb (λ row, length row =? GRID_LEN) g
      then Ok (mkState h grid ∅ ∅ None false)
      else Raise ValueError
  end.

(** ** [__atom] and [__literal] *)

Definition atom (row col : nat) (number : Z) : M Z :=
  do known ← get (λ s, atom_id s !! (row, col, number));
  match known with
  | Some i => ret i
  | None =>
      modify (λ s, set_id_atom
                     (<[(Z.of_nat (size (atom_id s)) + 1)%Z := (row, col, number)]> (id_atom s)) s);;
      modify (λ s, set_atom_id
                     (<[(row, col, number) := (Z.of_nat (size (atom_id s)) + 1)%Z]> (atom_id s)) s);;
      do stored ← get (λ s, atom_id s !! (row, col, number));
      match stored with
      | Some i => ret i
      | None => raise KeyError
      end
  end.

(** [int(("-" if negation else "") + str(atom))]: identifiers are positive
    (see [atom_positive]), so the sign prefix negates the number. *)
Definition literal (x y : nat) (number : Z) (negation : bool) : M Z :=
  do a ← atom x y number;
  ret (if negation then (- a)%Z else a).

(** ** [solve_as_sat] *)

(** [solver.add_clause(c)]: the solver object is local to one call of
    [solve_as_sat]; it is modelled by the list of the clauses added so
    far, a loop-carried variable. *)
Definition add_clause (solver : list clause) (c : clause) : list clause :=
  solver ++ [c].

(** constraints given by the initial state *)
Definition encode_initial : list clause → M (list clause) :=
  for_in (range 0 GRID_LEN) (λ row,
    for_in (range 0 GRID_LEN) (λ col solver,
      do g ← get self_grid;
      do v ← getitem g row col;
      do l ← literal row col v false;
      ret (add_clause solver [l]))).

(** there is at least one number in each cell *)
Definition encode_cells : list clause → M (list clause) :=
  for_in (range 0 GRID_LEN) (λ row,
    for_in (range 0 GRID_LEN) (λ col solver,
      do c ← for_in (rangeZ 1 (MAX_NUMBER + 1)) (λ number c,
                do l ← literal row col number false;
                ret (c ++ [l])) [];
      ret (add_clause solver c))).

(** all numbers in each row are different *)
Definition encode_rows : list clause → M (list clause) :=
  for_in (range 0 GRID_LEN) (λ row,
    for_in (range 0 GRID_LEN) (λ colA,
      for_in (range (colA + 1) GRID_LEN) (λ colB,
        for_in (rangeZ 1 (MAX_NUMBER + 1)) (λ number solver,
          do l1 ← literal row colA number true;
          do l2 ← literal row colB number true;
          ret (add_clause solver [l1; l2]))))).

(** all numbers in each column are different *)
Definition encode_columns : list clause → M (list clause) :=
  for_in (range 0 GRID_LEN) (λ col,
    for_in (range 0 GRID_LEN) (λ rowA,
      for_in (range (rowA + 1) GRID_LEN) (λ rowB,
        for_in (rangeZ 1 (MAX_NUMBER + 1)) (λ number solver,
          do l1 ← literal rowA col number true;
          do l2 ← literal rowB col number true;
          ret (add_clause solver [l1; l2]))))).

(** all numbers in each sub-grid are different *)
Definition encode_subgrids : list clause → M (list clause) :=
  for_in (range_step 0 GRID_LEN SUBGRID_LEN) (λ rowS,
    for_in (range_step 0 GRID_LEN SUBGRID_LEN) (λ colS,
      for_in (range rowS (rowS + SUBGRID_LEN)) (λ rowA,
        for_in (range colS (colS + SUBGRID_LEN)) (λ colA,
          for_in (range rowS (rowS + SUBGRID_LEN)) (λ rowB,
            for_in (range colS (colS + SUBGRID_LEN)) (λ colB solver,
              if (rowA <? rowB) || ((rowB =? rowA) && (colA <? colB))
              then
                for_in (rangeZ 1 (MAX_NUMBER + 1)) (λ number solver,
                  do l1 ← literal rowA colA number true;
                  do l2 ← literal rowB colB number true;
                  ret (add_clause solver [l1; l2])) solver
              else ret solver)))))).

(** The five clause families, added to a new solver in source order. *)
Definition encode : M (list clause) :=
  do solver ← encode_initial [];
  do solver ← encode_cells solver;
  do solver ← encode_rows solver;
  do solver ← encode_columns solver;
  encode_subgrids solver.

(** The decoding loop: [for value in model: if value > 0: ...]. *)
Definition decode (model : list Z) : M unit :=
  for_in model (λ value _,
    if (0 <? value)%Z then
      do entry ← get (λ s, id_atom s !! value);
      match entry with
      | None => raise KeyError
      | Some (row, col, number) =>
          do sol ← get solution;
          match sol with
          | None => raise TypeError
          | Some r => setitem r row col number
          end
      end
    else ret tt) tt.

Section Oracle.

(** The external SAT engine (Glucose3 through pysat): it is given the
    clauses in the order they were added; [solve()] answering [False] is
    [None], and otherwise [get_model()] is [Some model]. *)
Variable sat_solve : list clause → option (list Z).

Definition solve_as_sat : M (option ref) :=
  modify (set_solution None);;
  modify (set_solution_found false);;
  do solver ← encode;
  match sat_solve solver with
  | None => ret None
  | Some model =>
      modify (set_solution_found true);;
      do g ← get self_grid;
      do c ← deepcopy g;
      modify (set_solution (Some c));;
      decode model;;
      get solution
  end.

End Oracle.

(** ** [__check_constraints] *)

(** The body of the innermost loops: [if entry != 0: numbers.add(entry);
    numbers_count += 1], on the pair [(numbers, numbers_count)]. *)
Definition count_entry (entry : Z) (acc : gset Z * nat) : gset Z * nat :=
  if decide (entry = 0%Z) then acc else ({[entry]} ∪ acc.1, S acc.2).

(** [numbers_count != len(numbers)] after a unit has been scanned. *)
Definition unit_clash (acc : gset Z * nat) : bool :=
  negb (acc.2 =? size acc.1).

Definition check_constraints (grid : ref) : M bool :=
  do g ← load grid;
  (* all numbers in each row are different *)
  do ok ← for_all g (λ row,
    do acc ← for_in row (λ entry acc, ret (count_entry entry acc)) (∅, 0);
    ret (negb (unit_clash acc)));
  if negb ok then ret false else
  (* all numbers in each column are different *)
  do ok ← for_all (range 0 GRID_LEN) (λ col,
    do acc ← for_in g (λ row acc,
                match row !! col with
                | None => raise IndexError
                | Some v => ret (count_entry v acc)
                end) (∅, 0);
    ret (negb (unit_clash acc)));
  if negb ok then ret false else
  (* all numbers in each sub-grid are different *)
  for_all (range_step 0 GRID_LEN SUBGRID_LEN) (λ rowS,
    for_all (range_step 0 GRID_LEN SUBGRID_LEN) (λ colS,
      do acc ← for_in (range rowS (rowS + SUBGRID_LEN)) (λ row,
                  for_in (range colS (colS + SUBGRID_LEN)) (λ col acc,
                    do v ← getitem grid row col;
                    ret (count_entry v acc))) (∅, 0);
      ret (negb (unit_clash acc)))).

(** ** [__csp_search] and [solve_as_csp] *)

(** The recursion of [__csp_search] is bounded by a budget of frames,
    [RecursionError] when it is used up. *)
Fixpoint csp_search (fuel : nat) (grid : ref) (row col : nat) {struct fuel} : M unit :=
  match fuel with
  | 0 => raise RecursionError
  | S fuel =>
      do found ← get solution_found;
      if found then ret tt else
      do ok ← check_constraints grid;
      if negb ok then ret tt else
      if row =? GRID_LEN then
        modify (set_solution_found true);;
        modify (set_solution (Some grid))
      else
        do g ← get self_grid;
        do v ← getitem g row col;
        if negb (v =? 0)%Z then
          if col =? GRID_LEN - 1
          then csp_search fuel grid (row + 1) 0
          else csp_search fuel grid row (col + 1)
        else
          for_in (rangeZ 1 (MAX_NUMBER + 1)) (λ number _,
            do candidate ← deepcopy grid;
            setitem candidate row col number;;
            if col =? GRID_LEN - 1
            then csp_search fuel candidate (row + 1) 0
            else csp_search fuel candidate row (col + 1)) tt
  end.

(** One frame per cell and one for the accepting call at [row = 9]:
    [csp_search_total] shows that this budget is never used up. *)
Definition search_depth : nat := GRID_LEN * GRID_LEN + 1.

Definition solve_as_csp : M (option ref) :=
  modify (set_solution None);;
  modify (set_solution_found false);;
  do g ← get self_grid;
  csp_search search_depth g 0 0;;
  get solution.

(** * Specification vocabulary *)

(** The grid has exactly 9 rows of exactly 9 entries. *)
Definition dims_ok (g : Grid) : Prop :=
  length g = GRID_LEN ∧ ∀ row, row ∈ g → length row = GRID_LEN.

(** The entry at [(row, col)], [0] outside of the grid. *)
Definition cell (g : Grid) (row col : nat) : Z :=
  default 0%Z (g !! row ≫= λ line, line !! col).


(** The effect of one call of [__atom] on the state: nothing for a known
    triple, one new entry in each table for a new one ([atom_register]). *)
Definition register (t : triple) (s : state) : state :=
  match atom_id s !! t with
  | Some _ => s
  | None =>
      set_atom_id (<[t := (Z.of_nat (size (atom_id s)) + 1)%Z]> (atom_id s))
        (set_id_atom (<[(Z.of_nat (size (atom_id s)) + 1)%Z := t]> (id_atom s)) s)
  end.

(** The identifier of a registered triple. *)
Definition id_of (s : state) (t : triple) : Z := default 0%Z (atom_id s !! t).

(** [atom_calls s s']: [s'] is reached from [s] by calls of [__atom]. *)
Inductive atom_calls : state → state → Prop :=
  | atom_calls_refl s : atom_calls s s
  | atom_calls_step s s1 s2 row col number i :
      atom_calls s s1 → atom row col number s1 = Ok (i, s2) → atom_calls s s2.

(** The two tables are inverse to each other and the identifiers in use
    are [1 .. len(atom_id)]. *)
Definition reg_wf (s : state) : Prop :=
  (∀ t i, atom_id s !! t = Some i → id_atom s !! i = Some t) ∧
  (∀ i t, id_atom s !! i = Some t →
     atom_id s !! t = Some i ∧ (1 ≤ i ≤ Z.of_nat (size (atom_id s)))%Z) ∧
  (∀ i, (1 ≤ i ≤ Z.of_nat (size (atom_id s)))%Z → is_Some (id_atom s !! i)).

(** The non-zero entries of every row are pairwise distinct. *)
Definition rows_distinct (g : Grid) : Prop :=
  ∀ r c1 c2, r < 9 → c1 < 9 → c2 < 9 → c1 ≠ c2 →
    cell g r c1 ≠ 0%Z → cell g r c1 ≠ cell g r c2.

(** The non-zero entries of every column are pairwise distinct. *)
Definition columns_distinct (g : Grid) : Prop :=
  ∀ c r1 r2, c < 9 → r1 < 9 → r2 < 9 → r1 ≠ r2 →
    cell g r1 c ≠ 0%Z → cell g r1 c ≠ cell g r2 c.

(** The non-zero entries of every 3x3 box are pairwise distinct. *)
Definition boxes_distinct (g : Grid) : Prop :=
  ∀ r1 c1 r2 c2, r1 < 9 → c1 < 9 → r2 < 9 → c2 < 9 → (r1, c1) ≠ (r2, c2) →
    r1 / 3 = r2 / 3 → c1 / 3 = c2 / 3 →
    cell g r1 c1 ≠ 0%Z → cell g r1 c1 ≠ cell g r2 c2.

(** Row, column and box uniqueness of the non-zero entries. *)
Definition consistent (g : Grid) : Prop :=
  rows_distinct g ∧ columns_distinct g ∧ boxes_distinct g.

(** The scan of one unit by [__check_constraints], as a function of the
    entries of the unit in scan order. *)
Definition unit_ok (entries : list Z) : bool :=
  negb (unit_clash (foldl (λ acc e, count_entry e acc) (∅, 0) entries)).

(** The cells of the box whose top left corner is [(rowS, colS)]. *)
Definition box_coords (rowS colS : nat) : list (nat * nat) :=
  row ← range rowS (rowS + 3); col ← range colS (colS + 3); [(row, col)].

(** The value that [__check_constraints] computes ([check_constraints_eq]). *)
Definition checkb (g : Grid) : bool :=
  forallb unit_ok g &&
  forallb (λ col, unit_ok ((λ row : list Z, default 0%Z (row !! col)) <$> g)) (range 0 9) &&
  forallb (λ rowS,
    forallb (λ colS, unit_ok ((λ p, cell g p.1 p.2) <$> box_coords rowS colS))
      (range_step 0 9 3)) (range_step 0 9 3).

(** Distinctness of the non-zero entries over a list of cells. *)
Definition unit_distinct (g : Grid) (coords : list (nat * nat)) : Prop :=
  ∀ p q, p ∈ coords → q ∈ coords → p ≠ q →
    cell g p.1 p.2 ≠ 0%Z → cell g p.1 p.2 ≠ cell g q.1 q.2.

(** [g[row][col] = v] on a grid value whose rows are distinct objects. *)
Definition place (g : Grid) (row col : nat) (v : Z) : Grid :=
  match g !! row with
  | Some line => <[row := <[col := v]> line]> g
  | None => g
  end.

(** [g[row][col] = v] on the value of a grid object with the row
    references [rr]: the entry changes in every row that is the same
    object as the row [row]. *)
Definition place_shared (rr : list nat) (g : Grid) (row col : nat) (v : Z) : Grid :=
  imap (λ i line, if decide (rr !! i = rr !! row) then <[col := v]> line else line) g.

(** Two lists of row references share rows in the same places. *)
Definition same_sharing (rr ys : list nat) : Prop :=
  length ys = length rr ∧ ∀ i j, ys !! i = ys !! j ↔ rr !! i = rr !! j.

(** The rows of the given grid object of the instance are pairwise
    distinct objects. *)
Definition distinct_rows (s : state) : Prop :=
  ∃ rr, grid_objs (heap s) !! self_grid s = Some rr ∧ NoDup rr.

(** The first result of [f] over [l], in order. *)
Fixpoint first_some {A B} (f : A → option B) (l : list A) : option B :=
  match l with
  | [] => None
  | x :: l' => match f x with Some y => Some y | None => first_some f l' end
  end.

(** The grid that [__csp_search] records when it is entered with the flag
    [__solution_found] down, as a function of the grid values: [G] is the
    given grid, [g] the candidate ([csp_search_refines]). *)
Fixpoint search (fuel : nat) (G g : Grid) (row col : nat) {struct fuel} : option Grid :=
  match fuel with
  | 0 => None
  | S fuel =>
      if negb (checkb g) then None
      else if row =? 9 then Some g
      else if negb (cell G row col =? 0)%Z then
        if col =? 8 then search fuel G g (row + 1) 0 else search fuel G g row (col + 1)
      else
        first_some (λ number,
          if col =? 8 then search fuel G (place g row col number) (row + 1) 0
          else search fuel G (place g row col number) row (col + 1))
          (rangeZ 1 10)
  end.

(** The same for a given grid object with the row references [rr], whose
    rows need not be distinct objects: the candidates are copies of the
    given grid and share rows where it does. *)
Fixpoint search_shared (rr : list nat) (fuel : nat) (G g : Grid) (row col : nat)
    {struct fuel} : option Grid :=
  match fuel with
  | 0 => None
  | S fuel =>
      if negb (checkb g) then None
      else if row =? 9 then Some g
      else if negb (cell G row col =? 0)%Z then
        if col =? 8 then search_shared rr fuel G g (row + 1) 0
        else search_shared rr fuel G g row (col + 1)
      else
        first_some (λ number,
          if col =? 8 then search_shared rr fuel G (place_shared rr g row col number) (row + 1) 0
          else search_shared rr fuel G (place_shared rr g row col number) row (col + 1))
          (rangeZ 1 10)
  end.

(** The position of a cell in row-major order. *)
Definition idx (row col : nat) : nat := 9 * row + col.

(** A solved Sudoku [S] for the given grid [G]: every cell holds a digit
    1..9, the given digits are kept, and rows, columns and boxes hold
    pairwise distinct digits. *)
Definition solves (G S : Grid) : Prop :=
  dims_ok S ∧
  (∀ r c, r < 9 → c < 9 → (1 ≤ cell S r c ≤ 9)%Z) ∧
  (∀ r c, r < 9 → c < 9 → cell G r c ≠ 0%Z → cell S r c = cell G r c) ∧
  consistent S.

(** [S] comes before [S'] in the lexicographic order of the grids read in
    row-major order: they are equal, or [S] has the smaller digit at the
    first cell where they differ. *)
Definition grid_lex_le (S S' : Grid) : Prop :=
  S = S' ∨
  ∃ r c, r < 9 ∧ c < 9 ∧ (cell S r c < cell S' r c)%Z ∧
    ∀ r' c', r' < 9 → c' < 9 → idx r' c' < idx r c → cell S r' c' = cell S' r' c'.

(** [S] completes the candidate [g] from the cursor [(row, col)] on: the
    cells before the cursor are those of [g], a later cell keeps the given
    digit of [G] or, where [G] is blank, holds a digit 1..9. *)
Definition extends (G g : Grid) (row col : nat) (S : Grid) : Prop :=
  dims_ok S ∧
  (∀ r c, r < 9 → c < 9 → idx r c < idx row col → cell S r c = cell g r c) ∧
  (∀ r c, r < 9 → c < 9 → idx row col ≤ idx r c →
     if decide (cell G r c = 0%Z) then (1 ≤ cell S r c ≤ 9)%Z
     else cell S r c = cell G r c) ∧
  consistent S.

(** The candidate [g] still has the given entries from the cursor on. *)
Definition untouched (G g : Grid) (row col : nat) : Prop :=
  ∀ r c, r < 9 → c < 9 → idx row col ≤ idx r c → cell g r c = cell G r c.

(** A cursor of the search: a cell of the grid, or [(9, 0)] at the end. *)
Definition cursor_ok (row col : nat) : Prop :=
  (row < 9 ∧ col < 9) ∨ (row = 9 ∧ col = 0).

(** The store [h'] has the objects of [h], unchanged, and maybe more. *)
Definition store_prefix (h h' : store) : Prop :=
  row_objs h `prefix_of` row_objs h' ∧ grid_objs h `prefix_of` grid_objs h'.

(** The memo of a copy in progress: it maps rows of the old store, below
    [base], to their copies above [base], one to one. *)
Definition memo_ok (base : nat) (memo : gmap nat nat) (rws : list (list Z)) : Prop :=
  (∀ x y, memo !! x = Some y → x < base ∧ base ≤ y < length rws ∧ rws !! y = rws !! x) ∧
  (∀ x1 x2 y, memo !! x1 = Some y → memo !! x2 = Some y → x1 = x2).

(** [s'] is the same [Sudoku] instance as [s], with the same atom tables,
    over a store in which the objects of [s] are unchanged. *)
Definition same_instance (s s' : state) : Prop :=
  self_grid s' = self_grid s ∧ atom_id s' = atom_id s ∧ id_atom s' = id_atom s ∧
  store_prefix (heap s) (heap s').

(** What a call of [__csp_search] leaves in [__solution_found] and
    [__solution], given the flag at entry and the result of [search]. *)
Definition search_outcome (s s' : state) (found : option Grid) : Prop :=
  if solution_found s then solution_found s' = true ∧ solution s' = solution s
  else match found with
       | Some sol =>
           solution_found s' = true ∧ ∃ r, solution s' = Some r ∧ heap s' !! r = Some sol
       | None => solution_found s' = false ∧ solution s' = solution s
       end.

(** ** The formula, symbolically *)

(** A literal before identifiers are assigned: the triple of its atom and
    the [negation] flag. *)
Abbreviation slit := (triple * bool)%type.

(** The clauses of the five families in the order in which [solve_as_sat]
    adds them, as lists of symbolic literals. *)
Definition sym_initial (G : Grid) : list (list slit) :=
  row ← range 0 9; col ← range 0 9; [[((row, col, cell G row col), false)]].

Definition sym_cells : list (list slit) :=
  row ← range 0 9; col ← range 0 9;
  [(λ number, ((row, col, number), false)) <$> rangeZ 1 10].

Definition sym_rows : list (list slit) :=
  row ← range 0 9; colA ← range 0 9; colB ← range (colA + 1) 9;
  number ← rangeZ 1 10;
  [[((row, colA, number), true); ((row, colB, number), true)]].

Definition sym_columns : list (list slit) :=
  col ← range 0 9; rowA ← range 0 9; rowB ← range (rowA + 1) 9;
  number ← rangeZ 1 10;
  [[((rowA, col, number), true); ((rowB, col, number), true)]].

Definition sym_subgrids : list (list slit) :=
  rowS ← range_step 0 9 3; colS ← range_step 0 9 3;
  rowA ← range rowS (rowS + 3); colA ← range colS (colS + 3);
  rowB ← range rowS (rowS + 3); colB ← range colS (colS + 3);
  if (rowA <? rowB) || ((rowB =? rowA) && (colA <? colB))
  then number ← rangeZ 1 10;
       [[((rowA, colA, number), true); ((rowB, colB, number), true)]]
  else [].

Definition sym_cnf (G : Grid) : list (list slit) :=
  sym_initial G ++ sym_cells ++ sym_rows ++ sym_columns ++ sym_subgrids.

(** The triples of a symbolic formula in the order of their literals. *)
Definition triples_of (cs : list (list slit)) : list triple :=
  c ← cs; fst <$> c.

(** The integer literal of a symbolic literal under the tables of [s]. *)
Definition lit_of (s : state) (l : slit) : Z :=
  if l.2 then (- id_of s l.1)%Z else id_of s l.1.

(** The integer clauses of a symbolic formula under the tables of [s]. *)
Definition interp (s : state) (cs : list (list slit)) : list clause :=
  (λ c : list slit, lit_of s <$> c) <$> cs.

(** [__atom] called on each triple of [ts] in turn. *)
Definition register_all (ts : list triple) (s : state) : state :=
  foldl (λ s t, register t s) s ts.

(** Adding one clause, and a list of clauses, given symbolically. *)
Definition emit_clause (c : list slit) (solver : list clause) : M (list clause) :=
  do ls ← for_in c (λ l ls,
             do x ← literal l.1.1.1 l.1.1.2 l.1.2 l.2;
             ret (ls ++ [x])) [];
  ret (add_clause solver ls).

Definition emit (cs : list (list slit)) : list clause → M (list clause) :=
  for_in cs emit_clause.

(** ** The atom tables over the life of an instance *)

(** A state with empty atom tables, as after construction. *)
Definition fresh : state := mkState (mkStore [] []) 0 ∅ ∅ None false.

(** The atom tables after the first encoding of the grid [G]. *)
Definition encoded (G : Grid) : state :=
  register_all (triples_of (sym_cnf G)) fresh.

Definition same_tables (s s' : state) : Prop :=
  atom_id s = atom_id s' ∧ id_atom s = id_atom s'.

(** The tables of an instance for [G]: empty until the first call of
    [solve_as_sat], those of [encoded G] from then on. *)
Definition tables_inv (G : Grid) (s : state) : Prop :=
  same_tables s fresh ∨ same_tables s (encoded G).

(** ** Models *)

(** The number of variables of a formula: the largest atom identifier
    that occurs in it. *)
Definition nvars (cnf : list clause) : Z :=
  foldr (λ c n, foldr (λ l n, Z.max (Z.abs l) n) n c) 0%Z cnf.

(** The literal [l] is true in the model [m]. *)
Definition holds (m : list Z) (l : Z) : bool := existsb (Z.eqb l) m.

(** [m] is what [get_model()] can return for the clauses [cnf] after
    [solve()] answered [True]: one signed integer per variable, in the
    order of the variables [1 .. nvars], that makes a literal of every
    clause true. *)
Definition is_model (cnf : list clause) (m : list Z) : bool :=
  bool_decide (Z.abs <$> m = seqZ 1 (nvars cnf)) && forallb (existsb (holds m)) cnf.

(** One round of the decoding loop, and the loop, on a grid value. *)
Definition decode_step (idm : gmap Z triple) (g : Grid) (value : Z) : Grid :=
  if (0 <? value)%Z then
    match idm !! value with
    | Some (row, col, number) => place g row col number
    | None => g
    end
  else g.

Definition decode_grid (idm : gmap Z triple) (model : list Z) (g : Grid) : Grid :=
  foldl (decode_step idm) g model.

(** The same on the value of a grid object with the row references
    [rr]. *)
Definition decode_step_shared (rr : list nat) (idm : gmap Z triple) (g : Grid) (value : Z)
    : Grid :=
  if (0 <? value)%Z then
    match idm !! value with
    | Some (row, col, number) => place_shared rr g row col number
    | None => g
    end
  else g.

Definition decode_shared (rr : list nat) (idm : gmap Z triple) (model : list Z) (g : Grid)
    : Grid :=
  foldl (decode_step_shared rr idm) g model.

(** The truth value that a solved grid [S] for [G] gives to the atom of a
    triple: the cell holds the number, or the number is the given entry of
    the cell (the atom of a blank cell's [0] is true as well). *)
Definition truth (G S : Grid) (t : triple) : bool :=
  (t.2 =? cell S t.1.1 t.1.2)%Z || (t.2 =? cell G t.1.1 t.1.2)%Z.

(** The model over [n] variables that [S] stands for. *)
Definition model_of (idm : gmap Z triple) (G S : Grid) (n : Z) : list Z :=
  (λ i, match idm !! i with
        | Some t => if truth G S t then i else (- i)%Z
        | None => (- i)%Z
        end) <$> seqZ 1 n.

(** ** The states of an instance *)

(** The oracle only returns models, and it finds one when there is one. *)
Definition oracle_sound (sat_solve : list clause → option (list Z)) : Prop :=
  ∀ cnf m, sat_solve cnf = Some m → is_model cnf m = true.

Definition oracle_complete (sat_solve : list clause → option (list Z)) : Prop :=
  ∀ cnf, sat_solve cnf = None → ∀ m, is_model cnf m = false.

Section Reachable.

Variable sat_solve : list clause → option (list Z).

(** The states of a [Sudoku] instance built from a grid object with the
    value [G]: the state after [Sudoku(grid)], and the states after any
    further calls of [solve_as_sat] and [solve_as_csp] that return. *)
Inductive reachable (G : Grid) : state → Prop :=
  | reachable_init h r s :
      h !! r = Some G → init h r = Ok s → reachable G s
  | reachable_sat s res s' :
      reachable G s → solve_as_sat sat_solve s = Ok (res, s') → reachable G s'
  | reachable_csp s res s' :
      reachable G s → solve_as_csp s = Ok (res, s') → reachable G s'.

End Reachable.

(** What every reachable state of an instance for [G] satisfies. *)
Definition instance_inv (G : Grid) (s : state) : Prop :=
  heap s !! self_grid s = Some G ∧ dims_ok G ∧ tables_inv G s.

(** ** Decidable checks and sample inputs *)

Definition dims_okb (g : Grid) : bool :=
  (length g =? 9) && forallb (λ row, length row =? 9) g.

(** [solves G S] as a computation. *)
Definition solvesb (G S : Grid) : bool :=
  dims_okb S &&
  forallb (λ row, forallb (λ col,
    (1 <=? cell S row col)%Z && (cell S row col <=? 9)%Z &&
    ((cell G row col =? 0)%Z || (cell S row col =? cell G row col)%Z))
    (seq 0 9)) (seq 0 9) &&
  checkb S.

(** An oracle that knows one assignment and answers with it when it is a
    model of the formula. *)
Definition hint_oracle (hint : list Z) (cnf : list clause) : option (list Z) :=
  if is_model cnf hint then Some hint else None.

(** All assignments to the variables [i .. i + k - 1], and the oracle that
    tries them all. *)
Fixpoint sign_vectors (k : nat) (i : Z) : list (list Z) :=
  match k with
  | 0 => [[]]
  | S k => rest ← sign_vectors k (i + 1); [i :: rest; (- i)%Z :: rest]
  end.

Definition brute_force (cnf : list clause) : option (list Z) :=
  List.find (is_model cnf) (sign_vectors (Z.to_nat (nvars cnf)) 1).

(** A solved Sudoku, the same with three blank cells, and a 9x9 grid with
    entries that are no digits. *)
Definition grid_solved : Grid :=
  [[5; 3; 4; 6; 7; 8; 9; 1; 2];
   [6; 7; 2; 1; 9; 5; 3; 4; 8];
   [1; 9; 8; 3; 4; 2; 5; 6; 7];
   [8; 5; 9; 7; 6; 1; 4; 2; 3];
   [4; 2; 6; 8; 5; 3; 7; 9; 1];
   [7; 1; 3; 9; 2; 4; 8; 5; 6];
   [9; 6; 1; 5; 3; 7; 2; 8; 4];
   [2; 8; 7; 4; 1; 9; 6; 3; 5];
   [3; 4; 5; 2; 8; 6; 1; 7; 9]]%Z.

Definition grid_blanks : Grid :=
  [[0; 3; 4; 6; 7; 8; 9; 1; 2];
   [6; 7; 2; 1; 9; 5; 3; 4; 8];
   [1; 9; 8; 3; 4; 2; 5; 6; 7];
   [8; 5; 9; 7; 6; 1; 4; 2; 3];
   [4; 2; 6; 8; 0; 3; 7; 9; 1];
   [7; 1; 3; 9; 2; 4; 8; 5; 6];
   [9; 6; 1; 5; 3; 7; 2; 8; 4];
   [2; 8; 7; 4; 1; 9; 6; 3; 5];
   [3; 4; 5; 2; 8; 6; 1; 7; 0]]%Z.

Definition grid_odd : Grid :=
  [[-1; 10; 0; 0; 0; 0; 0; 0; 0];
   [0; 0; 0; 0; 0; 0; 0; 0; 0];
   [0; 0; 0; 0; 0; 0; 0; 0; 0];
   [0; 0; 0; 0; 0; 0; 0; 0; 0];
   [0; 0; 0; 0; 0; 0; 0; 0; 0];
   [0; 0; 0; 0; 0; 0; 0; 0; 0];
   [0; 0; 0; 0; 0; 0; 0; 0; 0];
   [0; 0; 0; 0; 0; 0; 0; 0; 0];
   [0; 0; 0; 0; 0; 0; 0; 0; 77]]%Z.

(** A store with one grid object of the value [G], every row an object of
    its own, and the instance right after [Sudoku(grid)] for this grid. *)
Definition store_of (G : Grid) : store := mkStore G [seq 0 (length G)].

Definition constructed (G : Grid) : state := mkState (store_of G) 0 ∅ ∅ None false.

(** [grid_solved] without its rows 0 and 6, a store in which these two
    blank rows are one row object (the row object 0), and the instance for
    this grid object. *)
Definition grid_shared : Grid :=
  [[0; 0; 0; 0; 0; 0; 0; 0; 0];
   [6; 7; 2; 1; 9; 5; 3; 4; 8];
   [1; 9; 8; 3; 4; 2; 5; 6; 7];
   [8; 5; 9; 7; 6; 1; 4; 2; 3];
   [4; 2; 6; 8; 5; 3; 7; 9; 1];
   [7; 1; 3; 9; 2; 4; 8; 5; 6];
   [0; 0; 0; 0; 0; 0; 0; 0; 0];
   [2; 8; 7; 4; 1; 9; 6; 3; 5];
   [3; 4; 5; 2; 8; 6; 1; 7; 9]]%Z.

Definition store_shared : store :=
  mkStore
    [[0; 0; 0; 0; 0; 0; 0; 0; 0];
     [6; 7; 2; 1; 9; 5; 3; 4; 8];
     [1; 9; 8; 3; 4; 2; 5; 6; 7];
     [8; 5; 9; 7; 6; 1; 4; 2; 3];
     [4; 2; 6; 8; 5; 3; 7; 9; 1];
     [7; 1; 3; 9; 2; 4; 8; 5; 6];
     [2; 8; 7; 4; 1; 9; 6; 3; 5];
     [3; 4; 5; 2; 8; 6; 1; 7; 9]]%Z
    [[0; 1; 2; 3; 4; 5; 0; 6; 7]].

Definition constructed_shared : state := mkState store_shared 0 ∅ ∅ None false.

(** [grid_solved] without four entries that can be put back in two
    ways, and the second way. *)
Definition grid_two : Grid :=
  [[5; 3; 4; 0; 0; 8; 9; 1; 2];
   [6; 7; 2; 1; 9; 5; 3; 4; 8];
   [1; 9; 8; 3; 4; 2; 5; 6; 7];
   [8; 5; 9; 0; 0; 1; 4; 2; 3];
   [4; 2; 6; 8; 5; 3; 7; 9; 1];
   [7; 1; 3; 9; 2; 4; 8; 5; 6];
   [9; 6; 1; 5; 3; 7; 2; 8; 4];
   [2; 8; 7; 4; 1; 9; 6; 3; 5];
   [3; 4; 5; 2; 8; 6; 1; 7; 9]]%Z.

Definition grid_swapped : Grid :=
  [[5; 3; 4; 7; 6; 8; 9; 1; 2];
   [6; 7; 2; 1; 9; 5; 3; 4; 8];
   [1; 9; 8; 3; 4; 2; 5; 6; 7];
   [8; 5; 9; 6; 7; 1; 4; 2; 3];
   [4; 2; 6; 8; 5; 3; 7; 9; 1];
   [7; 1; 3; 9; 2; 4; 8; 5; 6];
   [9; 6; 1; 5; 3; 7; 2; 8; 4];
   [2; 8; 7; 4; 1; 9; 6; 3; 5];
   [3; 4; 5; 2; 8; 6; 1; 7; 9]]%Z.

(** ** Cells that are forced *)

(** The cells of the grid in row-major order. *)
Definition all_cells : list (nat * nat) :=
  row ← range 0 9; col ← range 0 9; [(row, col)].

(** The other cells of the row, the column and the box of a cell. *)
Definition peers (row col : nat) : list (nat * nat) :=
  filter (λ p, p ≠ (row, col) ∧
               (p.1 = row ∨ p.2 = col ∨ (p.1 / 3 = row / 3 ∧ p.2 / 3 = col / 3)))
    all_cells.

(** The digits that no peer of the cell holds. *)
Definition candidates (G : Grid) (row col : nat) : list Z :=
  filter (λ d, Forall (λ p, cell G p.1 p.2 ≠ d) (peers row col)) (seqZ 1 9).

(** A blank cell with one candidate gets it; one pass over the grid. *)
Definition fill_cell (G : Grid) (p : nat * nat) : Grid :=
  if decide (cell G p.1 p.2 = 0%Z) then
    match candidates G p.1 p.2 with
    | [d] => place G p.1 p.2 d
    | _ => G
    end
  else G.

Definition propagate (G : Grid) : Grid := foldl fill_cell G all_cells.

(** ** Counting the atoms *)

(** The triples of the nine digits of every cell. *)
Definition digit_triples : list triple :=
  p ← all_cells; number ← rangeZ 1 10; [(p.1, p.2, number)].

(** The cells whose given entry is no digit 1..9: the blank cells and the
    cells with an entry out of range. *)
Definition non_digit_cells (G : Grid) : list (nat * nat) :=
  filter (λ p, ¬ (1 ≤ cell G p.1 p.2 ≤ 9)%Z) all_cells.

(** ** Statements that the code does not satisfy *)

(** Unit clauses only for the cells with a given digit: a cell has a unit
    clause on one of its atoms exactly when its entry is not zero. *)
Definition unit_clauses_for_givens_only (G : Grid) (cnf : list clause) (s : state) : Prop :=
  ∀ row col, row < 9 → col < 9 →
    (∃ l number, [l] ∈ cnf ∧ id_atom s !! l = Some (row, col, number)) ↔
    cell G row col ≠ 0%Z.

(** Every call of a solve method finds the atom tables empty. *)
Definition registry_fresh_at_call
    (sat_solve : list clause → option (list Z)) (G : Grid) : Prop :=
  ∀ s, reachable sat_solve G s → atom_id s = ∅ ∧ id_atom s = ∅.

(** The two methods return the one solution of the grid, whatever objects
    the rows of the given grid are. *)
Definition solvers_agree_at
    (sat_solve : list clause → option (list Z)) (G : Grid) (s : state) : Prop :=
  oracle_sound sat_solve → oracle_complete sat_solve → reachable sat_solve G s →
  ∀ S, solves G S → (∀ S', solves G S' → S' = S) →
    ∃ ra sa rb sb,
      solve_as_sat sat_solve s = Ok (Some ra, sa) ∧ heap sa !! ra = Some S ∧
      solve_as_csp s = Ok (Some rb, sb) ∧ heap sb !! rb = Some S.

(** [solve_as_csp] returns the first solution of a solvable grid, whatever
    objects the rows of the given grid are. *)
Definition csp_lexmin_at
    (sat_solve : list clause → option (list Z)) (G : Grid) (s : state) : Prop :=
  reachable sat_solve G s →
  ∀ S0, solves G S0 →
    ∃ r s' sol, solve_as_csp s = Ok (Some r, s') ∧ heap s' !! r = Some sol ∧
                solves G sol ∧ ∀ S', solves G S' → grid_lex_le sol S'.

(** Every entry of the grid is a blank or a digit. *)
Definition proper (G : Grid) : Prop :=
  ∀ row col, row < 9 → col < 9 → (0 ≤ cell G row col ≤ 9)%Z.

(** A grid with two 5s in its first row and blanks elsewhere. *)
Definition grid_clash : Grid :=
  [[5; 0; 0; 5; 0; 0; 0; 0; 0];
   [0; 0; 0; 0; 0; 0; 0; 0; 0];
   [0; 0; 0; 0; 0; 0; 0; 0; 0];
   [0; 0; 0; 0; 0; 0; 0; 0; 0];
   [0; 0; 0; 0; 0; 0; 0; 0; 0];
   [0; 0; 0; 0; 0; 0; 0; 0; 0];
   [0; 0; 0; 0; 0; 0; 0; 0; 0];
   [0; 0; 0; 0; 0; 0; 0; 0; 0];
   [0; 0; 0; 0; 0; 0; 0; 0; 0]]%Z.
(** * Properties *)

(** ** Monad laws used to step through methods *)

Lemma bind_Ok {A B} (m : M A) (k : A → M B) s b s' :
  bind m k s = Ok (b, s') ↔ ∃ a s1, m s = Ok (a, s1) ∧ k a s1 = Ok (b, s').
Proof.
  unfold bind. destruct (m s) as [[a s1]|e]; split.
  - intros H. by exists a, s1.
  - by intros (a' & s1' & [= <- <-] & H).
  - done.
  - by intros (a' & s1' & [=] & _).
Qed.

Lemma bind_assoc {A B C} (m : M A) (k1 : A → M B) (k2 : B → M C) s :
  bind (bind m k1) k2 s = bind m (λ x, bind (k1 x) k2) s.
Proof. unfold bind. by destruct (m s) as [[a s1]|e]. Qed.

Lemma bind_ext {A B} (m : M A) (k1 k2 : A → M B) s :
  (∀ a s', k1 a s' = k2 a s') → bind m k1 s = bind m k2 s.
Proof. intros Hk. unfold bind. by destruct (m s) as [[a s1]|e]. Qed.

Lemma bind_cong {A B} (m1 m2 : M A) (k1 k2 : A → M B) s :
  m1 s = m2 s → (∀ a s', k1 a s' = k2 a s') → bind m1 k1 s = bind m2 k2 s.
Proof. intros Hm Hk. unfold bind. rewrite Hm. by destruct (m2 s) as [[a s1]|e]. Qed.

Lemma bind_step {A B} (m : M A) (k : A → M B) s a s1 :
  m s = Ok (a, s1) → bind m k s = k a s1.
Proof. unfold bind. by intros ->. Qed.

(** A loop whose body does not touch the state is a fold. *)
Lemma for_in_pure {A S} (l : list A) (body : A → S → M S) (f : A → S → S) acc s :
  (∀ x a, x ∈ l → body x a s = Ok (f x a, s)) →
  for_in l body acc s = Ok (foldl (λ a x, f x a) acc l, s).
Proof.
  revert acc. induction l as [|x l IH]; intros acc Hb; simpl; [done|].
  rewrite (bind_step _ _ _ _ _ (Hb x acc ltac:(left))).
  apply IH. intros y a Hy. apply Hb. by right.
Qed.

Lemma for_all_pure {A} (l : list A) (check : A → M bool) (p : A → bool) s :
  (∀ x, x ∈ l → check x s = Ok (p x, s)) →
  for_all l check s = Ok (forallb p l, s).
Proof.
  induction l as [|x l IH]; intros Hc; simpl; [done|].
  rewrite (bind_step _ _ _ _ _ (Hc x ltac:(left))).
  destruct (p x); simpl; [|done].
  apply IH. intros y Hy. apply Hc. by right.
Qed.

Lemma elem_of_range a b x : x ∈ range a b ↔ a ≤ x < b.
Proof. unfold range. rewrite elem_of_seq. lia. Qed.

Lemma elem_of_rangeZ a b x : x ∈ rangeZ a b ↔ (a ≤ x < b)%Z.
Proof. unfold rangeZ. rewrite elem_of_seqZ. lia. Qed.

(** ** Dimensions and cells *)

Lemma dims_ok_lookup g row col :
  dims_ok g → row < 9 → col < 9 →
  ∃ line, g !! row = Some line ∧ length line = 9 ∧ line !! col = Some (cell g row col).
Proof.
  intros [Hlen Hrows] Hr Hc.
  destruct (lookup_lt_is_Some_2 g row) as [line Hline]; [lia|].
  assert (length line = 9) as Hl by (apply Hrows; by eapply list_elem_of_lookup_2).
  destruct (lookup_lt_is_Some_2 line col) as [v Hv]; [lia|].
  exists line. unfold cell. rewrite Hline. simpl. by rewrite Hv.
Qed.

Lemma getitem_cell s r g row col :
  heap s !! r = Some g → dims_ok g → row < 9 → col < 9 →
  getitem r row col s = Ok (cell g row col, s).
Proof.
  intros Hg Hd Hr Hc.
  destruct (dims_ok_lookup g row col Hd Hr Hc) as (line & Hl & _ & Hv).
  unfold getitem, load, bind. rewrite Hg, Hl, Hv. done.
Qed.

(** ** The constructor *)

Lemma init_ok h r g :
  h !! r = Some g → dims_ok g → init h r = Ok (mkState h r ∅ ∅ None false).
Proof.
  intros Hg [Hlen Hrows]. unfold init. rewrite Hg, Hlen. simpl.
  replace (forallb (λ row, length row =? 9) g) with true; [done|].
  symmetry. apply forallb_forall. intros row Hrow.
  apply Nat.eqb_eq, Hrows. by apply list_elem_of_In.
Qed.

Lemma init_inv h r s :
  init h r = Ok s →
  s = mkState h r ∅ ∅ None false ∧ ∃ g, h !! r = Some g ∧ dims_ok g.
Proof.
  unfold init. destruct (h !! r) as [g|] eqn:Hg; [|done].
  destruct (length g =? 9) eqn:Hlen; simpl; [|done].
  destruct (forallb _ g) eqn:Hall; [|done].
  intros [= <-]. split; [done|]. exists g. split; [done|]. split.
  - by apply Nat.eqb_eq.
  - intros row Hrow. rewrite forallb_forall in Hall.
    apply Nat.eqb_eq, Hall. by apply list_elem_of_In.
Qed.

Lemma init_raises h r g :
  h !! r = Some g → init h r = Raise ValueError ↔ ¬ dims_ok g.
Proof.
  intros Hg. split.
  - intros Hraise Hd. by rewrite (init_ok _ _ _ Hg Hd) in Hraise.
  - intros Hnd. unfold init. rewrite Hg.
    destruct (length g =? 9) eqn:Hlen; simpl; [|done].
    destruct (forallb _ g) eqn:Hall; [|done].
    destruct Hnd. split; [by apply Nat.eqb_eq|].
    intros row Hrow. rewrite forallb_forall in Hall.
    apply Nat.eqb_eq, Hall. by apply list_elem_of_In.
Qed.

Lemma not_dims_ok g :
  ¬ dims_ok g ↔ length g ≠ 9 ∨ ∃ row, row ∈ g ∧ length row ≠ 9.
Proof.
  split.
  - intros Hnd. destruct (decide (length g = 9)) as [Hlen|]; [|by left].
    right. destruct (decide (Forall (λ row, length row = 9) g)) as [HF|HF].
    + destruct Hnd. split; [done|]. by apply Forall_forall.
    + apply not_Forall_Exists in HF; [|solve_decision].
      apply Exists_exists in HF as (row & Hin & Hlen'). eauto.
  - intros [Hlen|(row & Hin & Hlen)] [Hl Hrows]; [done|]. by apply Hlen, Hrows.
Qed.

(** ** The atom registry *)

Lemma atom_register row col number s :
  atom row col number s =
  Ok (id_of (register (row, col, number) s) (row, col, number),
      register (row, col, number) s).
Proof.
  unfold atom, register, id_of, bind, get, modify, ret. simpl.
  destruct (atom_id s !! (row, col, number)) as [i|] eqn:Hknown.
  - by rewrite Hknown.
  - simpl. by rewrite !lookup_insert_eq.
Qed.

Lemma register_known t s i : atom_id s !! t = Some i → register t s = s.
Proof. unfold register. by intros ->. Qed.

Lemma register_new t s :
  atom_id s !! t = None →
  atom_id (register t s) = <[t := (Z.of_nat (size (atom_id s)) + 1)%Z]> (atom_id s) ∧
  id_atom (register t s) = <[(Z.of_nat (size (atom_id s)) + 1)%Z := t]> (id_atom s) ∧
  size (atom_id (register t s)) = S (size (atom_id s)).
Proof.
  intros Hnew. unfold register. rewrite Hnew. simpl.
  split_and!; [done..|]. by apply map_size_insert_None.
Qed.

Lemma register_frame t s :
  heap (register t s) = heap s ∧ self_grid (register t s) = self_grid s ∧
  solution (register t s) = solution s ∧
  solution_found (register t s) = solution_found s.
Proof. unfold register. by destruct (atom_id s !! t). Qed.

Lemma register_registered t s :
  atom_id (register t s) !! t = Some (id_of (register t s) t).
Proof.
  unfold id_of. destruct (atom_id s !! t) as [i|] eqn:Hk.
  - rewrite (register_known _ _ _ Hk), Hk. done.
  - destruct (register_new _ _ Hk) as (-> & _ & _). by rewrite lookup_insert_eq.
Qed.

Lemma register_size t s : size (atom_id s) ≤ size (atom_id (register t s)).
Proof.
  destruct (atom_id s !! t) as [i|] eqn:Hk.
  - by rewrite (register_known _ _ _ Hk).
  - destruct (register_new _ _ Hk) as (_ & _ & ->). lia.
Qed.

Lemma register_atom_id_mono t' s t i :
  atom_id s !! t = Some i → atom_id (register t' s) !! t = Some i.
Proof.
  intros Ht. destruct (atom_id s !! t') as [j|] eqn:Hk.
  - by rewrite (register_known _ _ _ Hk).
  - destruct (register_new _ _ Hk) as (-> & _ & _).
    rewrite lookup_insert_ne; [done|]. intros ->. congruence.
Qed.

Lemma register_id_atom_mono t' s t i :
  id_atom s !! i = Some t → (i ≤ Z.of_nat (size (atom_id s)))%Z →
  id_atom (register t' s) !! i = Some t.
Proof.
  intros Hi Hle. destruct (atom_id s !! t') as [j|] eqn:Hk.
  - by rewrite (register_known _ _ _ Hk).
  - destruct (register_new _ _ Hk) as (_ & -> & _).
    rewrite lookup_insert_ne; [done|]. lia.
Qed.

Lemma register_wf t s : reg_wf s → reg_wf (register t s).
Proof.
  intros (Hfwd & Hbwd & Hdense). destruct (atom_id s !! t) as [j|] eqn:Hk.
  { by rewrite (register_known _ _ _ Hk). }
  destruct (register_new _ _ Hk) as (Ha & Hi & Hs).
  split_and!.
  - intros t' i. rewrite Ha, Hi. destruct (decide (t = t')) as [<-|Hne].
    + rewrite lookup_insert_eq. intros [= <-]. by rewrite lookup_insert_eq.
    + rewrite lookup_insert_ne by done. intros Ht'.
      rewrite lookup_insert_ne; [by apply Hfwd|].
      intros <-. apply Hfwd, Hbwd in Ht' as [_ ?]. lia.
  - intros i t'. rewrite Hs, Ha, Hi.
    destruct (decide (Z.of_nat (size (atom_id s)) + 1 = i)%Z) as [<-|Hne].
    + rewrite lookup_insert_eq. intros [= <-]. rewrite lookup_insert_eq. split; [done|lia].
    + rewrite lookup_insert_ne by done. intros Hi'.
      destruct (Hbwd _ _ Hi') as [Ht' ?]. split; [|lia].
      rewrite lookup_insert_ne; [done|]. intros <-. congruence.
  - intros i. rewrite Hs, Hi. intros Hrange.
    destruct (decide (Z.of_nat (size (atom_id s)) + 1 = i)%Z) as [<-|Hne].
    + rewrite lookup_insert_eq. by eexists.
    + rewrite lookup_insert_ne by done. apply Hdense. lia.
Qed.

Lemma atom_calls_register s s' : atom_calls s s' →
  size (atom_id s) ≤ size (atom_id s') ∧
  (∀ t i, atom_id s !! t = Some i → atom_id s' !! t = Some i) ∧
  (∀ i t, id_atom s !! i = Some t → (i ≤ Z.of_nat (size (atom_id s)))%Z →
          id_atom s' !! i = Some t).
Proof.
  induction 1 as [s|s s1 s2 row col number i _ (IHs & IHa & IHi) Hcall].
  - done.
  - rewrite atom_register in Hcall. injection Hcall as _ <-.
    split_and!.
    + etrans; [exact IHs|apply register_size].
    + intros t j Ht. by apply register_atom_id_mono, IHa.
    + intros j t Hj Hle. apply register_id_atom_mono; [by apply IHi|lia].
Qed.

(** Identifiers are positive, so negating one gives a negative literal. *)
Lemma atom_positive s t i : reg_wf s → atom_id s !! t = Some i → (1 ≤ i)%Z.
Proof. intros (Hfwd & Hbwd & _) Ht. apply Hfwd, Hbwd in Ht as [_ ?]. lia. Qed.

(** ** The constraint checker *)

Lemma scan_spec (entries : list Z) (acc : gset Z * nat) :
  foldl (λ acc e, count_entry e acc) acc entries =
  (list_to_set (filter (λ e, e ≠ 0%Z) entries) ∪ acc.1,
   length (filter (λ e, e ≠ 0%Z) entries) + acc.2).
Proof.
  revert acc. induction entries as [|e es IH]; intros [numbers n]; simpl.
  - by rewrite (left_id_L ∅ (∪)).
  - rewrite IH. unfold count_entry. destruct (decide (e = 0%Z)) as [->|Hne]; simpl.
    + by rewrite filter_cons_False by (intros ?; done).
    + rewrite filter_cons_True by done. simpl. f_equal; [|lia].
      by rewrite (assoc_L (∪)), (comm_L (∪) _ {[e]}).
Qed.

Lemma size_list_to_set_le (l : list Z) : size (list_to_set (C:=gset Z) l) ≤ length l.
Proof.
  induction l as [|x l IH].
  - done.
  - rewrite list_to_set_cons, size_union_alt, size_singleton. simpl.
    pose proof (subseteq_size (list_to_set l ∖ {[x]}) (list_to_set (C:=gset Z) l)
                  ltac:(set_solver)). lia.
Qed.

Lemma size_list_to_set_NoDup (l : list Z) :
  length l = size (list_to_set (C:=gset Z) l) ↔ NoDup l.
Proof.
  split; [|intros Hnd; by rewrite size_list_to_set].
  induction l as [|x l IH]; [constructor|].
  rewrite list_to_set_cons. simpl.
  intros Hsize. pose proof (size_list_to_set_le l) as Hle.
  destruct (decide (x ∈ l)) as [Hin|Hnin].
  - replace ({[x]} ∪ list_to_set l : gset Z) with (list_to_set l : gset Z) in Hsize
      by set_solver. lia.
  - rewrite size_union, size_singleton in Hsize by set_solver.
    constructor; [done|]. apply IH. lia.
Qed.

Lemma unit_ok_NoDup entries :
  unit_ok entries = true ↔ NoDup (filter (λ e, e ≠ 0%Z) entries).
Proof.
  unfold unit_ok, unit_clash. rewrite scan_spec. simpl.
  rewrite negb_involutive, Nat.eqb_eq, Nat.add_0_r, (right_id_L ∅ (∪)).
  apply size_list_to_set_NoDup.
Qed.

Lemma unit_ok_distinct g coords :
  NoDup coords →
  unit_ok ((λ p, cell g p.1 p.2) <$> coords) = true ↔ unit_distinct g coords.
Proof.
  rewrite unit_ok_NoDup. unfold unit_distinct.
  induction 1 as [|p0 coords Hp0 Hnd IH]; simpl.
  - split; [intros _ p q Hp; by apply elem_of_nil in Hp|constructor].
  - destruct (decide (cell g p0.1 p0.2 = 0%Z)) as [Hz|Hnz].
    + rewrite filter_cons_False by (intros ?; done). rewrite IH. split.
      * intros Hd p q [->|Hp]%elem_of_cons [->|Hq]%elem_of_cons Hpq Hv; try done.
        -- congruence.
        -- by apply Hd.
      * intros Hd p q Hp Hq. apply Hd; by right.
    + rewrite filter_cons_True by done. rewrite NoDup_cons, IH.
      rewrite list_elem_of_filter, list_elem_of_fmap. split.
      * intros [Hfresh Hd] p q [->|Hp]%elem_of_cons [->|Hq]%elem_of_cons Hpq Hv;
          try done.
        -- intros Heq. apply Hfresh. split; [done|]. by exists q.
        -- intros Heq. apply Hfresh. split; [done|]. exists p. by rewrite Heq.
        -- by apply Hd.
      * intros Hd. split.
        -- intros [_ (q & Heq & Hq)]. apply (Hd p0 q); [by left|by right| |done..].
           intros ->. done.
        -- intros p q Hp Hq. apply Hd; by right.
Qed.

Lemma scan_loop (entries : list Z) acc s :
  for_in entries (λ entry acc, ret (count_entry entry acc)) acc s =
  Ok (foldl (λ acc e, count_entry e acc) acc entries, s).
Proof. by apply (for_in_pure entries _ (λ e a, count_entry e a)). Qed.

Lemma foldl_fmap {A B C} (f : C → B → C) (h : A → B) (l : list A) acc :
  foldl (λ a x, f a (h x)) acc l = foldl f acc (h <$> l).
Proof. revert acc. induction l as [|x l IH]; intros acc; simpl; [done|apply IH]. Qed.

Lemma foldl_pairs {A B C} (f : C → A * B → C) (l1 : list A) (l2 : list B) acc :
  foldl (λ a x, foldl (λ a y, f a (x, y)) a l2) acc l1 =
  foldl f acc (x ← l1; y ← l2; [(x, y)]).
Proof.
  revert acc. induction l1 as [|x l1 IH]; intros acc; simpl; [done|].
  rewrite foldl_app, <- IH. f_equal.
  clear. revert acc. induction l2 as [|y l2 IH]; intros acc; simpl; [done|apply IH].
Qed.

Lemma check_constraints_eq s r g :
  heap s !! r = Some g → dims_ok g → check_constraints r s = Ok (checkb g, s).
Proof.
  intros Hg Hd. unfold check_constraints, checkb.
  rewrite (bind_step _ _ s g s) by (unfold load; by rewrite Hg).
  (* rows *)
  rewrite (bind_step _ _ s (forallb unit_ok g) s).
  2:{ apply for_all_pure. intros row _.
      by rewrite (bind_step _ _ _ _ _ (scan_loop row _ s)). }
  destruct (forallb unit_ok g); cbn [negb andb]; [|done].
  (* columns *)
  rewrite (bind_step _ _ s
    (forallb (λ col, unit_ok ((λ row : list Z, default 0%Z (row !! col)) <$> g))
       (range 0 9)) s).
  2:{ apply for_all_pure. intros col Hcol%elem_of_range.
      erewrite bind_step.
      2:{ apply (for_in_pure g _ (λ (row : list Z) a, count_entry (default 0%Z (row !! col)) a)).
          intros row a Hrow. destruct Hd as [_ Hrows].
          destruct (lookup_lt_is_Some_2 row col) as [v Hv]; [rewrite Hrows by done; lia|].
          by rewrite Hv. }
      unfold ret, unit_ok. by rewrite <- foldl_fmap. }
  destruct (forallb _ (range 0 9)); cbn [negb andb]; [|done].
  (* boxes *)
  apply for_all_pure. intros rowS HrowS.
  apply for_all_pure. intros colS HcolS.
  assert (rowS + 3 ≤ 9 ∧ colS + 3 ≤ 9) as [HrS HcS].
  { revert HrowS HcolS. unfold range_step. simpl.
    rewrite !elem_of_cons, !elem_of_nil. lia. }
  erewrite bind_step.
  2:{ apply (for_in_pure _ _ (λ row a,
               foldl (λ a col, count_entry (cell g row col) a) a (range colS (colS + 3)))).
      intros row a Hrow%elem_of_range.
      apply (for_in_pure _ _ (λ col a, count_entry (cell g row col) a)).
      intros col a' Hcol%elem_of_range.
      by rewrite (bind_step _ _ _ _ _ (getitem_cell s r g row col Hg Hd ltac:(lia) ltac:(lia))). }
  unfold ret, unit_ok, box_coords. do 3 f_equal.
  rewrite <- foldl_fmap. f_equal.
  exact (foldl_pairs (λ a p, count_entry (cell g p.1 p.2) a) _ _ _).
Qed.

Lemma row_entries g r :
  dims_ok g → r < 9 →
  g !! r = Some ((λ p, cell g p.1 p.2) <$> ((λ c, (r, c)) <$> seq 0 9)).
Proof.
  intros Hd Hr. destruct (dims_ok_lookup g r 0 Hd Hr ltac:(lia)) as (line & Hl & Hlen & _).
  rewrite Hl. f_equal. apply list_eq. intros c.
  rewrite <- list_fmap_compose, list_lookup_fmap.
  destruct (decide (c < 9)) as [Hc|Hc].
  - rewrite lookup_seq_lt by done. simpl.
    destruct (dims_ok_lookup g r c Hd Hr Hc) as (line' & Hl' & _ & Hv). congruence.
  - rewrite lookup_seq_ge by lia. apply lookup_ge_None. lia.
Qed.

Lemma column_entries g c :
  dims_ok g → c < 9 →
  (λ row : list Z, default 0%Z (row !! c)) <$> g =
  (λ p, cell g p.1 p.2) <$> ((λ r, (r, c)) <$> seq 0 9).
Proof.
  intros Hd Hc. apply list_eq. intros r.
  rewrite <- list_fmap_compose, !list_lookup_fmap.
  destruct (decide (r < 9)) as [Hr|Hr].
  - rewrite lookup_seq_lt by done. simpl.
    destruct (dims_ok_lookup g r c Hd Hr Hc) as (line & Hl & _ & Hv).
    rewrite Hl. simpl. by rewrite Hv.
  - rewrite lookup_seq_ge by lia. destruct Hd as [Hlen _].
    rewrite (lookup_ge_None_2 g r) by lia. done.
Qed.

Lemma rows_ok_iff g :
  dims_ok g → forallb unit_ok g = true ↔ rows_distinct g.
Proof.
  intros Hd. rewrite forallb_forall. split.
  - intros Hall r c1 c2 Hr Hc1 Hc2 Hne.
    pose proof (row_entries g r Hd Hr) as Hrow.
    assert (unit_ok ((λ p, cell g p.1 p.2) <$> ((λ c, (r, c)) <$> seq 0 9)) = true) as Hok.
    { apply Hall, list_elem_of_In. by eapply list_elem_of_lookup_2. }
    apply unit_ok_distinct in Hok.
    2:{ apply NoDup_fmap_2; [intros ?? [=]; done|apply NoDup_seq]. }
    apply (Hok (r, c1) (r, c2)).
    + apply list_elem_of_fmap. exists c1. split; [done|]. apply elem_of_seq. lia.
    + apply list_elem_of_fmap. exists c2. split; [done|]. apply elem_of_seq. lia.
    + congruence.
  - intros Hdist line Hin. apply list_elem_of_In, list_elem_of_lookup in Hin as [r Hr].
    assert (r < 9) as Hlt.
    { destruct Hd as [Hlen _]. apply lookup_lt_Some in Hr. lia. }
    pose proof (row_entries g r Hd Hlt) as Hrow. rewrite Hr in Hrow.
    apply (inj Some) in Hrow. subst line.
    apply unit_ok_distinct.
    { apply NoDup_fmap_2; [intros ?? [=]; done|apply NoDup_seq]. }
    intros p q (c1 & -> & Hc1%elem_of_seq)%list_elem_of_fmap
               (c2 & -> & Hc2%elem_of_seq)%list_elem_of_fmap Hne.
    simpl. apply Hdist; [lia..|]. congruence.
Qed.

Lemma columns_ok_iff g :
  dims_ok g →
  forallb (λ col, unit_ok ((λ row : list Z, default 0%Z (row !! col)) <$> g)) (range 0 9)
    = true ↔ columns_distinct g.
Proof.
  intros Hd. rewrite forallb_forall. split.
  - intros Hall c r1 r2 Hc Hr1 Hr2 Hne.
    specialize (Hall c). rewrite (column_entries g c Hd Hc) in Hall.
    apply unit_ok_distinct in Hall.
    + apply (Hall (r1, c) (r2, c)).
      * apply list_elem_of_fmap. exists r1. split; [done|]. apply elem_of_seq. lia.
      * apply list_elem_of_fmap. exists r2. split; [done|]. apply elem_of_seq. lia.
      * congruence.
    + apply NoDup_fmap_2; [intros ?? [=]; done|apply NoDup_seq].
    + apply list_elem_of_In, elem_of_range. lia.
  - intros Hdist c Hc%list_elem_of_In%elem_of_range.
    rewrite (column_entries g c Hd) by lia.
    apply unit_ok_distinct.
    { apply NoDup_fmap_2; [intros ?? [=]; done|apply NoDup_seq]. }
    intros p q (r1 & -> & Hr1%elem_of_seq)%list_elem_of_fmap
               (r2 & -> & Hr2%elem_of_seq)%list_elem_of_fmap Hne.
    simpl. apply Hdist; [lia..|]. congruence.
Qed.

Lemma elem_of_box_coords rowS colS r c :
  (r, c) ∈ box_coords rowS colS ↔ rowS ≤ r < rowS + 3 ∧ colS ≤ c < colS + 3.
Proof.
  unfold box_coords. rewrite list_elem_of_bind. split.
  - intros (row & (col & Hin & Hcol%elem_of_range)%list_elem_of_bind & Hrow%elem_of_range).
    apply list_elem_of_singleton in Hin as [= -> ->]. lia.
  - intros [Hr Hc]. exists r. split; [|apply elem_of_range; lia].
    apply list_elem_of_bind. exists c. split; [by apply list_elem_of_singleton|].
    apply elem_of_range. lia.
Qed.

Lemma NoDup_box_coords rowS colS : NoDup (box_coords rowS colS).
Proof.
  unfold box_coords, range.
  replace (rowS + 3 - rowS) with 3 by lia. replace (colS + 3 - colS) with 3 by lia.
  simpl. repeat (apply NoDup_cons; split;
    [rewrite ?elem_of_cons, elem_of_nil; intros ?; destruct_or?; simplify_eq; lia|]).
  constructor.
Qed.

Lemma elem_of_box_corner x : x ∈ range_step 0 9 3 ↔ x = 0 ∨ x = 3 ∨ x = 6.
Proof.
  unfold range_step. simpl. rewrite !elem_of_cons, elem_of_nil. lia.
Qed.

(** Division by 3 for [lia]: the quotient and remainder of [r]. *)
Ltac euclid3 r :=
  pose proof (Nat.div_mod_eq r 3);
  pose proof (Nat.mod_upper_bound r 3 ltac:(lia)).

Lemma boxes_ok_iff g :
  forallb (λ rowS,
    forallb (λ colS, unit_ok ((λ p, cell g p.1 p.2) <$> box_coords rowS colS))
      (range_step 0 9 3)) (range_step 0 9 3) = true ↔ boxes_distinct g.
Proof.
  rewrite forallb_forall. split.
  - intros Hall r1 c1 r2 c2 Hr1 Hc1 Hr2 Hc2 Hne Hrb Hcb.
    euclid3 r1. euclid3 c1. euclid3 r2. euclid3 c2.
    specialize (Hall (3 * (r1 / 3))). rewrite forallb_forall in Hall.
    specialize (Hall ltac:(apply list_elem_of_In, elem_of_box_corner; lia) (3 * (c1 / 3))
                     ltac:(apply list_elem_of_In, elem_of_box_corner; lia)).
    apply unit_ok_distinct in Hall; [|apply NoDup_box_coords].
    apply (Hall (r1, c1) (r2, c2)); [apply elem_of_box_coords; lia..|done].
  - intros Hdist rowS HrowS%list_elem_of_In%elem_of_box_corner.
    apply forallb_forall. intros colS HcolS%list_elem_of_In%elem_of_box_corner.
    apply unit_ok_distinct; [apply NoDup_box_coords|].
    intros [r1 c1] [r2 c2] [??]%elem_of_box_coords [??]%elem_of_box_coords Hne.
    euclid3 r1. euclid3 c1. euclid3 r2. euclid3 c2.
    simpl. apply Hdist; [lia..|done|lia|lia].
Qed.

Lemma checkb_consistent g : dims_ok g → (checkb g = true ↔ consistent g).
Proof.
  intros Hd. unfold checkb, consistent.
  rewrite !andb_true_iff, (rows_ok_iff g Hd), (columns_ok_iff g Hd), boxes_ok_iff.
  tauto.
Qed.

(** ** The object store: what the writes touch *)

Lemma place_dims g row col v : dims_ok g → dims_ok (place g row col v).
Proof.
  intros [Hlen Hrows]. unfold place. destruct (g !! row) as [line|] eqn:Hl; [|done].
  split; [by rewrite length_insert|].
  intros line' [j Hj]%list_elem_of_lookup.
  apply list_lookup_insert_Some in Hj as [(_ & <- & _)|[_ Hj]].
  - rewrite length_insert. apply Hrows. by eapply list_elem_of_lookup_2.
  - apply Hrows. by eapply list_elem_of_lookup_2.
Qed.

Lemma cell_place g row col v r c :
  dims_ok g → row < 9 → col < 9 →
  cell (place g row col v) r c = if decide (r = row ∧ c = col) then v else cell g r c.
Proof.
  intros Hd Hr Hc.
  destruct (dims_ok_lookup g row col Hd Hr Hc) as (line & Hl & Hlen & _).
  unfold place, cell. rewrite Hl.
  destruct (decide (r = row)) as [->|Hne].
  - rewrite list_lookup_insert_eq by (by eapply lookup_lt_Some). rewrite Hl. simpl.
    destruct (decide (c = col)) as [->|Hnc].
    + rewrite list_lookup_insert_eq by lia. by rewrite decide_True.
    + rewrite list_lookup_insert_ne by done. rewrite decide_False by tauto. done.
  - rewrite list_lookup_insert_ne by done. rewrite decide_False by tauto. done.
Qed.

Lemma place_shared_dims rr g row col v :
  dims_ok g → dims_ok (place_shared rr g row col v).
Proof.
  intros [Hlen Hrows]. unfold place_shared. split; [by rewrite length_imap|].
  intros line' [j Hj]%list_elem_of_lookup. rewrite list_lookup_imap in Hj.
  destruct (g !! j) as [line|] eqn:Hl; [|done]. simpl in Hj. injection Hj as <-.
  assert (length line = 9) by (apply Hrows; by eapply list_elem_of_lookup_2).
  destruct (decide _); [by rewrite length_insert|done].
Qed.

Lemma cell_place_shared rr g row col v r c :
  dims_ok g → r < 9 → col < 9 →
  cell (place_shared rr g row col v) r c =
  if decide (rr !! r = rr !! row ∧ c = col) then v else cell g r c.
Proof.
  intros Hd Hr Hc.
  destruct (dims_ok_lookup g r col Hd Hr Hc) as (line & Hl & Hlen & _).
  unfold place_shared, cell. rewrite list_lookup_imap, Hl. simpl.
  destruct (decide (rr !! r = rr !! row)) as [Heq|Hne].
  - destruct (decide (c = col)) as [->|Hnc].
    + rewrite list_lookup_insert_eq by lia. by rewrite decide_True.
    + rewrite list_lookup_insert_ne by done. rewrite decide_False by tauto. done.
  - rewrite decide_False by tauto. done.
Qed.

(** Where no two rows are one object, a write changes one row. *)
Lemma place_shared_distinct rr g row col v :
  NoDup rr → length rr = 9 → dims_ok g → row < 9 →
  place_shared rr g row col v = place g row col v.
Proof.
  intros Hnd Hlen Hd Hr.
  destruct (dims_ok_lookup g row 0 Hd Hr ltac:(lia)) as (line & Hl & _ & _).
  unfold place_shared, place. rewrite Hl. apply list_eq. intros i.
  rewrite list_lookup_imap. destruct (decide (i = row)) as [->|Hne].
  - rewrite list_lookup_insert_eq by (by eapply lookup_lt_Some). rewrite Hl. simpl.
    by rewrite decide_True.
  - rewrite list_lookup_insert_ne by done. destruct (g !! i) as [l|] eqn:Hi; [|done]. simpl.
    rewrite decide_False; [done|]. intros Heq.
    destruct (lookup_lt_is_Some_2 rr row) as [x Hx]; [lia|].
    rewrite Hx in Heq. by apply Hne, (NoDup_lookup rr i row x).
Qed.

Lemma place_shared_sharing rr ys g row col v :
  same_sharing rr ys → place_shared ys g row col v = place_shared rr g row col v.
Proof.
  intros [_ Hsame]. unfold place_shared. apply imap_ext. intros i line _.
  apply decide_ext, Hsame.
Qed.

#[local] Instance same_sharing_equiv : Equivalence same_sharing.
Proof.
  split.
  - intros rr. by split.
  - intros rr ys [Hlen Hsame]. split; [done|]. intros i j. by rewrite Hsame.
  - intros r1 r2 r3 [Hlen1 Hs1] [Hlen2 Hs2]. split; [congruence|].
    intros i j. by rewrite Hs2, Hs1.
Qed.

(** *** Reading the store *)

Lemma store_lookup_Some (h : store) r g :
  h !! r = Some g ↔ ∃ rr, grid_objs h !! r = Some rr ∧ deref (row_objs h) rr = Some g.
Proof. unfold lookup at 1, store_lookup. by rewrite bind_Some. Qed.

Lemma deref_Some rws rr g :
  deref rws rr = Some g ↔ Forall2 (λ x line, rws !! x = Some line) rr g.
Proof. apply mapM_Some. Qed.

Lemma deref_prefix rws rws' rr g :
  rws `prefix_of` rws' → deref rws rr = Some g → deref rws' rr = Some g.
Proof.
  intros Hp. rewrite !deref_Some. intros HF. eapply Forall2_impl; [exact HF|].
  intros x line Hx. cbv beta in *. eapply prefix_lookup_Some; [exact Hx|exact Hp].
Qed.

Lemma deref_valid rws rr g : deref rws rr = Some g → Forall (λ x, x < length rws) rr.
Proof.
  rewrite deref_Some. intros HF. apply Forall_forall. intros x [i Hi]%list_elem_of_lookup.
  destruct (Forall2_lookup_l _ _ _ _ _ HF Hi) as (line & _ & Hx). by eapply lookup_lt_Some.
Qed.

#[local] Instance store_prefix_preorder : PreOrder store_prefix.
Proof.
  split.
  - intros h. by split.
  - intros h1 h2 h3 [? ?] [? ?]. split; by etrans.
Qed.

Lemma store_prefix_lookup h h' r g :
  store_prefix h h' → h !! r = Some g → h' !! r = Some g.
Proof.
  intros [Hrows Hgrids]. rewrite !store_lookup_Some. intros (rr & Hrr & Hd).
  exists rr. split; [by eapply prefix_lookup_Some|by eapply deref_prefix].
Qed.

Lemma store_prefix_objs h h' r rr :
  store_prefix h h' → grid_objs h !! r = Some rr → grid_objs h' !! r = Some rr.
Proof. intros [_ Hgrids] Hrr. by eapply prefix_lookup_Some. Qed.

(** The value of the store with one grid whose rows are objects of their
    own. *)
Lemma store_of_lookup G : store_of G !! 0 = Some G.
Proof.
  apply store_lookup_Some. exists (seq 0 (length G)). split; [done|].
  apply deref_Some, Forall2_same_length_lookup. split; [by rewrite length_seq|].
  intros i x line Hx%lookup_seq Hline. destruct Hx as [-> _]. done.
Qed.

Lemma store_of_distinct G : distinct_rows (constructed G).
Proof. exists (seq 0 (length G)). split; [done|apply NoDup_seq]. Qed.

(** *** Writing to a row object *)

Lemma deref_write rws rr g row col v x line :
  deref rws rr = Some g → rr !! row = Some x → rws !! x = Some line →
  deref (<[x := <[col := v]> line]> rws) rr = Some (place_shared rr g row col v).
Proof.
  rewrite !deref_Some. intros HF Hrow Hx.
  apply Forall2_same_length_lookup. split.
  { unfold place_shared. rewrite length_imap. by eapply Forall2_length. }
  intros i y l Hy Hl. unfold place_shared in Hl. rewrite list_lookup_imap in Hl.
  destruct (g !! i) as [l0|] eqn:Hg; [|done]. simpl in Hl. injection Hl as <-.
  pose proof (Forall2_lookup_lr _ _ _ _ _ _ HF Hy Hg) as Hyl. simpl in Hyl.
  rewrite Hy, Hrow. destruct (decide (Some y = Some x)) as [[= ->]|Hne].
  - rewrite list_lookup_insert_eq by (by eapply lookup_lt_Some). congruence.
  - rewrite list_lookup_insert_ne by congruence. done.
Qed.

Lemma setitem_shared s r g rr row col v :
  grid_objs (heap s) !! r = Some rr → deref (row_objs (heap s)) rr = Some g →
  dims_ok g → row < 9 → col < 9 →
  ∃ x line, rr !! row = Some x ∧ row_objs (heap s) !! x = Some line ∧
    setitem r row col v s =
      Ok (tt, set_heap (mkStore (<[x := <[col := v]> line]> (row_objs (heap s)))
                          (grid_objs (heap s))) s) ∧
    deref (<[x := <[col := v]> line]> (row_objs (heap s))) rr =
      Some (place_shared rr g row col v).
Proof.
  intros Hrr Hg Hd Hr Hc.
  destruct (dims_ok_lookup g row col Hd Hr Hc) as (line & Hl & Hlen & _).
  pose proof Hg as HF. apply deref_Some in HF.
  destruct (Forall2_lookup_r _ _ _ _ _ HF Hl) as (x & Hx & Hline).
  exists x, line. split; [exact Hx|]. split; [exact Hline|]. split.
  - unfold setitem. rewrite Hrr, Hx, Hline. rewrite decide_True by lia. reflexivity.
  - by apply deref_write.
Qed.

(** *** [copy.deepcopy] *)

Lemma copy_rows_spec base rr : ∀ memo rws,
  base ≤ length rws → Forall (λ x, x < base) rr → memo_ok base memo rws →
  ∃ ys rws' memo',
    copy_rows rr memo rws = Some (ys, rws') ∧
    rws `prefix_of` rws' ∧ memo ⊆ memo' ∧ memo_ok base memo' rws' ∧
    Forall2 (λ x y, memo' !! x = Some y) rr ys.
Proof.
  induction rr as [|x rr IH]; intros memo rws Hbase Hvalid Hmemo.
  { exists [], rws, memo. by split_and!. }
  apply Forall_cons in Hvalid as [Hx Hvalid]. cbn [copy_rows].
  destruct (memo !! x) as [y|] eqn:Hy.
  - destruct (IH memo rws Hbase Hvalid Hmemo) as (ys & rws' & memo' & -> & Hp & Hsub & Hok & HF).
    exists (y :: ys), rws', memo'. split_and!; [done..|].
    constructor; [|done]. by eapply lookup_weaken.
  - destruct (lookup_lt_is_Some_2 rws x) as [line Hline]; [lia|]. rewrite Hline. simpl.
    destruct (IH (<[x := length rws]> memo) (rws ++ [line]))
      as (ys & rws' & memo' & -> & Hp & Hsub & Hok & HF).
    + rewrite length_app. simpl. lia.
    + done.
    + destruct Hmemo as [Hrange Hinj]. split.
      * intros x' y' [[-> <-]|[Hne Hxy]]%lookup_insert_Some.
        -- rewrite length_app. simpl. split; [done|]. split; [lia|].
           rewrite lookup_app_r, Nat.sub_diag by lia. simpl.
           by rewrite lookup_app_l by lia.
        -- destruct (Hrange _ _ Hxy) as (? & ? & Heq). rewrite length_app. simpl.
           split; [done|]. split; [lia|]. by rewrite !lookup_app_l by lia.
      * intros x1 x2 y' [[E1 E1']|[Hne1 H1]]%lookup_insert_Some
                        [[E2 E2']|[Hne2 H2]]%lookup_insert_Some.
        -- congruence.
        -- destruct (Hrange _ _ H2). lia.
        -- destruct (Hrange _ _ H1). lia.
        -- by eapply Hinj.
    + exists (length rws :: ys), rws', memo'. split_and!; [done| | |done|].
      * etrans; [|exact Hp]. by apply prefix_app_r.
      * etrans; [|exact Hsub]. by apply insert_subseteq.
      * constructor; [|done]. eapply lookup_weaken; [|exact Hsub]. apply lookup_insert_eq.
Qed.

Lemma deepcopy_spec s r g rr :
  grid_objs (heap s) !! r = Some rr → deref (row_objs (heap s)) rr = Some g →
  ∃ ys rws,
    deepcopy r s = Ok (length (grid_objs (heap s)),
                       set_heap (mkStore rws (grid_objs (heap s) ++ [ys])) s) ∧
    row_objs (heap s) `prefix_of` rws ∧ deref rws ys = Some g ∧ same_sharing rr ys ∧
    Forall (λ y, length (row_objs (heap s)) ≤ y) ys.
Proof.
  intros Hrr Hg.
  destruct (copy_rows_spec (length (row_objs (heap s))) rr ∅ (row_objs (heap s)))
    as (ys & rws & memo & Hcopy & Hp & _ & [Hrange Hinj] & HF).
  { done. }
  { by eapply deref_valid. }
  { split; intros ??; by rewrite lookup_empty. }
  exists ys, rws. split; [unfold deepcopy; rewrite Hrr; simpl; by rewrite Hcopy|].
  split; [exact Hp|]. apply deref_Some in Hg. split_and!.
  - apply deref_Some, Forall2_same_length_lookup.
    split; [rewrite <- (Forall2_length _ _ _ HF); by eapply Forall2_length|].
    intros i y line Hy Hline.
    destruct (Forall2_lookup_r _ _ _ _ _ HF Hy) as (x & Hx & Hxy).
    destruct (Hrange _ _ Hxy) as (_ & _ & ->).
    eapply prefix_lookup_Some; [|exact Hp].
    by apply (Forall2_lookup_lr _ _ _ _ _ _ Hg Hx Hline).
  - split; [symmetry; by eapply Forall2_length|]. intros i j.
    destruct (rr !! i) as [xi|] eqn:Hi, (rr !! j) as [xj|] eqn:Hj.
    + destruct (Forall2_lookup_l _ _ _ _ _ HF Hi) as (yi & -> & Hyi).
      destruct (Forall2_lookup_l _ _ _ _ _ HF Hj) as (yj & -> & Hyj).
      split; intros [= Heq]; f_equal.
      * subst. by eapply Hinj.
      * subst. congruence.
    + destruct (Forall2_lookup_l _ _ _ _ _ HF Hi) as (yi & -> & _).
      apply lookup_ge_None in Hj. rewrite (Forall2_length _ _ _ HF) in Hj.
      apply lookup_ge_None in Hj. by rewrite Hj.
    + destruct (Forall2_lookup_l _ _ _ _ _ HF Hj) as (yj & -> & _).
      apply lookup_ge_None in Hi. rewrite (Forall2_length _ _ _ HF) in Hi.
      apply lookup_ge_None in Hi. by rewrite Hi.
    + apply lookup_ge_None in Hi, Hj. rewrite (Forall2_length _ _ _ HF) in Hi, Hj.
      apply lookup_ge_None in Hi, Hj. by rewrite Hi, Hj.
  - apply Forall_forall. intros y [i Hy]%list_elem_of_lookup.
    destruct (Forall2_lookup_r _ _ _ _ _ HF Hy) as (x & _ & Hxy).
    destruct (Hrange _ _ Hxy). lia.
Qed.

Lemma prefix_insert_above {A} (l k : list A) i x :
  l `prefix_of` k → length l ≤ i → l `prefix_of` <[i := x]> k.
Proof.
  intros [t ->] Hi. rewrite insert_app_r_alt by done. by apply prefix_app_r.
Qed.

#[local] Instance same_instance_preorder : PreOrder same_instance.
Proof.
  split.
  - intros s. by unfold same_instance.
  - intros s1 s2 s3 (? & ? & ? & ?) (? & ? & ? & ?).
    unfold same_instance. split_and!; try congruence. by etrans.
Qed.

Lemma same_instance_lookup s s' r g :
  same_instance s s' → heap s !! r = Some g → heap s' !! r = Some g.
Proof. intros (_ & _ & _ & Hp) Hr. by eapply store_prefix_lookup. Qed.

Lemma same_instance_objs s s' r rr :
  same_instance s s' → grid_objs (heap s) !! r = Some rr →
  grid_objs (heap s') !! r = Some rr.
Proof. intros (_ & _ & _ & Hp) Hr. by eapply store_prefix_objs. Qed.

Lemma same_instance_grid s s' G :
  same_instance s s' → heap s !! self_grid s = Some G →
  heap s' !! self_grid s' = Some G.
Proof. intros Hs HG. destruct Hs as (-> & _ & _ & Hp). by eapply store_prefix_lookup. Qed.

(** A candidate made by [deepcopy] and changed by one [setitem]: a new
    grid object over new row objects that shares rows where the old one
    does; the objects of the old store are as they were. *)
Lemma copy_place s r g rr row col v :
  grid_objs (heap s) !! r = Some rr → heap s !! r = Some g →
  dims_ok g → row < 9 → col < 9 →
  ∃ s1 h2 ys,
    deepcopy r s = Ok (length (grid_objs (heap s)), s1) ∧
    setitem (length (grid_objs (heap s))) row col v s1 = Ok (tt, set_heap h2 s) ∧
    store_prefix (heap s) h2 ∧
    grid_objs h2 !! length (grid_objs (heap s)) = Some ys ∧ same_sharing rr ys ∧
    h2 !! length (grid_objs (heap s)) = Some (place_shared rr g row col v).
Proof.
  intros Hrr Hg Hd Hr Hc.
  apply store_lookup_Some in Hg as (rr' & Hrr' & Hg).
  assert (rr' = rr) as -> by congruence.
  destruct (deepcopy_spec s r g rr Hrr Hg) as (ys & rws & Hcopy & Hp & Hval & Hshare & Hnew).
  set (s1 := set_heap (mkStore rws (grid_objs (heap s) ++ [ys])) s) in *.
  assert (grid_objs (heap s1) !! length (grid_objs (heap s)) = Some ys) as Hys.
  { unfold s1. simpl. by rewrite lookup_app_r, Nat.sub_diag by lia. }
  destruct (setitem_shared s1 _ g ys row col v Hys Hval Hd Hr Hc)
    as (x & line & Hx & Hline & Hset & Hwritten).
  eexists s1, _, ys. split; [exact Hcopy|]. split; [exact Hset|].
  assert (length (row_objs (heap s)) ≤ x) as Hfresh.
  { rewrite Forall_forall in Hnew. apply Hnew. by eapply list_elem_of_lookup_2. }
  split_and!.
  - split; simpl; [by apply prefix_insert_above|by apply prefix_app_r].
  - exact Hys.
  - exact Hshare.
  - apply store_lookup_Some. exists ys. split; [exact Hys|].
    rewrite <- (place_shared_sharing rr ys g row col v Hshare). exact Hwritten.
Qed.

Lemma cursor_next row col :
  row < 9 → col < 9 →
  (col =? 8) = true ∧ cursor_ok (row + 1) 0 ∧ idx (row + 1) 0 = idx row col + 1 ∨
  (col =? 8) = false ∧ cursor_ok row (col + 1) ∧ idx row (col + 1) = idx row col + 1.
Proof.
  intros Hr Hc. unfold cursor_ok, idx. destruct (col =? 8) eqn:Hcol.
  - apply Nat.eqb_eq in Hcol. left. split; [done|]. lia.
  - apply Nat.eqb_neq in Hcol. right. split; [done|]. lia.
Qed.

Lemma csp_search_refines fuel : ∀ s gref row col G rr g ys,
  heap s !! self_grid s = Some G → dims_ok G →
  grid_objs (heap s) !! gref = Some ys → same_sharing rr ys →
  heap s !! gref = Some g → dims_ok g →
  cursor_ok row col → 82 ≤ fuel + idx row col →
  ∃ s', csp_search fuel gref row col s = Ok (tt, s') ∧ same_instance s s' ∧
        search_outcome s s' (search_shared rr fuel G g row col).
Proof.
  induction fuel as [|fuel IH];
    intros s gref row col G rr g ys HG HdG Hys Hshare Hg Hdg Hcur Hfuel.
  { unfold cursor_ok, idx in *. lia. }
  cbn [csp_search search_shared]. unfold search_outcome. change (9 - 1) with 8.
  rewrite (bind_step _ _ s (solution_found s) s) by done.
  destruct (solution_found s) eqn:Hfound.
  { exists s. rewrite Hfound. by split_and!. }
  rewrite (bind_step _ _ _ _ _ (check_constraints_eq s gref g Hg Hdg)).
  destruct (checkb g); cbn [negb].
  2:{ exists s. rewrite Hfound. by split_and!. }
  destruct (row =? 9) eqn:Hrow.
  { eexists. split; [reflexivity|]. split; [done|]. simpl.
    split; [done|]. by exists gref. }
  apply Nat.eqb_neq in Hrow.
  destruct Hcur as [[Hr Hc]|[? _]]; [|done].
  rewrite (bind_step _ _ s (self_grid s) s) by done.
  rewrite (bind_step _ _ _ _ _ (getitem_cell s _ G row col HG HdG Hr Hc)).
  destruct (cell G row col =? 0)%Z; cbn [negb].
  { (* a blank cell: the loop over the numbers *)
    assert (∀ (next : nat * nat), cursor_ok next.1 next.2 →
              idx next.1 next.2 = idx row col + 1 →
      ∀ l s0, same_instance s s0 →
      ∃ s', for_in l (λ number _,
               do candidate ← deepcopy gref;
               setitem candidate row col number;;
               csp_search fuel candidate next.1 next.2) tt s0 = Ok (tt, s') ∧
            same_instance s0 s' ∧
            search_outcome s0 s'
              (first_some (λ number,
                 search_shared rr fuel G (place_shared rr g row col number)
                   next.1 next.2) l)) as Hloop.
    { intros next Hnext Hidx l. induction l as [|number l IHl]; intros s0 Hs0.
      { exists s0. split; [done|]. split; [done|]. unfold search_outcome.
        by destruct (solution_found s0). }
      cbn [for_in first_some].
      destruct (copy_place s0 gref g ys row col number)
        as (s1 & h2 & ys' & Hcopy & Hset & Hpre & Hys' & Hshare' & Hval);
        [by eapply same_instance_objs|by eapply same_instance_lookup|done..|].
      rewrite bind_assoc, (bind_step _ _ _ _ _ Hcopy).
      rewrite bind_assoc, (bind_step _ _ _ _ _ Hset).
      rewrite (place_shared_sharing rr ys g row col number Hshare) in Hval.
      set (s2 := set_heap h2 s0) in *.
      assert (same_instance s0 s2) as Hs2.
      { unfold same_instance, s2. simpl. by split_and!. }
      destruct (IH s2 (length (grid_objs (heap s0))) next.1 next.2 G rr
                  (place_shared rr g row col number) ys')
        as (s3 & Hrun & Hs3 & Hout);
        [ apply (same_instance_grid s); [by etrans|done]
        | done
        | exact Hys'
        | by etrans
        | exact Hval
        | by apply place_shared_dims
        | done
        | lia
        | ].
      destruct (IHl s3) as (s' & Hrest & Hs' & Hout'); [by do 2 (etrans; [eassumption|])|].
      exists s'. rewrite (bind_step _ _ _ _ _ Hrun). split; [done|].
      split; [by do 2 (etrans; [eassumption|])|].
      unfold search_outcome in *. change (solution_found s2) with (solution_found s0) in Hout.
      change (solution s2) with (solution s0) in Hout.
      destruct (solution_found s0).
      - destruct Hout as [Hf3 Hsol3]. rewrite Hf3 in Hout'. destruct Hout'. split; congruence.
      - destruct (search_shared rr fuel G (place_shared rr g row col number) next.1 next.2)
          as [sol|].
        + destruct Hout as (Hf3 & r & Hsol3 & Hr3). rewrite Hf3 in Hout'.
          destruct Hout' as [? Hsol']. split; [done|]. exists r. split; [congruence|].
          by eapply same_instance_lookup.
        + destruct Hout as [Hf3 Hsol3]. rewrite Hf3 in Hout'.
          destruct (first_some _ l); [done|]. destruct Hout'. split; congruence. }
    destruct (cursor_next row col Hr Hc) as [(-> & Hnext & Hidx)|(-> & Hnext & Hidx)].
    - destruct (Hloop (row + 1, 0) Hnext Hidx (rangeZ 1 (9 + 1)) s ltac:(done))
        as (s' & Hrun & Hs' & Hout).
      exists s'. split; [exact Hrun|]. split; [done|].
      unfold search_outcome in Hout. by rewrite Hfound in Hout.
    - destruct (Hloop (row, col + 1) Hnext Hidx (rangeZ 1 (9 + 1)) s ltac:(done))
        as (s' & Hrun & Hs' & Hout).
      exists s'. split; [exact Hrun|]. split; [done|].
      unfold search_outcome in Hout. by rewrite Hfound in Hout. }
  (* a given cell *)
  destruct (cursor_next row col Hr Hc) as [(-> & Hnext & Hidx)|(-> & Hnext & Hidx)].
  - destruct (IH s gref (row + 1) 0 G rr g ys) as (s' & Hrun & Hs' & Hout); [done..|lia|].
    exists s'. split; [done|]. split; [done|].
    unfold search_outcome in Hout. by rewrite Hfound in Hout.
  - destruct (IH s gref row (col + 1) G rr g ys) as (s' & Hrun & Hs' & Hout); [done..|lia|].
    exists s'. split; [done|]. split; [done|].
    unfold search_outcome in Hout. by rewrite Hfound in Hout.
Qed.

(** ** The search on grid values *)

Lemma grid_ext g1 g2 :
  dims_ok g1 → dims_ok g2 →
  (∀ r c, r < 9 → c < 9 → cell g1 r c = cell g2 r c) → g1 = g2.
Proof.
  intros Hd1 Hd2 Hcells. apply list_eq. intros r.
  destruct (decide (r < 9)) as [Hr|Hr].
  - destruct (dims_ok_lookup g1 r 0 Hd1 Hr ltac:(lia)) as (l1 & Hl1 & Hlen1 & _).
    destruct (dims_ok_lookup g2 r 0 Hd2 Hr ltac:(lia)) as (l2 & Hl2 & Hlen2 & _).
    rewrite Hl1, Hl2. f_equal. apply list_eq. intros c.
    destruct (decide (c < 9)) as [Hc|Hc].
    + destruct (dims_ok_lookup g1 r c Hd1 Hr Hc) as (l1' & Hl1' & _ & Hv1).
      destruct (dims_ok_lookup g2 r c Hd2 Hr Hc) as (l2' & Hl2' & _ & Hv2).
      assert (l1' = l1) as -> by congruence. assert (l2' = l2) as -> by congruence.
      rewrite Hv1, Hv2. f_equal. by apply Hcells.
    + rewrite !lookup_ge_None_2 by lia. done.
  - destruct Hd1 as [Hlen1 _], Hd2 as [Hlen2 _]. rewrite !lookup_ge_None_2 by lia. done.
Qed.

Lemma consistent_sub g S :
  (∀ r c, r < 9 → c < 9 → cell g r c ≠ 0%Z → cell g r c = cell S r c) →
  consistent S → consistent g.
Proof.
  intros Hsub (Hrows & Hcols & Hboxes).
  assert (∀ r1 c1 r2 c2, r1 < 9 → c1 < 9 → r2 < 9 → c2 < 9 →
            cell S r1 c1 ≠ 0%Z → cell S r1 c1 ≠ cell S r2 c2 →
            cell g r1 c1 ≠ 0%Z → cell g r1 c1 ≠ cell g r2 c2) as Hlift.
  { intros r1 c1 r2 c2 Hr1 Hc1 Hr2 Hc2 _ Hne Hnz Heq.
    pose proof (Hsub r1 c1 Hr1 Hc1 Hnz) as Hs1.
    pose proof (Hsub r2 c2 Hr2 Hc2 ltac:(congruence)) as Hs2.
    congruence. }
  split_and!.
  - intros r c1 c2 ???? Hnz. pose proof (Hsub r c1 ltac:(done) ltac:(done) Hnz).
    apply Hlift; try done; [congruence|]. apply Hrows; try done. congruence.
  - intros c r1 r2 ???? Hnz. pose proof (Hsub r1 c ltac:(done) ltac:(done) Hnz).
    apply Hlift; try done; [congruence|]. apply Hcols; try done. congruence.
  - intros r1 c1 r2 c2 ??????? Hnz. pose proof (Hsub r1 c1 ltac:(done) ltac:(done) Hnz).
    apply Hlift; try done; [congruence|]. apply Hboxes; try done. congruence.
Qed.

Lemma extends_consistent G g row col S :
  untouched G g row col → extends G g row col S → consistent g.
Proof.
  intros Hun (_ & Hbefore & Hafter & Hcons). apply (consistent_sub g S); [|done].
  intros r c Hr Hc Hnz. destruct (decide (idx r c < idx row col)) as [Hlt|Hge].
  - symmetry. by apply Hbefore.
  - specialize (Hafter r c Hr Hc ltac:(lia)). specialize (Hun r c Hr Hc ltac:(lia)).
    rewrite decide_False in Hafter by congruence. congruence.
Qed.

Lemma extends_end G g S : dims_ok g → extends G g 9 0 S → S = g.
Proof.
  intros Hdg (Hd & Hbefore & _ & _). apply grid_ext; [done..|].
  intros r c Hr Hc. apply Hbefore; [done..|]. unfold idx. lia.
Qed.

Lemma extends_self G g : dims_ok g → consistent g → extends G g 9 0 g.
Proof.
  intros Hd Hc. split_and!; [done| |  |done].
  - done.
  - intros r c Hr Hcol. unfold idx. lia.
Qed.

Lemma extends_given G g row col r' c' S :
  row < 9 → col < 9 → idx r' c' = idx row col + 1 →
  untouched G g row col → cell G row col ≠ 0%Z →
  extends G g row col S ↔ extends G g r' c' S.
Proof.
  intros Hr Hc Hidx Hun Hgiven.
  pose proof (Hun row col Hr Hc ltac:(lia)) as Hcur.
  split; intros (Hd & Hbefore & Hafter & Hcons); split_and!; try done.
  - intros r c Hr' Hc' Hlt. destruct (decide (idx r c = idx row col)) as [Heq|Hne].
    + assert (r = row ∧ c = col) as [-> ->] by (unfold idx in *; lia).
      specialize (Hafter row col Hr Hc ltac:(lia)).
      rewrite decide_False in Hafter by done. congruence.
    + apply Hbefore; [done..|lia].
  - intros r c Hr' Hc' Hle. apply Hafter; [done..|lia].
  - intros r c Hr' Hc' Hlt. apply Hbefore; [done..|lia].
  - intros r c Hr' Hc' Hle. destruct (decide (idx r c = idx row col)) as [Heq|Hne].
    + assert (r = row ∧ c = col) as [-> ->] by (unfold idx in *; lia).
      rewrite decide_False by done. rewrite <- Hcur. apply Hbefore; [done..|lia].
    + apply Hafter; [done..|lia].
Qed.

Lemma untouched_next G g row col r' c' :
  idx r' c' = idx row col + 1 → untouched G g row col → untouched G g r' c'.
Proof. intros Hidx Hun r c Hr Hc Hle. apply Hun; [done..|lia]. Qed.

Lemma untouched_place G g row col r' c' v :
  dims_ok g → row < 9 → col < 9 → idx r' c' = idx row col + 1 →
  untouched G g row col → untouched G (place g row col v) r' c'.
Proof.
  intros Hd Hr Hc Hidx Hun r c Hr' Hc' Hle.
  rewrite cell_place by done. rewrite decide_False by (unfold idx in *; lia).
  apply Hun; [done..|lia].
Qed.

Lemma extends_place G g row col r' c' v S :
  dims_ok g → row < 9 → col < 9 → idx r' c' = idx row col + 1 →
  cell G row col = 0%Z → (1 ≤ v ≤ 9)%Z →
  extends G (place g row col v) r' c' S → extends G g row col S ∧ cell S row col = v.
Proof.
  intros Hdg Hr Hc Hidx Hblank Hv (Hd & Hbefore & Hafter & Hcons).
  assert (cell S row col = v) as Hcur.
  { rewrite Hbefore by (done || lia). rewrite cell_place by done.
    by rewrite decide_True. }
  split; [|done]. split_and!; try done.
  - intros r c Hr' Hc' Hlt. rewrite Hbefore by (done || lia).
    rewrite cell_place by done. rewrite decide_False; [done|]. unfold idx in *. lia.
  - intros r c Hr' Hc' Hle. destruct (decide (idx r c = idx row col)) as [Heq|Hne].
    + assert (r = row ∧ c = col) as [-> ->] by (unfold idx in *; lia).
      rewrite decide_True by done. lia.
    + apply Hafter; [done..|lia].
Qed.

Lemma extends_choose G g row col r' c' S :
  dims_ok g → row < 9 → col < 9 → idx r' c' = idx row col + 1 →
  cell G row col = 0%Z → extends G g row col S →
  (1 ≤ cell S row col ≤ 9)%Z ∧ extends G (place g row col (cell S row col)) r' c' S.
Proof.
  intros Hdg Hr Hc Hidx Hblank (Hd & Hbefore & Hafter & Hcons).
  assert (1 ≤ cell S row col ≤ 9)%Z as Hv.
  { specialize (Hafter row col Hr Hc ltac:(lia)). by rewrite decide_True in Hafter. }
  split; [done|]. split_and!; try done.
  - intros r c Hr' Hc' Hlt. rewrite cell_place by done.
    destruct (decide (r = row ∧ c = col)) as [[-> ->]|Hne]; [done|].
    apply Hbefore; [done..|]. unfold idx in *. lia.
  - intros r c Hr' Hc' Hle. apply Hafter; [done..|lia].
Qed.

Lemma first_some_seqZ {B} (f : Z → option B) (len : nat) : ∀ a,
  match first_some f (seqZ a (Z.of_nat len)) with
  | Some y => ∃ n, (a ≤ n < a + Z.of_nat len)%Z ∧ f n = Some y ∧
                   ∀ n', (a ≤ n' < n)%Z → f n' = None
  | None => ∀ n, (a ≤ n < a + Z.of_nat len)%Z → f n = None
  end.
Proof.
  induction len as [|len IH]; intros a.
  - simpl. intros n Hn. lia.
  - rewrite Nat2Z.inj_succ, seqZ_cons by lia. simpl.
    replace (Z.pred (Z.succ (Z.of_nat len))) with (Z.of_nat len) by lia.
    destruct (f a) as [y|] eqn:Hfa.
    + exists a. split; [lia|]. split; [done|]. intros n' Hn'. lia.
    + specialize (IH (Z.succ a)). destruct (first_some f _) as [y|].
      * destruct IH as (n & Hn & Hfn & Hfirst). exists n. split; [lia|]. split; [done|].
        intros n' Hn'. destruct (decide (n' = a)) as [->|Hne]; [done|].
        apply Hfirst. lia.
      * intros n Hn. destruct (decide (n = a)) as [->|Hne]; [done|]. apply IH. lia.
Qed.

Lemma search_spec fuel : ∀ G g row col,
  dims_ok G → dims_ok g → cursor_ok row col → 82 ≤ fuel + idx row col →
  untouched G g row col →
  match search fuel G g row col with
  | Some sol =>
      extends G g row col sol ∧ ∀ S', extends G g row col S' → grid_lex_le sol S'
  | None => ∀ S', ¬ extends G g row col S'
  end.
Proof.
  induction fuel as [|fuel IH]; intros G g row col HdG Hdg Hcur Hfuel Hun.
  { unfold cursor_ok, idx in *. lia. }
  cbn [search].
  destruct (checkb g) eqn:Hcheck; cbn [negb].
  2:{ intros S' Hext. apply (extends_consistent _ _ _ _ _ Hun) in Hext.
      apply checkb_consistent in Hext; [congruence|done]. }
  apply checkb_consistent in Hcheck; [|done].
  destruct (row =? 9) eqn:Hrow.
  { apply Nat.eqb_eq in Hrow. destruct Hcur as [[? ?]|[_ ->]]; [lia|]. subst row. split.
    - by apply extends_self.
    - intros S' ->%extends_end; [by left|done]. }
  apply Nat.eqb_neq in Hrow. destruct Hcur as [[Hr Hc]|[? _]]; [|done].
  assert (∀ r' c', cursor_ok r' c' → idx r' c' = idx row col + 1 →
    match (if negb (cell G row col =? 0)%Z then search fuel G g r' c'
           else first_some (λ number, search fuel G (place g row col number) r' c')
                  (rangeZ 1 10)) with
    | Some sol =>
        extends G g row col sol ∧ ∀ S', extends G g row col S' → grid_lex_le sol S'
    | None => ∀ S', ¬ extends G g row col S'
    end) as Hstep.
  { intros r' c' Hnext Hidx. destruct (cell G row col =? 0)%Z eqn:Hblank; cbn [negb].
    - (* a blank cell *)
      apply Z.eqb_eq in Hblank.
      assert (∀ v, match search fuel G (place g row col v) r' c' with
                   | Some sol => extends G (place g row col v) r' c' sol ∧
                       ∀ S', extends G (place g row col v) r' c' S' → grid_lex_le sol S'
                   | None => ∀ S', ¬ extends G (place g row col v) r' c' S'
                   end) as IHv.
      { intros v. apply IH; [done|by apply place_dims|done|lia|].
        by apply untouched_place. }
      pose proof (first_some_seqZ
                    (λ number, search fuel G (place g row col number) r' c') 9 1) as Hfirst.
      change (seqZ 1 (Z.of_nat 9)) with (rangeZ 1 10) in Hfirst.
      destruct (first_some _ (rangeZ 1 10)) as [sol|].
      + destruct Hfirst as (n & Hn & Hfn & Hearlier).
        pose proof (IHv n) as IHn. rewrite Hfn in IHn. destruct IHn as [Hext Hmin].
        destruct (extends_place G g row col r' c' n sol) as [Hsol Hcell]; [done..|lia|done|].
        split; [done|]. intros S' HS'.
        destruct (extends_choose G g row col r' c' S') as [Hn' Hext']; [done..|].
        destruct (Z.lt_trichotomy (cell S' row col) n) as [Hlt|[Heq|Hgt]].
        * pose proof (IHv (cell S' row col)) as IHn'.
          rewrite Hearlier in IHn' by lia. by destruct (IHn' S').
        * rewrite Heq in Hext'. by apply Hmin.
        * right. exists row, col. split_and!; [done..|lia|].
          intros r c Hr' Hc' Hlt. destruct Hsol as (_ & Hb & _), HS' as (_ & Hb' & _).
          rewrite Hb, Hb' by done. done.
      + intros S' HS'.
        destruct (extends_choose G g row col r' c' S') as [Hn' Hext']; [done..|].
        pose proof (IHv (cell S' row col)) as IHn'.
        rewrite Hfirst in IHn' by lia. by destruct (IHn' S').
    - (* a given cell *)
      apply Z.eqb_neq in Hblank.
      specialize (IH G g r' c' HdG Hdg Hnext ltac:(lia)
                    (untouched_next _ _ _ _ _ _ Hidx Hun)).
      pose proof (extends_given G g row col r' c') as Hiff.
      destruct (search fuel G g r' c') as [sol|].
      + destruct IH as [Hext Hmin]. split; [by apply Hiff|].
        intros S' HS'. apply Hmin. by apply Hiff.
      + intros S' HS'. apply (IH S'). by apply Hiff. }
  destruct (cursor_next row col Hr Hc) as [(-> & Hnext & Hidx)|(-> & Hnext & Hidx)];
    exact (Hstep _ _ Hnext Hidx).
Qed.

(** ** The encoder *)

Lemma literal_eq x y number negation s :
  literal x y number negation s =
  Ok (lit_of (register (x, y, number) s) ((x, y, number), negation),
      register (x, y, number) s).
Proof.
  unfold literal. rewrite (bind_step _ _ _ _ _ (atom_register x y number s)).
  by destruct negation.
Qed.

Lemma for_in_app {A S} (l1 l2 : list A) (body : A → S → M S) acc s :
  for_in (l1 ++ l2) body acc s = bind (for_in l1 body acc) (for_in l2 body) s.
Proof.
  revert acc s. induction l1 as [|x l1 IH]; intros acc s; simpl; [done|].
  rewrite bind_assoc. apply bind_ext. intros acc' s'. apply IH.
Qed.

Lemma for_in_fmap {A B S} (h : A → B) (l : list A) (body : B → S → M S) acc s :
  for_in (h <$> l) body acc s = for_in l (λ x, body (h x)) acc s.
Proof.
  revert acc s. induction l as [|x l IH]; intros acc s; simpl; [done|].
  unfold bind. destruct (body (h x) acc s) as [[acc' s']|e]; [|done]. apply IH.
Qed.

Lemma register_all_app ts1 ts2 s :
  register_all (ts1 ++ ts2) s = register_all ts2 (register_all ts1 s).
Proof. unfold register_all. by rewrite foldl_app. Qed.

Lemma register_all_atom_id_mono ts s t i :
  atom_id s !! t = Some i → atom_id (register_all ts s) !! t = Some i.
Proof.
  revert s. induction ts as [|t' ts IH]; intros s Ht; simpl; [done|].
  by apply IH, register_atom_id_mono.
Qed.

Lemma register_all_lit ts s l :
  is_Some (atom_id s !! l.1) → lit_of (register_all ts s) l = lit_of s l.
Proof.
  intros [i Hi]. unfold lit_of, id_of.
  by rewrite (register_all_atom_id_mono ts s _ _ Hi), Hi.
Qed.

Lemma register_all_registered ts s t :
  t ∈ ts → is_Some (atom_id (register_all ts s) !! t).
Proof.
  revert s. induction ts as [|t' ts IH]; intros s Hin; [by apply elem_of_nil in Hin|].
  simpl. apply elem_of_cons in Hin as [->|Hin]; [|by apply IH].
  eexists. apply register_all_atom_id_mono, register_registered.
Qed.

Lemma emit_clause_spec c solver s :
  emit_clause c solver s =
  Ok (solver ++ [lit_of (register_all (fst <$> c) s) <$> c],
      register_all (fst <$> c) s).
Proof.
  unfold emit_clause, add_clause.
  assert (∀ ls s, for_in c (λ l ls,
             do x ← literal l.1.1.1 l.1.1.2 l.1.2 l.2;
             ret (ls ++ [x])) ls s =
           Ok (ls ++ (lit_of (register_all (fst <$> c) s) <$> c),
               register_all (fst <$> c) s)) as Hlits.
  { clear. induction c as [|[[[x y] n] neg] c IH]; intros ls s; simpl.
    - by rewrite app_nil_r.
    - rewrite bind_assoc, (bind_step _ _ _ _ _ (literal_eq x y n neg s)).
      unfold ret at 1. unfold bind at 1. rewrite IH. rewrite <- app_assoc. simpl.
      do 4 f_equal. symmetry. apply register_all_lit. simpl.
      eexists. apply register_registered. }
  by rewrite (bind_step _ _ _ _ _ (Hlits [] s)).
Qed.

Lemma emit_spec cs solver s :
  emit cs solver s =
  Ok (solver ++ interp (register_all (triples_of cs) s) cs,
      register_all (triples_of cs) s).
Proof.
  unfold emit, interp. revert solver s. induction cs as [|c cs IH]; intros solver s; simpl.
  - by rewrite app_nil_r.
  - rewrite (bind_step _ _ _ _ _ (emit_clause_spec c solver s)), IH.
    unfold triples_of. simpl. rewrite register_all_app, <- app_assoc. simpl.
    do 4 f_equal. apply list_fmap_ext. intros i l Hl. symmetry.
    apply register_all_lit, register_all_registered.
    apply list_elem_of_fmap. exists l. split; [done|]. by eapply list_elem_of_lookup_2.
Qed.

Lemma emit_app cs1 cs2 solver s :
  emit (cs1 ++ cs2) solver s = bind (emit cs1 solver) (emit cs2) s.
Proof. apply for_in_app. Qed.

(** A loop whose body adds clauses adds the clauses of all its rounds;
    [P] is what the bodies need of the state, kept by [__atom]. *)
Lemma for_in_emit {A} (P : state → Prop) (l : list A)
    (body : A → list clause → M (list clause)) (f : A → list (list slit)) :
  (∀ t s, P s → P (register t s)) →
  (∀ x solver s, x ∈ l → P s → body x solver s = emit (f x) solver s) →
  ∀ solver s, P s → for_in l body solver s = emit (l ≫= f) solver s.
Proof.
  intros HP. induction l as [|x l IH]; intros Hbody solver s Hs; simpl; [done|].
  rewrite emit_app. unfold bind. rewrite Hbody by (done || by left).
  rewrite emit_spec. apply IH.
  - intros y solver' s' Hy. apply Hbody. by right.
  - clear -HP Hs. revert s Hs. induction (triples_of (f x)) as [|t ts IHt]; intros s Hs; simpl.
    + done.
    + by apply IHt, HP.
Qed.

(** The bodies of the innermost loops of [solve_as_sat] add one clause. *)
Ltac emit_body :=
  unfold emit, emit_clause, add_clause; cbn [for_in];
  unfold bind, ret; repeat (rewrite literal_eq; cbn [fst snd app]); reflexivity.

Lemma for_in_emit_closed {A} (l : list A)
    (body : A → list clause → M (list clause)) (f : A → list (list slit)) :
  (∀ x solver s, x ∈ l → body x solver s = emit (f x) solver s) →
  ∀ solver s, for_in l body solver s = emit (l ≫= f) solver s.
Proof.
  intros Hbody solver s. apply (for_in_emit (λ _, True)); [done| |done].
  intros x solver' s' Hx _. by apply Hbody.
Qed.

(** Descend into a loop nest whose bodies do not read the grid. *)
Ltac emit_loop solver s :=
  revert solver s; apply for_in_emit_closed; intros ? solver s _.

Lemma encode_initial_emit G solver s :
  heap s !! self_grid s = Some G → dims_ok G →
  encode_initial solver s = emit (sym_initial G) solver s.
Proof.
  intros HG Hd. unfold encode_initial, sym_initial.
  assert (∀ t s, heap s !! self_grid s = Some G →
                 heap (register t s) !! self_grid (register t s) = Some G) as Hkeep.
  { intros t s0 Hs0. by destruct (register_frame t s0) as (-> & -> & _). }
  revert solver s HG.
  apply (for_in_emit (λ s, heap s !! self_grid s = Some G)); [done|].
  intros row solver s Hrow%elem_of_range HG. revert solver s HG.
  apply (for_in_emit (λ s, heap s !! self_grid s = Some G)); [done|].
  intros col solver s Hcol%elem_of_range HG.
  rewrite (bind_step _ _ s (self_grid s) s) by done.
  rewrite (bind_step _ _ _ _ _ (getitem_cell s _ G row col HG Hd ltac:(lia) ltac:(lia))).
  emit_body.
Qed.

Lemma encode_cells_emit solver s : encode_cells solver s = emit sym_cells solver s.
Proof.
  unfold encode_cells, sym_cells. do 2 emit_loop solver s.
  unfold emit, emit_clause. cbn [for_in]. rewrite bind_assoc.
  apply bind_cong; [by rewrite for_in_fmap|done].
Qed.

Lemma encode_rows_emit solver s : encode_rows solver s = emit sym_rows solver s.
Proof.
  unfold encode_rows, sym_rows. do 4 emit_loop solver s. emit_body.
Qed.

Lemma encode_columns_emit solver s :
  encode_columns solver s = emit sym_columns solver s.
Proof.
  unfold encode_columns, sym_columns. do 4 emit_loop solver s. emit_body.
Qed.

Lemma encode_subgrids_emit solver s :
  encode_subgrids solver s = emit sym_subgrids solver s.
Proof.
  unfold encode_subgrids, sym_subgrids. do 6 emit_loop solver s.
  destruct (_ || _); [|done].
  emit_loop solver s. emit_body.
Qed.

Lemma register_all_frame ts s :
  heap (register_all ts s) = heap s ∧ self_grid (register_all ts s) = self_grid s ∧
  solution (register_all ts s) = solution s ∧
  solution_found (register_all ts s) = solution_found s.
Proof.
  revert s. induction ts as [|t ts IH]; intros s; simpl; [done|].
  destruct (IH (register t s)) as (-> & -> & -> & ->). apply register_frame.
Qed.

Lemma encode_eq s G :
  heap s !! self_grid s = Some G → dims_ok G →
  encode s = Ok (interp (register_all (triples_of (sym_cnf G)) s) (sym_cnf G),
                 register_all (triples_of (sym_cnf G)) s).
Proof.
  intros HG Hd. rewrite <- (app_nil_l (interp _ _)), <- emit_spec.
  unfold encode, sym_cnf.
  rewrite emit_app. apply bind_cong; [by apply encode_initial_emit|]. intros solver1 s1.
  rewrite emit_app. apply bind_cong; [apply encode_cells_emit|]. intros solver2 s2.
  rewrite emit_app. apply bind_cong; [apply encode_rows_emit|]. intros solver3 s3.
  rewrite emit_app. apply bind_cong; [apply encode_columns_emit|]. intros solver4 s4.
  apply encode_subgrids_emit.
Qed.

(** ** The clauses of the formula *)

Lemma elem_of_sym_initial G c :
  c ∈ sym_initial G ↔
  ∃ row col, row < 9 ∧ col < 9 ∧ c = [((row, col, cell G row col), false)].
Proof.
  unfold sym_initial. repeat setoid_rewrite list_elem_of_bind.
  setoid_rewrite elem_of_range. setoid_rewrite list_elem_of_singleton.
  split.
  - intros (row & (col & -> & Hcol) & Hrow). exists row, col. split_and!; [lia..|done].
  - intros (row & col & Hrow & Hcol & ->). exists row. split; [|lia]. exists col.
    split; [done|lia].
Qed.

Lemma elem_of_sym_cells c :
  c ∈ sym_cells ↔
  ∃ row col, row < 9 ∧ col < 9 ∧
    c = (λ number, ((row, col, number), false)) <$> rangeZ 1 10.
Proof.
  unfold sym_cells. repeat setoid_rewrite list_elem_of_bind.
  setoid_rewrite elem_of_range. setoid_rewrite list_elem_of_singleton.
  split.
  - intros (row & (col & -> & Hcol) & Hrow). exists row, col. split_and!; [lia..|done].
  - intros (row & col & Hrow & Hcol & ->). exists row. split; [|lia]. exists col.
    split; [done|lia].
Qed.

Lemma elem_of_sym_rows c :
  c ∈ sym_rows ↔
  ∃ row colA colB number,
    row < 9 ∧ colA < colB ∧ colB < 9 ∧ (1 ≤ number ≤ 9)%Z ∧
    c = [((row, colA, number), true); ((row, colB, number), true)].
Proof.
  unfold sym_rows. repeat setoid_rewrite list_elem_of_bind.
  setoid_rewrite elem_of_range. setoid_rewrite elem_of_rangeZ.
  setoid_rewrite list_elem_of_singleton.
  split.
  - intros (row & (colA & (colB & (n & -> & Hn) & HcolB) & HcolA) & Hrow).
    exists row, colA, colB, n. split_and!; [lia..|done].
  - intros (row & colA & colB & n & Hrow & HcolA & HcolB & Hn & ->).
    exists row. split; [|lia]. exists colA. split; [|lia]. exists colB. split; [|lia].
    exists n. split; [done|lia].
Qed.

Lemma elem_of_sym_columns c :
  c ∈ sym_columns ↔
  ∃ col rowA rowB number,
    col < 9 ∧ rowA < rowB ∧ rowB < 9 ∧ (1 ≤ number ≤ 9)%Z ∧
    c = [((rowA, col, number), true); ((rowB, col, number), true)].
Proof.
  unfold sym_columns. repeat setoid_rewrite list_elem_of_bind.
  setoid_rewrite elem_of_range. setoid_rewrite elem_of_rangeZ.
  setoid_rewrite list_elem_of_singleton.
  split.
  - intros (col & (rowA & (rowB & (n & -> & Hn) & HrowB) & HrowA) & Hcol).
    exists col, rowA, rowB, n. split_and!; [lia..|done].
  - intros (col & rowA & rowB & n & Hcol & HrowA & HrowB & Hn & ->).
    exists col. split; [|lia]. exists rowA. split; [|lia]. exists rowB. split; [|lia].
    exists n. split; [done|lia].
Qed.

Lemma elem_of_sym_subgrids c :
  c ∈ sym_subgrids ↔
  ∃ rowA colA rowB colB number,
    rowA < 9 ∧ colA < 9 ∧ rowB < 9 ∧ colB < 9 ∧
    rowA / 3 = rowB / 3 ∧ colA / 3 = colB / 3 ∧
    (rowA < rowB ∨ (rowB = rowA ∧ colA < colB)) ∧ (1 ≤ number ≤ 9)%Z ∧
    c = [((rowA, colA, number), true); ((rowB, colB, number), true)].
Proof.
  unfold sym_subgrids. repeat setoid_rewrite list_elem_of_bind.
  setoid_rewrite elem_of_range. setoid_rewrite elem_of_box_corner.
  split.
  - intros (rowS & (colS & (rowA & (colA & (rowB & (colB & Hc & HcolB) & HrowB)
              & HcolA) & HrowA) & HcolS) & HrowS).
    destruct (_ || _) eqn:Horder; [|by apply elem_of_nil in Hc].
    apply list_elem_of_bind in Hc as (n & ->%list_elem_of_singleton & Hn%elem_of_rangeZ).
    exists rowA, colA, rowB, colB, n.
    apply orb_true_iff in Horder.
    rewrite andb_true_iff, !Nat.ltb_lt, Nat.eqb_eq in Horder.
    euclid3 rowA. euclid3 rowB. euclid3 colA. euclid3 colB.
    split_and!; [lia..|done].
  - intros (rowA & colA & rowB & colB & n & HrA & HcA & HrB & HcB & Hrb & Hcb
            & Horder & Hn & ->).
    euclid3 rowA. euclid3 rowB. euclid3 colA. euclid3 colB.
    exists (3 * (rowA / 3)). split; [|lia].
    exists (3 * (colA / 3)). split; [|lia].
    exists rowA. split; [|lia]. exists colA. split; [|lia].
    exists rowB. split; [|lia]. exists colB. split; [|lia].
    replace (_ || _) with true.
    + apply list_elem_of_bind. exists n. split; [by apply list_elem_of_singleton|].
      apply elem_of_rangeZ. lia.
    + symmetry. apply orb_true_iff.
      rewrite andb_true_iff, !Nat.ltb_lt, Nat.eqb_eq. lia.
Qed.

Lemma elem_of_sym_cnf G c :
  c ∈ sym_cnf G ↔
  c ∈ sym_initial G ∨ c ∈ sym_cells ∨ c ∈ sym_rows ∨ c ∈ sym_columns ∨ c ∈ sym_subgrids.
Proof. unfold sym_cnf. by rewrite !elem_of_app. Qed.

(** The triples that the encoder asks for: the given entry and the nine
    digits of every cell. *)
Lemma elem_of_triples G t :
  t ∈ triples_of (sym_cnf G) ↔
  ∃ row col number, t = (row, col, number) ∧ row < 9 ∧ col < 9 ∧
    (number = cell G row col ∨ (1 ≤ number ≤ 9)%Z).
Proof.
  unfold triples_of. rewrite list_elem_of_bind. split.
  - intros (c & Ht & Hc). apply list_elem_of_fmap in Ht as (l & -> & Hl).
    apply elem_of_sym_cnf in Hc as [Hc|[Hc|[Hc|[Hc|Hc]]]].
    + apply elem_of_sym_initial in Hc as (row & col & ? & ? & ->).
      apply list_elem_of_singleton in Hl as ->. naive_solver.
    + apply elem_of_sym_cells in Hc as (row & col & ? & ? & ->).
      apply list_elem_of_fmap in Hl as (n & -> & Hn%elem_of_rangeZ).
      exists row, col, n. split_and!; [done..|]. right. lia.
    + apply elem_of_sym_rows in Hc as (row & colA & colB & n & ? & ? & ? & ? & ->).
      rewrite !elem_of_cons, elem_of_nil in Hl.
      destruct Hl as [->|[->|[]]]; simpl; eexists _, _, _; (split; [done|]);
        split_and!; try lia; by right.
    + apply elem_of_sym_columns in Hc as (col & rowA & rowB & n & ? & ? & ? & ? & ->).
      rewrite !elem_of_cons, elem_of_nil in Hl.
      destruct Hl as [->|[->|[]]]; simpl; eexists _, _, _; (split; [done|]);
        split_and!; try lia; by right.
    + apply elem_of_sym_subgrids in Hc
        as (rowA & colA & rowB & colB & n & ? & ? & ? & ? & _ & _ & _ & ? & ->).
      rewrite !elem_of_cons, elem_of_nil in Hl.
      destruct Hl as [->|[->|[]]]; simpl; eexists _, _, _; (split; [done|]);
        split_and!; try lia; by right.
  - intros (row & col & n & -> & Hr & Hc & [->|Hn]).
    + exists [((row, col, cell G row col), false)]. split; [by left|].
      apply elem_of_sym_cnf. left. apply elem_of_sym_initial. by exists row, col.
    + exists ((λ number, ((row, col, number), false)) <$> rangeZ 1 10). split.
      * rewrite <- list_fmap_compose. apply list_elem_of_fmap. exists n.
        split; [done|]. apply elem_of_rangeZ. lia.
      * apply elem_of_sym_cnf. right. left. apply elem_of_sym_cells. by exists row, col.
Qed.

(** ** The atom tables after encoding *)

Lemma fresh_wf : reg_wf fresh.
Proof.
  split_and!.
  - intros t i Ht. cbn in Ht. by rewrite lookup_empty in Ht.
  - intros i t Hi. cbn in Hi. by rewrite lookup_empty in Hi.
  - cbn. intros i. rewrite map_size_empty. lia.
Qed.

Lemma register_all_wf ts s : reg_wf s → reg_wf (register_all ts s).
Proof.
  revert s. induction ts as [|t ts IH]; intros s Hwf; simpl; [done|].
  by apply IH, register_wf.
Qed.

Lemma register_tables t s1 s2 :
  same_tables s1 s2 → same_tables (register t s1) (register t s2).
Proof.
  intros [Ha Hi]. unfold same_tables, register. rewrite Ha.
  destruct (atom_id s2 !! t); [done|]. simpl. by rewrite ?Ha, ?Hi.
Qed.

Lemma register_all_tables ts s1 s2 :
  same_tables s1 s2 → same_tables (register_all ts s1) (register_all ts s2).
Proof.
  revert s1 s2. induction ts as [|t ts IH]; intros s1 s2 Hs; simpl; [done|].
  by apply IH, register_tables.
Qed.

Lemma register_all_known ts s :
  (∀ t, t ∈ ts → is_Some (atom_id s !! t)) → register_all ts s = s.
Proof.
  induction ts as [|t ts IH]; intros Hknown; simpl; [done|].
  destruct (Hknown t ltac:(left)) as [i Hi]. rewrite (register_known _ _ _ Hi).
  apply IH. intros t' Ht'. apply Hknown. by right.
Qed.

Lemma same_tables_interp s1 s2 cs : same_tables s1 s2 → interp s1 cs = interp s2 cs.
Proof.
  intros [Ha _]. unfold interp. apply list_fmap_ext. intros _ c _.
  apply list_fmap_ext. intros _ l _. unfold lit_of, id_of. by rewrite Ha.
Qed.

Lemma same_tables_wf s1 s2 : same_tables s1 s2 → reg_wf s1 → reg_wf s2.
Proof. intros [Ha Hi]. unfold reg_wf. by rewrite Ha, Hi. Qed.

Lemma encoded_wf G : reg_wf (encoded G).
Proof. unfold encoded. apply register_all_wf. apply fresh_wf. Qed.

Lemma encoded_registered G t :
  is_Some (atom_id (encoded G) !! t) ↔ t ∈ triples_of (sym_cnf G).
Proof.
  split; [|apply register_all_registered].
  unfold encoded. generalize (triples_of (sym_cnf G)). intros ts.
  assert (∀ s, is_Some (atom_id (register_all ts s) !! t) →
               is_Some (atom_id s !! t) ∨ t ∈ ts) as Hgen.
  { induction ts as [|t' ts IH]; intros s Hs; simpl in *; [by left|].
    destruct (IH _ Hs) as [Hreg|Hin]; [|right; by right].
    destruct (decide (t = t')) as [->|Hne]; [right; by left|]. left.
    destruct (atom_id s !! t') as [j|] eqn:Hk.
    - by rewrite (register_known _ _ _ Hk) in Hreg.
    - destruct (register_new _ _ Hk) as (Ha & _ & _). rewrite Ha in Hreg.
      by rewrite lookup_insert_ne in Hreg. }
  intros Hreg. destruct (Hgen fresh Hreg) as [[i Hi]|Hin]; [|done].
  cbn in Hi. by rewrite lookup_empty in Hi.
Qed.

(** Encoding again changes nothing: every triple is known already. *)
Lemma encode_tables G s :
  tables_inv G s → same_tables (register_all (triples_of (sym_cnf G)) s) (encoded G).
Proof.
  intros [Hfresh|Henc].
  - by apply register_all_tables.
  - rewrite register_all_known; [done|]. intros t Ht.
    destruct Henc as [-> _]. by apply encoded_registered.
Qed.

(** A triple that is registered after [s] gets an identifier above all
    those of [s]. *)
Lemma register_all_later ts s t i :
  atom_id s !! t = None → atom_id (register_all ts s) !! t = Some i →
  (Z.of_nat (size (atom_id s)) < i)%Z.
Proof.
  revert s. induction ts as [|t' ts IH]; intros s Hnew Hi; simpl in *; [congruence|].
  destruct (atom_id s !! t') as [j|] eqn:Hk.
  { rewrite (register_known _ _ _ Hk) in Hi. by apply IH. }
  destruct (register_new _ _ Hk) as (Ha & _ & Hs).
  destruct (decide (t = t')) as [->|Hne].
  - assert (atom_id (register t' s) !! t' = Some (Z.of_nat (size (atom_id s)) + 1)%Z)
      as Hreg by (by rewrite Ha, lookup_insert_eq).
    rewrite (register_all_atom_id_mono ts _ _ _ Hreg) in Hi. injection Hi as <-. lia.
  - assert (atom_id (register t' s) !! t = None) as Hnew'
      by (by rewrite Ha, lookup_insert_ne).
    specialize (IH _ Hnew' Hi). lia.
Qed.

(** New triples get consecutive identifiers in the order of the calls. *)
Lemma register_all_fresh ts s :
  NoDup ts → (∀ t, t ∈ ts → atom_id s !! t = None) →
  size (atom_id (register_all ts s)) = size (atom_id s) + length ts ∧
  ∀ k t, ts !! k = Some t →
    atom_id (register_all ts s) !! t = Some (Z.of_nat (size (atom_id s) + k) + 1)%Z.
Proof.
  revert s. induction ts as [|t0 ts IH]; intros s Hnd Hnew; simpl.
  { split; [lia|]. intros k t Hk. by rewrite lookup_nil in Hk. }
  apply NoDup_cons in Hnd as [Hfresh Hnd].
  destruct (register_new t0 s (Hnew t0 ltac:(left))) as (Ha & _ & Hs).
  destruct (IH (register t0 s) Hnd) as [Hsize Hids].
  { intros t Ht. rewrite Ha, lookup_insert_ne; [apply Hnew; by right|]. by intros ->. }
  split; [lia|]. intros [|k] t Hk; simpl in Hk.
  - injection Hk as <-. apply register_all_atom_id_mono. rewrite Ha, lookup_insert_eq.
    do 2 f_equal. lia.
  - rewrite (Hids k t Hk). do 2 f_equal. lia.
Qed.

Lemma triples_of_app cs1 cs2 :
  triples_of (cs1 ++ cs2) = triples_of cs1 ++ triples_of cs2.
Proof. unfold triples_of. apply bind_app. Qed.

Lemma triples_initial G :
  triples_of (sym_initial G) =
  (λ k, (k / 9, k mod 9, cell G (k / 9) (k mod 9))) <$> seq 0 81.
Proof. reflexivity. Qed.

(** From here on the clause lists are only used through the lemmas above. *)
#[local] Opaque sym_initial sym_cells sym_rows sym_columns sym_subgrids.

Lemma register_all_registered_inv ts s t :
  is_Some (atom_id (register_all ts s) !! t) → is_Some (atom_id s !! t) ∨ t ∈ ts.
Proof.
  revert s. induction ts as [|t' ts IH]; intros s Hs; simpl in *; [by left|].
  destruct (IH _ Hs) as [Hreg|Hin]; [|right; by right].
  destruct (decide (t = t')) as [->|Hne]; [right; by left|]. left.
  destruct (atom_id s !! t') as [j|] eqn:Hk.
  - by rewrite (register_known _ _ _ Hk) in Hreg.
  - destruct (register_new _ _ Hk) as (Ha & _ & _). rewrite Ha in Hreg.
    by rewrite lookup_insert_ne in Hreg.
Qed.

Lemma cell_index row col :
  col < 9 → (9 * row + col) / 9 = row ∧ (9 * row + col) mod 9 = col.
Proof.
  intros Hc. split.
  - symmetry. apply (Nat.div_unique _ 9 row col); lia.
  - symmetry. apply (Nat.mod_unique _ 9 row col); lia.
Qed.

Lemma elem_of_triples_initial G t :
  t ∈ triples_of (sym_initial G) →
  ∃ row col, row < 9 ∧ col < 9 ∧ t = (row, col, cell G row col).
Proof.
  rewrite triples_initial. intros (k & -> & Hk%elem_of_seq)%list_elem_of_fmap.
  exists (k / 9), (k mod 9). split_and!; [|by apply Nat.mod_upper_bound|done].
  apply Nat.Div0.div_lt_upper_bound. lia.
Qed.

Lemma NoDup_triples_initial G : NoDup (triples_of (sym_initial G)).
Proof.
  rewrite triples_initial. apply NoDup_fmap_2_strong; [|apply NoDup_seq].
  intros k1 k2 _ _ Heq.
  pose proof (f_equal (λ t : triple, t.1.1) Heq) as Hdiv.
  pose proof (f_equal (λ t : triple, t.1.2) Heq) as Hmod.
  cbn [fst snd] in Hdiv, Hmod.
  rewrite (Nat.div_mod_eq k1 9), (Nat.div_mod_eq k2 9). by rewrite Hdiv, Hmod.
Qed.

(** The first encoding numbers the 81 triples of the given entries from 1
    to 81 in row-major order, and every other triple above them. *)
Lemma encoded_initial_id G row col :
  row < 9 → col < 9 →
  atom_id (encoded G) !! (row, col, cell G row col) = Some (Z.of_nat (idx row col) + 1)%Z.
Proof.
  intros Hr Hc. unfold encoded, sym_cnf. rewrite triples_of_app, register_all_app.
  apply register_all_atom_id_mono.
  destruct (register_all_fresh (triples_of (sym_initial G)) fresh) as [_ Hids].
  { apply NoDup_triples_initial. }
  { intros t _. apply lookup_empty. }
  rewrite (Hids (idx row col) (row, col, cell G row col)).
  - cbn. by rewrite map_size_empty.
  - rewrite triples_initial. apply list_lookup_fmap_Some. exists (idx row col). split.
    + unfold idx. by destruct (cell_index row col Hc) as [-> ->].
    + apply lookup_seq. unfold idx. lia.
Qed.

Lemma encoded_later G t i :
  atom_id (encoded G) !! t = Some i → t ∉ triples_of (sym_initial G) → (81 < i)%Z.
Proof.
  unfold encoded, sym_cnf. rewrite triples_of_app, register_all_app. intros Hi Hnew.
  destruct (register_all_fresh (triples_of (sym_initial G)) fresh) as [Hsize _].
  { apply NoDup_triples_initial. }
  { intros t' _. apply lookup_empty. }
  eapply register_all_later in Hi.
  - rewrite Hsize, triples_initial, length_fmap, length_seq in Hi.
    unfold fresh in Hi. cbn [atom_id] in Hi. rewrite map_size_empty in Hi. lia.
  - apply eq_None_not_Some. intros Hsome.
    apply register_all_registered_inv in Hsome as [[j Hj]|Hin]; [|exact (Hnew Hin)].
    unfold fresh in Hj. cbn [atom_id] in Hj. by rewrite lookup_empty in Hj.
Qed.

Lemma encoded_order G row col number :
  row < 9 → col < 9 → number ≠ cell G row col →
  (id_of (encoded G) (row, col, cell G row col) < id_of (encoded G) (row, col, number))%Z ∨
  atom_id (encoded G) !! (row, col, number) = None.
Proof.
  intros Hr Hc Hne. destruct (atom_id (encoded G) !! (row, col, number)) as [i|] eqn:Hi;
    [left|by right].
  unfold id_of. rewrite Hi, (encoded_initial_id G row col Hr Hc). simpl.
  apply encoded_later in Hi.
  - unfold idx. lia.
  - clear Hi. intros (row' & col' & _ & _ & Heq)%elem_of_triples_initial.
    apply Hne. congruence.
Qed.

(** ** The decoder *)

Lemma decode_eq model : ∀ s r ys g,
  solution s = Some r → grid_objs (heap s) !! r = Some ys →
  deref (row_objs (heap s)) ys = Some g → dims_ok g →
  (∀ v, v ∈ model → (0 < v)%Z →
        ∃ row col number, id_atom s !! v = Some (row, col, number) ∧ row < 9 ∧ col < 9) →
  ∃ rws, decode model s = Ok (tt, set_heap (mkStore rws (grid_objs (heap s))) s) ∧
         deref rws ys = Some (decode_shared ys (id_atom s) model g).
Proof.
  unfold decode. induction model as [|v model IH]; intros s r ys g Hsol Hys Hg Hd Hreg; simpl.
  { exists (row_objs (heap s)). split; [|exact Hg]. by destruct s as [[] ?]. }
  destruct (0 <? v)%Z eqn:Hpos.
  - destruct (Hreg v ltac:(left) ltac:(by apply Z.ltb_lt))
      as (row & col & number & Hv & Hr & Hc).
    rewrite bind_assoc. rewrite (bind_step _ _ s (Some (row, col, number)) s)
      by (unfold get; by rewrite Hv).
    rewrite bind_assoc. rewrite (bind_step _ _ s (Some r) s) by (unfold get; by rewrite Hsol).
    destruct (setitem_shared s r g ys row col number Hys Hg Hd Hr Hc)
      as (x & line & Hx & Hline & Hset & Hwritten).
    rewrite (bind_step _ _ _ _ _ Hset).
    destruct (IH (set_heap (mkStore (<[x := <[col := number]> line]> (row_objs (heap s)))
                              (grid_objs (heap s))) s)
                r ys (place_shared ys g row col number) Hsol Hys Hwritten)
      as (rws & Hrun & Hval).
    + by apply place_shared_dims.
    + intros v' Hv' Hpos'. apply Hreg; [by right|done].
    + exists rws. split; [exact Hrun|].
      rewrite Hval. unfold decode_step_shared. cbn [id_atom set_heap]. by rewrite Hv, Hpos.
  - rewrite (bind_step _ _ s tt s) by done.
    destruct (IH s r ys g Hsol Hys Hg Hd) as (rws & Hrun & Hval).
    + intros v' Hv' Hpos'. apply Hreg; [by right|done].
    + exists rws. split; [exact Hrun|]. rewrite Hval. unfold decode_step_shared.
      by rewrite Hpos.
Qed.

(** ** Models *)

Lemma holds_elem_of m l : holds m l = true ↔ l ∈ m.
Proof.
  unfold holds. rewrite existsb_exists. split.
  - intros (x & Hx%list_elem_of_In & ->%Z.eqb_eq). done.
  - intros Hl. exists l. split; [by apply list_elem_of_In|apply Z.eqb_refl].
Qed.

Lemma is_model_iff cnf m :
  is_model cnf m = true ↔
  Z.abs <$> m = seqZ 1 (nvars cnf) ∧ ∀ c, c ∈ cnf → ∃ l, l ∈ c ∧ l ∈ m.
Proof.
  unfold is_model. rewrite andb_true_iff, bool_decide_eq_true, forallb_forall.
  apply and_iff_compat_l. split.
  - intros Hall c Hc%list_elem_of_In. apply Hall, existsb_exists in Hc as (l & Hl & Hh).
    exists l. split; [by apply list_elem_of_In|by apply holds_elem_of].
  - intros Hall c Hc%list_elem_of_In. destruct (Hall c Hc) as (l & Hl & Hm).
    apply existsb_exists. exists l. split; [by apply list_elem_of_In|by apply holds_elem_of].
Qed.

Lemma model_lookup m n k v :
  Z.abs <$> m = seqZ 1 n → m !! k = Some v → Z.abs v = (1 + Z.of_nat k)%Z ∧ (Z.of_nat k < n)%Z.
Proof.
  intros Habs Hk.
  assert ((Z.abs <$> m) !! k = Some (Z.abs v)) as Hk' by (by rewrite list_lookup_fmap, Hk).
  rewrite Habs in Hk'. apply lookup_seqZ in Hk' as [-> ?]. done.
Qed.

Lemma model_sorted m n i j v w :
  Z.abs <$> m = seqZ 1 n → m !! i = Some v → m !! j = Some w → i < j →
  (Z.abs v < Z.abs w)%Z.
Proof.
  intros Habs Hi Hj Hlt.
  destruct (model_lookup m n i v Habs Hi) as [-> _].
  destruct (model_lookup m n j w Habs Hj) as [-> _]. lia.
Qed.

Lemma model_range m n v : Z.abs <$> m = seqZ 1 n → v ∈ m → (1 ≤ Z.abs v ≤ n)%Z.
Proof.
  intros Habs [k Hk]%list_elem_of_lookup.
  destruct (model_lookup m n k v Habs Hk). lia.
Qed.

Lemma model_consistent m n v : Z.abs <$> m = seqZ 1 n → v ∈ m → (- v)%Z ∈ m → False.
Proof.
  intros Habs [i Hi]%list_elem_of_lookup [j Hj]%list_elem_of_lookup.
  destruct (model_lookup m n i v Habs Hi) as [Hv _].
  destruct (model_lookup m n j _ Habs Hj) as [Hw _].
  assert (i = j) as -> by lia. rewrite Hi in Hj. injection Hj as Hj. lia.
Qed.

Lemma nvars_ge cnf c l : c ∈ cnf → l ∈ c → (Z.abs l ≤ nvars cnf)%Z.
Proof.
  unfold nvars. induction cnf as [|c' cnf IH]; intros Hc Hl; [by apply elem_of_nil in Hc|].
  simpl. assert (∀ (c0 : list Z) n,
    (n ≤ foldr (λ l n, Z.max (Z.abs l) n) n c0)%Z ∧
    ∀ l0, l0 ∈ c0 → (Z.abs l0 ≤ foldr (λ l n, Z.max (Z.abs l) n) n c0)%Z) as Hclause.
  { clear. induction c0 as [|l' c0 IHc]; intros n; simpl.
    - split; [lia|]. intros l0 Hl0. by apply elem_of_nil in Hl0.
    - destruct (IHc n) as [Hn Hin]. split; [lia|].
      intros l0 [->|Hl0]%elem_of_cons; [lia|]. specialize (Hin l0 Hl0). lia. }
  apply elem_of_cons in Hc as [->|Hc].
  - by apply Hclause.
  - etrans; [by apply IH|]. apply Hclause.
Qed.

Lemma nvars_le cnf n :
  (0 ≤ n)%Z → (∀ c l, c ∈ cnf → l ∈ c → (Z.abs l ≤ n)%Z) → (nvars cnf ≤ n)%Z.
Proof.
  intros Hn. unfold nvars. induction cnf as [|c cnf IH]; intros Hall; simpl; [done|].
  assert (nvars cnf ≤ n)%Z as Hrest.
  { apply IH. intros c' l Hc' Hl. apply (Hall c' l); [by right|done]. }
  unfold nvars in Hrest.
  assert (∀ l, l ∈ c → (Z.abs l ≤ n)%Z) as Hc by (intros l Hl; apply (Hall c l); [by left|done]).
  clear -Hrest Hc. induction c as [|l c IHc]; simpl; [done|].
  apply Z.max_lub; [apply Hc; by left|]. apply IHc. intros l' Hl'. apply Hc. by right.
Qed.

(** ** The decoded grid *)

Lemma decode_step_dims idm g v : dims_ok g → dims_ok (decode_step idm g v).
Proof.
  intros Hd. unfold decode_step. destruct (0 <? v)%Z; [|done].
  destruct (idm !! v) as [[[row col] number]|]; [|done]. by apply place_dims.
Qed.

Lemma decode_grid_dims idm m g : dims_ok g → dims_ok (decode_grid idm m g).
Proof.
  unfold decode_grid. revert g. induction m as [|v m IH]; intros g Hd; simpl; [done|].
  by apply IH, decode_step_dims.
Qed.

(** The decoded entry of a cell is the number of the last true atom of
    that cell in the model, the one with the largest identifier; a cell
    without a true atom keeps the entry of the copied grid. *)
Lemma decode_cell idm m n g r c :
  dims_ok g → r < 9 → c < 9 → Z.abs <$> m = seqZ 1 n →
  (∀ v, v ∈ m → (0 < v)%Z →
        ∃ row col number, idm !! v = Some (row, col, number) ∧ row < 9 ∧ col < 9) →
  (cell (decode_grid idm m g) r c = cell g r c ∧
   ∀ v number, v ∈ m → (0 < v)%Z → idm !! v ≠ Some (r, c, number)) ∨
  (∃ v, v ∈ m ∧ (0 < v)%Z ∧ idm !! v = Some (r, c, cell (decode_grid idm m g) r c) ∧
        ∀ v' number, v' ∈ m → (0 < v')%Z → idm !! v' = Some (r, c, number) → (v' ≤ v)%Z).
Proof.
  intros Hd Hr Hc Habs.
  assert (∀ i j v w, m !! i = Some v → m !! j = Some w → i < j → (Z.abs v < Z.abs w)%Z)
    as Hsorted by (intros i j v w; by apply (model_sorted m n)).
  clear Habs. revert Hsorted. induction m as [|x m IH] using rev_ind; intros Hsorted Hreg.
  { left. split; [done|]. intros v number Hv. by apply elem_of_nil in Hv. }
  assert (∀ v, v ∈ m → (0 < v)%Z → (0 < x)%Z → (v < x)%Z) as Hlast.
  { intros v [i Hi]%list_elem_of_lookup Hv Hx.
    pose proof (Hsorted i (length m) v x) as Hlt.
    rewrite lookup_app_l, lookup_app_r, Nat.sub_diag in Hlt
      by (lia || by eapply lookup_lt_Some).
    specialize (Hlt Hi eq_refl ltac:(by eapply lookup_lt_Some)). lia. }
  destruct IH as [[Hcell Hnone]|(v & Hv & Hpos & Hidm & Hmax)].
  { intros i j v w Hi Hj. apply Hsorted; by apply lookup_app_l_Some. }
  { intros v Hv. apply Hreg, elem_of_app. by left. }
  all: unfold decode_grid in *; rewrite foldl_app; simpl;
    set (D := foldl (decode_step idm) g m) in *;
    assert (dims_ok D) as HdD by (by apply decode_grid_dims);
    unfold decode_step; destruct (0 <? x)%Z eqn:Hx;
    [apply Z.ltb_lt in Hx;
     destruct (Hreg x ltac:(apply elem_of_app; right; by left) Hx)
       as (row & col & number & Hidx & Hrow & Hcol);
     rewrite Hidx, cell_place by done;
     destruct (decide (r = row ∧ c = col)) as [[-> ->]|Hne]
    |apply Z.ltb_ge in Hx].
  - right. exists x. split_and!; [apply elem_of_app; right; by left|done..|].
    intros v' n' [Hv' | ->%list_elem_of_singleton]%elem_of_app Hpos' _; [|lia].
    specialize (Hlast v' Hv' Hpos' Hx). lia.
  - left. split; [done|].
    intros v' n' [Hv' | ->%list_elem_of_singleton]%elem_of_app Hpos'; [by apply Hnone|].
    rewrite Hidx. intros [= -> ->]. tauto.
  - left. split; [done|].
    intros v' n' [Hv' | ->%list_elem_of_singleton]%elem_of_app Hpos'; [by apply Hnone|lia].
  - right. exists x. split_and!; [apply elem_of_app; right; by left|done..|].
    intros v' n' [Hv' | ->%list_elem_of_singleton]%elem_of_app Hpos' _; [|lia].
    specialize (Hlast v' Hv' Hpos' Hx). lia.
  - right. exists v. split_and!; [apply elem_of_app; by left|done..|].
    intros v' n' [Hv' | ->%list_elem_of_singleton]%elem_of_app Hpos' Hidm'; [by eapply Hmax|].
    rewrite Hidx in Hidm'. injection Hidm' as -> -> ->. tauto.
  - right. exists v. split_and!; [apply elem_of_app; by left|done..|].
    intros v' n' [Hv' | ->%list_elem_of_singleton]%elem_of_app Hpos' Hidm'; [by eapply Hmax|lia].
Qed.

(** ** Soundness of the encoding: a model decodes to a solved grid *)

Lemma nvars_interp e cs :
  reg_wf e → (∀ t, t ∈ triples_of cs → is_Some (atom_id e !! t)) →
  (nvars (interp e cs) ≤ Z.of_nat (size (atom_id e)))%Z.
Proof.
  intros (Hfwd & Hbwd & _) Hreg. apply nvars_le; [lia|]. intros c x Hc Hx.
  apply list_elem_of_fmap in Hc as (sc & -> & Hsc).
  apply list_elem_of_fmap in Hx as (l & -> & Hl).
  destruct (Hreg l.1) as [i Hi].
  { unfold triples_of. apply list_elem_of_bind. exists sc. split; [|done].
    by apply list_elem_of_fmap_2. }
  pose proof (Hbwd _ _ (Hfwd _ _ Hi)) as [_ Hrange].
  unfold lit_of, id_of. rewrite Hi. simpl. destruct l.2; lia.
Qed.

Lemma model_interp e cs m :
  is_model (interp e cs) m = true →
  Z.abs <$> m = seqZ 1 (nvars (interp e cs)) ∧
  ∀ c, c ∈ cs → ∃ l, l ∈ c ∧ lit_of e l ∈ m.
Proof.
  intros [Habs Hsat]%is_model_iff. split; [done|]. intros c Hc.
  destruct (Hsat (lit_of e <$> c)) as (x & Hx & Hm).
  { unfold interp. apply list_elem_of_fmap. by exists c. }
  apply list_elem_of_fmap in Hx as (l & -> & Hl). by exists l.
Qed.

(** Nine distinct digits are all the digits. *)
Lemma digits_onto (f : nat → Z) :
  (∀ c, c < 9 → (1 ≤ f c ≤ 9)%Z) →
  (∀ c1 c2, c1 < 9 → c2 < 9 → f c1 = f c2 → c1 = c2) →
  ∀ d, (1 ≤ d ≤ 9)%Z → ∃ c, c < 9 ∧ f c = d.
Proof.
  intros Hrange Hinj d Hd.
  assert (f <$> seq 0 9 ≡ₚ seqZ 1 9) as Hperm.
  { apply submseteq_length_Permutation.
    - apply NoDup_submseteq.
      + apply NoDup_fmap_2_strong; [|apply NoDup_seq].
        intros c1 c2 Hc1%elem_of_seq Hc2%elem_of_seq. apply Hinj; lia.
      + intros x (c & -> & Hc%elem_of_seq)%list_elem_of_fmap.
        apply elem_of_seqZ. specialize (Hrange c ltac:(lia)). lia.
    - by rewrite length_fmap, length_seq, length_seqZ. }
  assert (d ∈ f <$> seq 0 9) as Hin by (rewrite Hperm; apply elem_of_seqZ; lia).
  apply list_elem_of_fmap in Hin as (c & -> & Hc%elem_of_seq). exists c. split; [lia|done].
Qed.

Section Soundness.

(** The given grid, the atom tables [e] after the encoding, and a model
    [m] over [n] variables of the formula of [G] under these tables. *)
Variable G : Grid.
Variable e : state.
Variable m : list Z.
Variable n : Z.
Hypothesis HdG : dims_ok G.
Hypothesis Hwf : reg_wf e.
Hypothesis Hreg : ∀ t, is_Some (atom_id e !! t) ↔ t ∈ triples_of (sym_cnf G).
Hypothesis Horder : ∀ row col number,
  row < 9 → col < 9 → number ≠ cell G row col →
  is_Some (atom_id e !! (row, col, number)) →
  (id_of e (row, col, cell G row col) < id_of e (row, col, number))%Z.
Hypothesis model_abs : Z.abs <$> m = seqZ 1 n.
Hypothesis Hvars : (n ≤ Z.of_nat (size (atom_id e)))%Z.
Hypothesis model_clause : ∀ c, c ∈ sym_cnf G → ∃ l, l ∈ c ∧ lit_of e l ∈ m.

Lemma table_id row col number :
  row < 9 → col < 9 → number = cell G row col ∨ (1 ≤ number ≤ 9)%Z →
  atom_id e !! (row, col, number) = Some (id_of e (row, col, number)) ∧
  id_atom e !! id_of e (row, col, number) = Some (row, col, number) ∧
  (0 < id_of e (row, col, number))%Z.
Proof.
  intros Hr Hc Hnum.
  destruct (proj2 (Hreg (row, col, number))) as [i Hi].
  { apply elem_of_triples. by exists row, col, number. }
  unfold id_of. rewrite Hi. simpl. split; [done|]. split.
  - by apply Hwf.
  - pose proof (atom_positive _ _ _ Hwf Hi). lia.
Qed.

(** Every true variable of the model is the atom of a triple of the grid. *)
Lemma model_atom v :
  v ∈ m → (0 < v)%Z →
  ∃ row col number,
    id_atom e !! v = Some (row, col, number) ∧ row < 9 ∧ col < 9 ∧
    id_of e (row, col, number) = v ∧
    (number = cell G row col ∨ (1 ≤ number ≤ 9)%Z).
Proof.
  intros Hv Hpos. pose proof (model_range _ _ _ model_abs Hv) as Hrange.
  destruct Hwf as (Hfwd & Hbwd & Hdense).
  destruct (Hdense v ltac:(lia)) as [t Ht].
  destruct (Hbwd _ _ Ht) as [Hid _].
  assert (t ∈ triples_of (sym_cnf G)) as Hin by (apply Hreg; by eexists).
  apply elem_of_triples in Hin as (row & col & number & -> & Hr & Hc & Hnum).
  exists row, col, number. split_and!; try done. unfold id_of. by rewrite Hid.
Qed.

(** The unit clause of a cell makes the atom of its given entry true. *)
Lemma true_given row col :
  row < 9 → col < 9 → id_of e (row, col, cell G row col) ∈ m.
Proof.
  intros Hr Hc. destruct (model_clause [((row, col, cell G row col), false)])
    as (l & ->%list_elem_of_singleton & Hl); [|done].
  apply elem_of_sym_cnf. left. apply elem_of_sym_initial. by exists row, col.
Qed.

(** The clause of a cell makes the atom of one of its digits true. *)
Lemma true_digit row col :
  row < 9 → col < 9 →
  ∃ number, (1 ≤ number ≤ 9)%Z ∧ id_of e (row, col, number) ∈ m.
Proof.
  intros Hr Hc.
  destruct (model_clause ((λ number, ((row, col, number), false)) <$> rangeZ 1 10))
    as (l & Hl & Hm).
  { apply elem_of_sym_cnf. right. left. apply elem_of_sym_cells. by exists row, col. }
  apply list_elem_of_fmap in Hl as (number & -> & Hn%elem_of_rangeZ).
  exists number. split; [lia|done].
Qed.

Lemma pair_clause t1 t2 :
  [(t1, true); (t2, true)] ∈ sym_cnf G →
  id_of e t1 ∈ m → id_of e t2 ∈ m → False.
Proof.
  intros Hc H1 H2. destruct (model_clause _ Hc) as (l & Hl & Hm).
  rewrite !elem_of_cons, elem_of_nil in Hl. destruct Hl as [->|[->|[]]].
  - by apply (model_consistent _ _ _ model_abs H1).
  - by apply (model_consistent _ _ _ model_abs H2).
Qed.

(** Two cells of one row, column or box cannot hold the same digit. *)
Lemma no_clash r1 c1 r2 c2 number :
  r1 < 9 → c1 < 9 → r2 < 9 → c2 < 9 → (r1, c1) ≠ (r2, c2) →
  r1 = r2 ∨ c1 = c2 ∨ (r1 / 3 = r2 / 3 ∧ c1 / 3 = c2 / 3) →
  (1 ≤ number ≤ 9)%Z →
  id_of e (r1, c1, number) ∈ m →
  id_of e (r2, c2, number) ∈ m → False.
Proof.
  intros Hr1 Hc1 Hr2 Hc2 Hne Hunit Hn H1 H2.
  assert (∀ cl, cl ∈ sym_rows ∨ cl ∈ sym_columns ∨ cl ∈ sym_subgrids → cl ∈ sym_cnf G)
    as Hfam by (intros cl; rewrite elem_of_sym_cnf; tauto).
  destruct Hunit as [<-|[<-|[Hrb Hcb]]].
  - destruct (decide (c1 < c2)).
    + apply (pair_clause (r1, c1, number) (r1, c2, number)); [|done..].
      apply Hfam. left. apply elem_of_sym_rows. exists r1, c1, c2, number.
      split_and!; (done || lia).
    + apply (pair_clause (r1, c2, number) (r1, c1, number)); [|done..].
      apply Hfam. left. apply elem_of_sym_rows. exists r1, c2, c1, number.
      split_and!; try (done || lia).
      assert (c1 ≠ c2) by congruence. lia.
  - destruct (decide (r1 < r2)).
    + apply (pair_clause (r1, c1, number) (r2, c1, number)); [|done..].
      apply Hfam. right. left. apply elem_of_sym_columns. exists c1, r1, r2, number.
      split_and!; (done || lia).
    + apply (pair_clause (r2, c1, number) (r1, c1, number)); [|done..].
      apply Hfam. right. left. apply elem_of_sym_columns. exists c1, r2, r1, number.
      split_and!; try (done || lia).
      assert (r1 ≠ r2) by congruence. lia.
  - destruct (decide (r1 < r2 ∨ (r2 = r1 ∧ c1 < c2))).
    + apply (pair_clause (r1, c1, number) (r2, c2, number)); [|done..].
      apply Hfam. right. right. apply elem_of_sym_subgrids.
      exists r1, c1, r2, c2, number. split_and!; (done || lia).
    + apply (pair_clause (r2, c2, number) (r1, c1, number)); [|done..].
      apply Hfam. right. right. apply elem_of_sym_subgrids.
      exists r2, c2, r1, c1, number. split_and!; try (done || lia).
      assert (r1 ≠ r2 ∨ c1 ≠ c2) by (destruct (decide (r1 = r2)); [right|left]; congruence).
      lia.
Qed.

Lemma decode_registered v :
  v ∈ m → (0 < v)%Z →
  ∃ row col number,
    id_atom e !! v = Some (row, col, number) ∧ row < 9 ∧ col < 9.
Proof.
  intros Hv Hpos. destruct (model_atom v Hv Hpos) as (row & col & number & ? & ? & ? & _).
  by exists row, col, number.
Qed.

(** The decoded entry of every cell is a digit whose atom is true. *)
Lemma decoded_digit row col :
  row < 9 → col < 9 →
  (1 ≤ cell (decode_grid (id_atom e) m G) row col ≤ 9)%Z ∧
  id_of e (row, col, cell (decode_grid (id_atom e) m G) row col) ∈ m.
Proof.
  intros Hr Hc.
  destruct (decode_cell (id_atom e) m n G row col HdG Hr Hc model_abs
              decode_registered) as [[_ Hnone]|(v & Hv & Hpos & Hidm & Hmax)].
  { destruct (table_id row col (cell G row col) Hr Hc ltac:(by left)) as (_ & Hid & Hpos).
    destruct (Hnone _ (cell G row col) (true_given row col Hr Hc) Hpos Hid). }
  set (d0 := cell (decode_grid (id_atom e) m G) row col) in *.
  destruct (model_atom v Hv Hpos) as (row' & col' & d' & Hidm' & _ & _ & Hidv & Hd').
  rewrite Hidm in Hidm'. injection Hidm' as <- <- <-.
  rewrite Hidv. destruct (decide (1 ≤ d0 ≤ 9)%Z) as [Hdigit|Hother]; [done|].
  destruct Hd' as [Hgiven|?]; [|done].
  destruct (true_digit row col Hr Hc) as (d & Hd & Htrue).
  destruct (table_id row col d Hr Hc ltac:(by right)) as (Hknown & Hid & Hdpos).
  specialize (Hmax _ d Htrue Hdpos Hid).
  assert (d ≠ cell G row col) as Hdg by (rewrite <- Hgiven; lia).
  pose proof (Horder row col d Hr Hc Hdg ltac:(by eexists)) as Hlt.
  subst d0. rewrite <- Hgiven, Hidv in Hlt.
  unfold id_of in Hlt. rewrite Hknown in Hlt. simpl in Hlt. lia.
Qed.

Lemma decoded_dims : dims_ok (decode_grid (id_atom e) m G).
Proof. by apply decode_grid_dims. Qed.

Lemma decoded_consistent : consistent (decode_grid (id_atom e) m G).
Proof.
  assert (∀ r1 c1 r2 c2, r1 < 9 → c1 < 9 → r2 < 9 → c2 < 9 → (r1, c1) ≠ (r2, c2) →
            r1 = r2 ∨ c1 = c2 ∨ (r1 / 3 = r2 / 3 ∧ c1 / 3 = c2 / 3) →
            cell (decode_grid (id_atom e) m G) r1 c1 ≠
            cell (decode_grid (id_atom e) m G) r2 c2) as Hdistinct.
  { intros r1 c1 r2 c2 Hr1 Hc1 Hr2 Hc2 Hne Hunit Heq.
    destruct (decoded_digit r1 c1 Hr1 Hc1) as [Hn H1].
    destruct (decoded_digit r2 c2 Hr2 Hc2) as [_ H2]. rewrite <- Heq in H2.
    by apply (no_clash r1 c1 r2 c2 _ Hr1 Hc1 Hr2 Hc2 Hne Hunit Hn). }
  split_and!.
  - intros r c1 c2 Hr Hc1 Hc2 Hne _. apply Hdistinct; [done..|congruence|by left].
  - intros c r1 r2 Hc Hr1 Hr2 Hne _. apply Hdistinct; [done..|congruence|right; by left].
  - intros r1 c1 r2 c2 Hr1 Hc1 Hr2 Hc2 Hne Hrb Hcb _.
    apply Hdistinct; [done..|right; by right].
Qed.

(** A given digit is kept: the nine cells of its row hold nine distinct
    digits, so the digit is in one of them, and by the row clauses this
    cell is the given one. *)
Lemma decoded_given row col :
  row < 9 → col < 9 → (1 ≤ cell G row col ≤ 9)%Z →
  cell (decode_grid (id_atom e) m G) row col = cell G row col.
Proof.
  intros Hr Hc Hgiven.
  destruct (digits_onto (λ c, cell (decode_grid (id_atom e) m G) row c))
    with (d := cell G row col) as (c & Hc' & Heq); [| |done|].
  { intros c Hc'. by apply decoded_digit. }
  { intros c1 c2 Hc1 Hc2 Heq. destruct (decide (c1 = c2)) as [|Hne]; [done|].
    destruct decoded_consistent as (Hrows & _ & _).
    destruct (Hrows row c1 c2 Hr Hc1 Hc2 Hne); [|done].
    destruct (decoded_digit row c1 Hr Hc1). lia. }
  destruct (decide (c = col)) as [->|Hne]; [done|].
  destruct (decoded_digit row c Hr Hc') as [_ Htrue]. simpl in Heq. rewrite Heq in Htrue.
  destruct (no_clash row c row col (cell G row col)); try done.
  - congruence.
  - by left.
  - by apply true_given.
Qed.

End Soundness.

(** ** Completeness of the encoding: a solved grid gives a model *)

Lemma model_of_abs idm G S n : Z.abs <$> model_of idm G S n = seqZ 1 n.
Proof.
  unfold model_of. rewrite <- list_fmap_compose.
  rewrite <- (list_fmap_id (seqZ 1 n)) at 2. apply list_fmap_ext.
  intros k i Hi%lookup_seqZ. simpl. destruct (idm !! i) as [t|]; [destruct (truth G S t)|]; lia.
Qed.

Lemma model_of_true idm G S n i t :
  (1 ≤ i ≤ n)%Z → idm !! i = Some t → truth G S t = true → i ∈ model_of idm G S n.
Proof.
  intros Hi Ht Htrue. unfold model_of. apply list_elem_of_fmap. exists i.
  rewrite Ht, Htrue. split; [done|]. apply elem_of_seqZ. lia.
Qed.

Lemma model_of_false idm G S n i t :
  (1 ≤ i ≤ n)%Z → idm !! i = Some t → truth G S t = false → (- i)%Z ∈ model_of idm G S n.
Proof.
  intros Hi Ht Hfalse. unfold model_of. apply list_elem_of_fmap. exists i.
  rewrite Ht, Hfalse. split; [done|]. apply elem_of_seqZ. lia.
Qed.

Lemma truth_cell G S row col number :
  solves G S → row < 9 → col < 9 → (1 ≤ number ≤ 9)%Z →
  truth G S (row, col, number) = true → cell S row col = number.
Proof.
  intros (_ & _ & Hgiven & _) Hr Hc Hn. unfold truth. simpl.
  intros [Heq|Heq]%orb_true_iff; apply Z.eqb_eq in Heq; [done|].
  rewrite Hgiven by (done || lia). done.
Qed.

Section Completeness.

Variable G S : Grid.
Variable e : state.
Variable n : Z.
Hypothesis Hsolves : solves G S.
Hypothesis Hwf : reg_wf e.
Hypothesis Hreg : ∀ t, is_Some (atom_id e !! t) ↔ t ∈ triples_of (sym_cnf G).
Hypothesis Hvars : ∀ c l, c ∈ sym_cnf G → l ∈ c → (id_of e l.1 ≤ n)%Z.

Lemma literal_of c l :
  c ∈ sym_cnf G → l ∈ c →
  lit_of e l ∈ model_of (id_atom e) G S n ↔ truth G S l.1 = negb l.2.
Proof.
  intros Hc Hl. specialize (Hvars c l Hc Hl).
  destruct (proj2 (Hreg l.1)) as [i Hi].
  { unfold triples_of. apply list_elem_of_bind. exists c. split; [|done].
    by apply list_elem_of_fmap_2. }
  destruct Hwf as (Hfwd & Hbwd & _). pose proof (Hfwd _ _ Hi) as Hidm.
  destruct (Hbwd _ _ Hidm) as [_ Hrange].
  unfold lit_of, id_of in *. rewrite Hi in *. simpl in *.
  pose proof (model_of_abs (id_atom e) G S n) as Habs.
  destruct (truth G S l.1) eqn:Htruth, l.2; simpl; split; try done.
  - intros Hin. destruct (model_consistent _ _ i Habs); [|done].
    by apply (model_of_true _ _ _ _ _ l.1); [lia|..].
  - intros _. by apply (model_of_true _ _ _ _ _ l.1); [lia|..].
  - intros _. by apply (model_of_false _ _ _ _ _ l.1); [lia|..].
  - intros Hin. destruct (model_consistent _ _ i Habs); [done|].
    by apply (model_of_false _ _ _ _ _ l.1); [lia|..].
Qed.

(** Of two different cells of a unit, one does not hold the digit. *)
Lemma pair_satisfied r1 c1 r2 c2 number :
  r1 < 9 → c1 < 9 → r2 < 9 → c2 < 9 → (1 ≤ number ≤ 9)%Z →
  cell S r1 c1 ≠ cell S r2 c2 →
  truth G S (r1, c1, number) = false ∨ truth G S (r2, c2, number) = false.
Proof.
  intros Hr1 Hc1 Hr2 Hc2 Hn Hne.
  destruct (truth G S (r1, c1, number)) eqn:H1; [|by left].
  destruct (truth G S (r2, c2, number)) eqn:H2; [|by right].
  apply truth_cell in H1; [|done..]. apply truth_cell in H2; [|done..]. congruence.
Qed.

Lemma model_of_satisfies c :
  c ∈ sym_cnf G → ∃ l, l ∈ c ∧ lit_of e l ∈ model_of (id_atom e) G S n.
Proof.
  intros Hc. destruct Hsolves as (HdS & Hdigits & Hgiven & Hrows & Hcols & Hboxes).
  assert (∀ r1 c1 r2 c2 number,
            r1 < 9 → c1 < 9 → r2 < 9 → c2 < 9 → (1 ≤ number ≤ 9)%Z →
            cell S r1 c1 ≠ cell S r2 c2 →
            c = [((r1, c1, number), true); ((r2, c2, number), true)] →
            ∃ l, l ∈ c ∧ lit_of e l ∈ model_of (id_atom e) G S n) as Hpair.
  { intros r1 c1 r2 c2 number Hr1 Hc1 Hr2 Hc2 Hn Hne ->.
    destruct (pair_satisfied r1 c1 r2 c2 number) as [Hf|Hf]; try done.
    - exists ((r1, c1, number), true). split; [by left|].
      by apply (literal_of _ _ Hc); [left|].
    - exists ((r2, c2, number), true). split; [right; by left|].
      by apply (literal_of _ _ Hc); [right; left|]. }
  pose proof Hc as Hfam.
  apply elem_of_sym_cnf in Hfam as [Hfam|[Hfam|[Hfam|[Hfam|Hfam]]]].
  - apply elem_of_sym_initial in Hfam as (row & col & Hr & Hcol & Heq).
    exists ((row, col, cell G row col), false). split; [rewrite Heq; by left|].
    apply (literal_of c); [done|rewrite Heq; by left|].
    unfold truth. simpl. rewrite (Z.eqb_refl (cell G row col)). apply orb_true_r.
  - apply elem_of_sym_cells in Hfam as (row & col & Hr & Hcol & Heq).
    assert (((row, col, cell S row col), false) ∈ c) as Hl.
    { rewrite Heq. apply list_elem_of_fmap. exists (cell S row col). split; [done|].
      apply elem_of_rangeZ. specialize (Hdigits row col Hr Hcol). lia. }
    exists ((row, col, cell S row col), false). split; [done|].
    apply (literal_of c); [done..|].
    unfold truth. simpl. by rewrite (Z.eqb_refl (cell S row col)).
  - apply elem_of_sym_rows in Hfam as (row & colA & colB & number & ? & ? & ? & ? & Heq).
    apply (Hpair row colA row colB number); try (done || lia).
    apply Hrows; try lia. specialize (Hdigits row colA). lia.
  - apply elem_of_sym_columns in Hfam as (col & rowA & rowB & number & ? & ? & ? & ? & Heq).
    apply (Hpair rowA col rowB col number); try (done || lia).
    apply Hcols; try lia. specialize (Hdigits rowA col). lia.
  - apply elem_of_sym_subgrids in Hfam
      as (rowA & colA & rowB & colB & number & ? & ? & ? & ? & ? & ? & Horder & ? & Heq).
    apply (Hpair rowA colA rowB colB number); try (done || lia).
    apply Hboxes; try (done || lia).
    + intros [= -> ->]. lia.
    + specialize (Hdigits rowA colA). lia.
Qed.

End Completeness.

(** ** [solve_as_csp] *)

Lemma first_some_ext {A B} (f f' : A → option B) (l : list A) :
  (∀ x, x ∈ l → f x = f' x) → first_some f l = first_some f' l.
Proof.
  induction l as [|x l IH]; intros Hext; simpl; [done|].
  rewrite <- (Hext x) by (by left). destruct (f x); [done|].
  apply IH. intros y Hy. apply Hext. by right.
Qed.

Lemma first_some_Some {A B} (f : A → option B) (l : list A) y :
  first_some f l = Some y → ∃ x, x ∈ l ∧ f x = Some y.
Proof.
  induction l as [|x l IH]; simpl; [done|]. destruct (f x) as [y'|] eqn:Hx.
  - intros [= <-]. exists x. split; [by left|done].
  - intros (x' & Hin & Hx')%IH. exists x'. split; [by right|done].
Qed.

(** When the rows of the given grid are distinct objects the search over
    its copies is the search on grid values. *)
Lemma search_shared_distinct rr fuel : ∀ G g row col,
  NoDup rr → length rr = 9 → dims_ok g → cursor_ok row col →
  search_shared rr fuel G g row col = search fuel G g row col.
Proof.
  induction fuel as [|fuel IH]; intros G g row col Hnd Hlen Hd Hcur; [done|].
  cbn [search_shared search]. destruct (checkb g); cbn [negb]; [|done].
  destruct (row =? 9) eqn:Hrow; [done|]. apply Nat.eqb_neq in Hrow.
  destruct Hcur as [[Hr Hc]|[? _]]; [|done].
  destruct (cursor_next row col Hr Hc) as [(-> & Hnext & _)|(-> & Hnext & _)].
  - destruct (negb _); [by apply IH|]. apply first_some_ext. intros number _.
    rewrite (place_shared_distinct rr g row col number) by done.
    apply IH; [done..|by apply place_dims|done].
  - destruct (negb _); [by apply IH|]. apply first_some_ext. intros number _.
    rewrite (place_shared_distinct rr g row col number) by done.
    apply IH; [done..|by apply place_dims|done].
Qed.

(** Rows that are one object hold the same entries. *)
Lemma deref_shared_rows rws rr g i j c :
  deref rws rr = Some g → i < length rr → rr !! i = rr !! j → cell g i c = cell g j c.
Proof.
  rewrite deref_Some. intros HF Hi Heq.
  destruct (lookup_lt_is_Some_2 rr i Hi) as [x Hx]. rewrite Hx in Heq. symmetry in Heq.
  destruct (Forall2_lookup_l _ _ _ _ _ HF Hx) as (li & Hli & Hxi).
  destruct (Forall2_lookup_l _ _ _ _ _ HF Heq) as (lj & Hlj & Hxj).
  unfold cell. rewrite Hli, Hlj. simpl. congruence.
Qed.

(** What the search returns, whatever rows the given grid shares: the
    non-zero entries of the given grid, digits in its blank cells, and no
    entry twice in a row, column or box. *)
Lemma search_shared_keeps rr fuel : ∀ G g row col sol,
  (∀ i j c, i < 9 → rr !! i = rr !! j → cell G i c = cell G j c) →
  dims_ok g → cursor_ok row col →
  (∀ r c, r < 9 → c < 9 → cell G r c ≠ 0%Z → cell g r c = cell G r c) →
  (∀ r c, r < 9 → c < 9 → cell G r c = 0%Z → idx r c < idx row col →
          (1 ≤ cell g r c ≤ 9)%Z) →
  search_shared rr fuel G g row col = Some sol →
  dims_ok sol ∧ consistent sol ∧
  (∀ r c, r < 9 → c < 9 → cell G r c ≠ 0%Z → cell sol r c = cell G r c) ∧
  (∀ r c, r < 9 → c < 9 → cell G r c = 0%Z → (1 ≤ cell sol r c ≤ 9)%Z).
Proof.
  induction fuel as [|fuel IH]; intros G g row col sol HG Hd Hcur Hgiven Hblank; [done|].
  cbn [search_shared]. destruct (checkb g) eqn:Hcheck; cbn [negb]; [|done].
  destruct (row =? 9) eqn:Hrow.
  { apply Nat.eqb_eq in Hrow as ->. intros [= <-]. split_and!; [done| |done|].
    - by apply checkb_consistent.
    - intros r c Hr Hc Hz. apply Hblank; [done..|]. unfold idx. lia. }
  apply Nat.eqb_neq in Hrow. destruct Hcur as [[Hr Hc]|[? _]]; [|done].
  assert (∀ next : nat * nat, cursor_ok next.1 next.2 →
            idx next.1 next.2 = idx row col + 1 →
            (if negb (cell G row col =? 0)%Z
             then search_shared rr fuel G g next.1 next.2
             else first_some (λ number,
                    search_shared rr fuel G (place_shared rr g row col number)
                      next.1 next.2) (rangeZ 1 10)) = Some sol →
            dims_ok sol ∧ consistent sol ∧
            (∀ r c, r < 9 → c < 9 → cell G r c ≠ 0%Z → cell sol r c = cell G r c) ∧
            (∀ r c, r < 9 → c < 9 → cell G r c = 0%Z → (1 ≤ cell sol r c ≤ 9)%Z)) as Hstep.
  { intros next Hnext Hidx. destruct (cell G row col =? 0)%Z eqn:Hz; cbn [negb].
    - apply Z.eqb_eq in Hz.
      intros (number & Hn%elem_of_rangeZ & Hrec)%first_some_Some.
      apply (IH _ _ _ _ _ HG) in Hrec; [done|by apply place_shared_dims|done| |].
      + intros r c Hr' Hc' Hnz. rewrite cell_place_shared by done.
        rewrite decide_False; [by apply Hgiven|]. intros [Heq ->].
        apply Hnz. by rewrite (HG r row col Hr' Heq).
      + intros r c Hr' Hc' Hzero Hlt. rewrite cell_place_shared by done.
        destruct (decide _) as [_|Hne]; [lia|]. apply Hblank; [done..|].
        assert (idx r c ≠ idx row col); [|lia]. intros Heq. apply Hne.
        assert (r = row ∧ c = col) as [-> ->] by (unfold idx in Heq; lia). done.
    - apply Z.eqb_neq in Hz. intros Hrec.
      apply (IH _ _ _ _ _ HG) in Hrec; [done..|].
      intros r c Hr' Hc' Hzero Hlt. apply Hblank; [done..|].
      assert (idx r c ≠ idx row col); [|lia]. intros Heq.
      assert (r = row ∧ c = col) as [-> ->] by (unfold idx in Heq; lia). done. }
  destruct (cursor_next row col Hr Hc) as [(-> & Hnext & Hidx)|(-> & Hnext & Hidx)].
  - apply (Hstep (row + 1, 0) Hnext Hidx).
  - apply (Hstep (row, col + 1) Hnext Hidx).
Qed.

Lemma solve_as_csp_run s G rr :
  heap s !! self_grid s = Some G → grid_objs (heap s) !! self_grid s = Some rr →
  dims_ok G →
  ∃ s', solve_as_csp s = Ok (solution s', s') ∧ same_instance s s' ∧
        match search_shared rr search_depth G G 0 0 with
        | Some sol => ∃ r, solution s' = Some r ∧ heap s' !! r = Some sol
        | None => solution s' = None
        end.
Proof.
  intros HG Hrr Hd. unfold solve_as_csp.
  assert (82 ≤ search_depth + idx 0 0) as Hfuel by (unfold search_depth, idx; lia).
  revert Hfuel. generalize search_depth. intros fuel Hfuel.
  set (s0 := set_solution_found false (set_solution None s)).
  destruct (csp_search_refines fuel s0 (self_grid s0) 0 0 G rr G rr)
    as (s' & Hrun & Hs' & Hout);
    [exact HG|exact Hd|exact Hrr|reflexivity|exact HG|exact Hd|left; lia|exact Hfuel|].
  exists s'. split.
  - rewrite (bind_step _ _ s tt (set_solution None s)) by done.
    rewrite (bind_step _ _ _ tt s0) by done.
    rewrite (bind_step _ _ s0 (self_grid s0) s0) by done.
    by rewrite (bind_step _ _ _ _ _ Hrun).
  - split; [exact Hs'|]. unfold search_outcome in Hout.
    change (solution_found s0) with false in Hout.
    change (solution s0) with (@None nat) in Hout. cbv beta iota in Hout.
    destruct (search_shared rr fuel G G 0 0); [apply Hout|apply Hout].
Qed.

Lemma solves_extends G S : solves G S → extends G G 0 0 S.
Proof.
  intros (HdS & Hdigits & Hgiven & Hcons). split_and!; [done| |  |done].
  - intros r c _ _ Hlt. unfold idx in Hlt. lia.
  - intros r c Hr Hc _. destruct (decide (cell G r c = 0%Z)); [by apply Hdigits|by apply Hgiven].
Qed.

Lemma extends_solves G S S0 : solves G S0 → extends G G 0 0 S → solves G S.
Proof.
  intros (_ & Hdigits0 & Hgiven0 & _) (HdS & _ & Hafter & Hcons).
  assert (∀ r c, r < 9 → c < 9 → cell G r c ≠ 0%Z → cell S r c = cell G r c) as Hgiven.
  { intros r c Hr Hc Hnz. specialize (Hafter r c Hr Hc ltac:(unfold idx; lia)).
    by rewrite decide_False in Hafter. }
  split_and!; [done| |done..].
  intros r c Hr Hc. destruct (decide (cell G r c = 0%Z)) as [Hz|Hnz].
  - specialize (Hafter r c Hr Hc ltac:(unfold idx; lia)). by rewrite decide_True in Hafter.
  - rewrite Hgiven, <- Hgiven0 by done. by apply Hdigits0.
Qed.

(** The search finds the first solved grid in lexicographic order. *)
Lemma search_lexmin G S0 :
  dims_ok G → solves G S0 →
  ∃ sol, search search_depth G G 0 0 = Some sol ∧ solves G sol ∧
         ∀ S', solves G S' → grid_lex_le sol S'.
Proof.
  intros Hd HS0.
  pose proof (search_spec search_depth G G 0 0 Hd Hd ltac:(left; lia)
                ltac:(unfold search_depth, idx; lia) ltac:(by intros ???)) as Hspec.
  destruct (search search_depth G G 0 0) as [sol|].
  - destruct Hspec as [Hext Hmin]. exists sol. split; [done|].
    split; [by apply (extends_solves G sol S0)|].
    intros S' HS'. by apply Hmin, solves_extends.
  - destruct (Hspec S0). by apply solves_extends.
Qed.

Lemma grid_lex_le_antisym S1 S2 : grid_lex_le S1 S2 → grid_lex_le S2 S1 → S1 = S2.
Proof.
  intros [->|(r & c & Hr & Hc & Hlt & Hbefore)] [Heq|(r' & c' & Hr' & Hc' & Hlt' & Hbefore')];
    try done.
  destruct (Nat.lt_trichotomy (idx r c) (idx r' c')) as [Hi|[Hi|Hi]].
  - specialize (Hbefore' r c Hr Hc Hi). lia.
  - assert (r = r' ∧ c = c') as [-> ->] by (unfold idx in Hi; lia). lia.
  - specialize (Hbefore r' c' Hr' Hc' Hi). lia.
Qed.

(** ** [solve_as_sat] *)

Lemma setitem_inv s r row col v s' :
  setitem r row col v s = Ok (tt, s') →
  ∃ rr x line, grid_objs (heap s) !! r = Some rr ∧ rr !! row = Some x ∧
    s' = set_heap (mkStore (<[x := line]> (row_objs (heap s))) (grid_objs (heap s))) s.
Proof.
  unfold setitem.
  destruct (grid_objs (heap s) !! r) as [rr|] eqn:Hrr; [|done].
  destruct (rr !! row) as [x|] eqn:Hx; [|done].
  destruct (row_objs (heap s) !! x) as [line|]; [|done].
  destruct (decide (col < length line)); [|done].
  intros [= <-]. by eexists rr, x, _.
Qed.

(** The decoding loop only writes to the rows of the object
    [__solution]. *)
Lemma decode_inv model : ∀ s s' r ys n,
  solution s = Some r → grid_objs (heap s) !! r = Some ys → Forall (λ y, n ≤ y) ys →
  decode model s = Ok (tt, s') →
  ∃ rws, s' = set_heap (mkStore rws (grid_objs (heap s))) s ∧
         take n rws = take n (row_objs (heap s)).
Proof.
  unfold decode. induction model as [|v model IH]; intros s s' r ys n Hsol Hys Hnew; simpl.
  { intros [= <-]. exists (row_objs (heap s)). split; [|done]. by destruct s as [[] ?]. }
  intros ([] & s1 & Hstep & Hrest)%bind_Ok.
  assert (∃ rws1, s1 = set_heap (mkStore rws1 (grid_objs (heap s))) s ∧
                  take n rws1 = take n (row_objs (heap s))) as (rws1 & -> & Htake).
  { destruct (0 <? v)%Z.
    - apply bind_Ok in Hstep as (entry & s2 & [= <- <-] & Hstep).
      destruct (id_atom s !! v) as [[[row col] number]|]; [|done].
      apply bind_Ok in Hstep as (sol & s2 & [= <- <-] & Hstep).
      rewrite Hsol in Hstep.
      apply setitem_inv in Hstep as (rr & x & line & Hrr & Hx & ->).
      assert (rr = ys) as -> by congruence.
      eexists. split; [reflexivity|]. apply take_insert_ge.
      rewrite Forall_forall in Hnew. apply Hnew. by eapply list_elem_of_lookup_2.
    - injection Hstep as <-. exists (row_objs (heap s)). split; [|done].
      by destruct s as [[] ?]. }
  apply (IH _ _ r ys n) in Hrest as (rws & -> & Htake'); [|done..].
  exists rws. split; [reflexivity|]. simpl in Htake'. congruence.
Qed.

Lemma prefix_of_take {A} (l k : list A) :
  take (length l) k = l → l `prefix_of` k.
Proof. intros <-. apply prefix_take. Qed.

Section SolveSat.

Variable sat_solve : list clause → option (list Z).

(** The state in which the oracle is called, the formula it gets, and the
    copy of the given grid that the decoder works on. *)
Lemma solve_as_sat_run s G rr :
  heap s !! self_grid s = Some G → grid_objs (heap s) !! self_grid s = Some rr →
  dims_ok G → tables_inv G s →
  ∃ s1 ys rws,
    same_tables s1 (encoded G) ∧ heap s1 = heap s ∧ self_grid s1 = self_grid s ∧
    solution s1 = None ∧ solution_found s1 = false ∧
    row_objs (heap s) `prefix_of` rws ∧ deref rws ys = Some G ∧ same_sharing rr ys ∧
    Forall (λ y, length (row_objs (heap s)) ≤ y) ys ∧
    solve_as_sat sat_solve s =
    match sat_solve (interp (encoded G) (sym_cnf G)) with
    | None => Ok (None, s1)
    | Some model =>
        (decode model;; get solution)
          (set_solution (Some (length (grid_objs (heap s))))
             (set_heap (mkStore rws (grid_objs (heap s) ++ [ys]))
                (set_solution_found true s1)))
    end.
Proof.
  intros HG Hrr Hd Htab. unfold solve_as_sat.
  set (s0 := set_solution_found false (set_solution None s)).
  pose proof HG as HG'. apply store_lookup_Some in HG' as (rr' & Hrr' & Hval).
  assert (rr' = rr) as -> by congruence.
  assert (tables_inv G s0) as Htab0 by exact Htab.
  pose proof (encode_tables G s0 Htab0) as Henc.
  pose proof (encode_eq s0 G HG Hd) as Hencode.
  pose proof (register_all_frame (triples_of (sym_cnf G)) s0) as Hframe.
  revert Henc Hencode Hframe. generalize (register_all (triples_of (sym_cnf G)) s0).
  intros s1 Henc Hencode (Hheap & Hgrid & Hsol & Hfound).
  rewrite (same_tables_interp _ _ _ Henc) in Hencode.
  change (heap s0) with (heap s) in Hheap. change (self_grid s0) with (self_grid s) in Hgrid.
  destruct (deepcopy_spec (set_solution_found true s1) (self_grid s) G rr)
    as (ys & rws & Hcopy & Hp & Hcval & Hshare & Hnew).
  { cbn [heap set_solution_found]. rewrite Hheap. exact Hrr. }
  { cbn [heap set_solution_found]. rewrite Hheap. exact Hval. }
  cbn [heap set_solution_found] in Hcopy, Hp, Hnew. rewrite Hheap in Hcopy, Hp, Hnew.
  exists s1, ys, rws.
  split_and!; [exact Henc|exact Hheap|exact Hgrid|exact Hsol|exact Hfound|exact Hp
              |exact Hcval|exact Hshare|exact Hnew|].
  rewrite (bind_step _ _ s tt (set_solution None s)) by reflexivity.
  rewrite (bind_step _ _ _ tt s0) by reflexivity.
  rewrite (bind_step _ _ _ _ _ Hencode).
  destruct (sat_solve _) as [model|]; [|reflexivity].
  rewrite (bind_step _ _ s1 tt (set_solution_found true s1)) by reflexivity.
  rewrite (bind_step _ _ _ (self_grid s) (set_solution_found true s1))
    by (unfold get; cbn [self_grid set_solution_found]; rewrite Hgrid; reflexivity).
  rewrite (bind_step _ _ _ _ _ Hcopy).
  rewrite (bind_step _ _ _ tt
             (set_solution (Some (length (grid_objs (heap s))))
                (set_heap (mkStore rws (grid_objs (heap s) ++ [ys]))
                   (set_solution_found true s1)))) by reflexivity.
  reflexivity.
Qed.

(** Whatever the oracle answers, a call that returns leaves the objects of
    the store as they were and the tables as after the first encoding. *)
Lemma solve_as_sat_frame s G res s' :
  instance_inv G s → solve_as_sat sat_solve s = Ok (res, s') →
  self_grid s' = self_grid s ∧ store_prefix (heap s) (heap s') ∧
  same_tables s' (encoded G).
Proof.
  intros (HG & Hd & Htab) Hrun.
  pose proof HG as HG'. apply store_lookup_Some in HG' as (rr & Hrr & _).
  destruct (solve_as_sat_run s G rr HG Hrr Hd Htab)
    as (s1 & ys & rws & Henc & Hheap & Hgrid & Hsol & Hfound & Hp & _ & _ & Hnew & Heq).
  rewrite Heq in Hrun. clear Heq. destruct (sat_solve _) as [model|].
  - apply bind_Ok in Hrun as ([] & s2 & Hdec & Hget). injection Hget as _ <-.
    apply (decode_inv _ _ _ (length (grid_objs (heap s))) ys
             (length (row_objs (heap s)))) in Hdec as (rws' & -> & Htake);
      [|reflexivity|simpl; by rewrite lookup_app_r, Nat.sub_diag by lia|exact Hnew].
    simpl. split; [exact Hgrid|]. split; [|exact Henc]. split; simpl.
    + apply prefix_of_take. simpl in Htake. rewrite Htake.
      destruct Hp as [k ->]. by rewrite take_app_length.
    + by apply prefix_app_r.
  - injection Hrun as _ <-. split; [exact Hgrid|]. split; [by rewrite Hheap|exact Henc].
Qed.

Lemma reachable_inv G s : reachable sat_solve G s → instance_inv G s.
Proof.
  induction 1 as [h r s Hr Hinit|s res s' _ IH Hrun|s res s' _ IH Hrun].
  - apply init_inv in Hinit as (-> & g & Hg & Hd).
    assert (g = G) as -> by congruence. split_and!; [done..|]. by left.
  - destruct (solve_as_sat_frame s G res s' IH Hrun) as (Hgrid & Hpre & Henc).
    destruct IH as (HG & Hd & _). split_and!; [|done|by right].
    rewrite Hgrid. by eapply store_prefix_lookup.
  - destruct IH as (HG & Hd & Htab).
    pose proof HG as HG'. apply store_lookup_Some in HG' as (rr & Hrr & _).
    destruct (solve_as_csp_run s G rr HG Hrr Hd) as (s'' & Hrun' & Hsame & _).
    rewrite Hrun' in Hrun. injection Hrun as _ <-.
    split_and!; [by eapply same_instance_grid|done|].
    destruct Hsame as (_ & Ha & Hi & _). unfold tables_inv, same_tables in *.
    by rewrite Ha, Hi.
Qed.

End SolveSat.

(** ** Models of the formula of a grid *)

(** A model of the formula of [G] decodes to a full and consistent grid
    that keeps the given digits. *)
Lemma sat_decoded G m :
  dims_ok G → is_model (interp (encoded G) (sym_cnf G)) m = true →
  dims_ok (decode_grid (id_atom (encoded G)) m G) ∧
  (∀ row col, row < 9 → col < 9 →
     (1 ≤ cell (decode_grid (id_atom (encoded G)) m G) row col ≤ 9)%Z) ∧
  consistent (decode_grid (id_atom (encoded G)) m G) ∧
  (∀ row col, row < 9 → col < 9 → (1 ≤ cell G row col ≤ 9)%Z →
     cell (decode_grid (id_atom (encoded G)) m G) row col = cell G row col) ∧
  (∀ v, v ∈ m → (0 < v)%Z →
     ∃ row col number,
       id_atom (encoded G) !! v = Some (row, col, number) ∧ row < 9 ∧ col < 9).
Proof.
  intros Hd Hmodel. apply model_interp in Hmodel as [Habs Hsat].
  pose proof (encoded_wf G) as Hwf.
  pose proof (encoded_registered G) as Hreg.
  assert (∀ row col number, row < 9 → col < 9 → number ≠ cell G row col →
            is_Some (atom_id (encoded G) !! (row, col, number)) →
            (id_of (encoded G) (row, col, cell G row col) <
             id_of (encoded G) (row, col, number))%Z) as Horder.
  { intros row col number Hr Hc Hne [i Hi].
    destruct (encoded_order G row col number Hr Hc Hne) as [Hlt|Hnone]; [exact Hlt|].
    rewrite Hi in Hnone. discriminate Hnone. }
  assert (nvars (interp (encoded G) (sym_cnf G)) ≤ Z.of_nat (size (atom_id (encoded G))))%Z
    as Hvars.
  { apply nvars_interp; [exact Hwf|]. intros t Ht. by apply Hreg. }
  revert Habs Hsat Hwf Hreg Horder Hvars.
  generalize (nvars (interp (encoded G) (sym_cnf G))). generalize (encoded G).
  intros e n Habs Hsat Hwf Hreg Horder Hvars. split_and!.
  - by apply decode_grid_dims.
  - intros row col Hr Hc. by eapply (decoded_digit G e m n).
  - by eapply (decoded_consistent G e m n).
  - intros row col Hr Hc Hgiven. by eapply (decoded_given G e m n).
  - intros v Hv Hpos. by eapply (decode_registered G e m n).
Qed.

(** *** Decoding into a grid object that shares rows *)

Lemma decode_shared_dims rr idm m g : dims_ok g → dims_ok (decode_shared rr idm m g).
Proof.
  unfold decode_shared. revert g. induction m as [|v m IH]; intros g Hd; simpl; [done|].
  apply IH. unfold decode_step_shared. destruct (0 <? v)%Z; [|done].
  destruct (idm !! v) as [[[row col] number]|]; [|done]. by apply place_shared_dims.
Qed.

Lemma decode_shared_sharing rr ys idm m g :
  same_sharing rr ys → decode_shared ys idm m g = decode_shared rr idm m g.
Proof.
  intros Hshare. unfold decode_shared. revert g. induction m as [|v m IH]; intros g; [done|].
  simpl. rewrite IH. f_equal. unfold decode_step_shared. destruct (0 <? v)%Z; [|done].
  destruct (idm !! v) as [[[row col] number]|]; [|done]. by apply place_shared_sharing.
Qed.

(** Where no two rows are one object, decoding is decoding on grid
    values. *)
Lemma decode_shared_distinct rr idm m g :
  NoDup rr → length rr = 9 → dims_ok g →
  (∀ v, v ∈ m → (0 < v)%Z →
        ∃ row col number, idm !! v = Some (row, col, number) ∧ row < 9 ∧ col < 9) →
  decode_shared rr idm m g = decode_grid idm m g.
Proof.
  intros Hnd Hlen. unfold decode_shared, decode_grid. revert g.
  induction m as [|v m IH]; intros g Hd Hreg; [done|]. simpl.
  assert (decode_step_shared rr idm g v = decode_step idm g v) as ->.
  { unfold decode_step_shared, decode_step. destruct (0 <? v)%Z eqn:Hpos; [|done].
    destruct (Hreg v ltac:(left) ltac:(by apply Z.ltb_lt))
      as (row & col & number & -> & Hr & _).
    by apply place_shared_distinct. }
  apply IH; [by apply decode_step_dims|]. intros v' Hv'. apply Hreg. by right.
Qed.

(** The decoded entry of a cell is the number of the last true atom, the
    one with the largest identifier, among the atoms of this column in the
    rows that are the same object as the row of the cell; where there is
    none the cell keeps the entry of the copied grid. *)
Lemma decode_cell_shared rr idm m n g r c :
  dims_ok g → r < 9 → c < 9 → Z.abs <$> m = seqZ 1 n →
  (∀ v, v ∈ m → (0 < v)%Z →
        ∃ row col number, idm !! v = Some (row, col, number) ∧ row < 9 ∧ col < 9) →
  (cell (decode_shared rr idm m g) r c = cell g r c ∧
   ∀ v row number, v ∈ m → (0 < v)%Z → idm !! v = Some (row, c, number) →
     rr !! r ≠ rr !! row) ∨
  (∃ v row, v ∈ m ∧ (0 < v)%Z ∧ rr !! r = rr !! row ∧
        idm !! v = Some (row, c, cell (decode_shared rr idm m g) r c) ∧
        ∀ v' row' number, v' ∈ m → (0 < v')%Z → idm !! v' = Some (row', c, number) →
          rr !! r = rr !! row' → (v' ≤ v)%Z).
Proof.
  intros Hd Hr Hc Habs.
  assert (∀ i j v w, m !! i = Some v → m !! j = Some w → i < j → (Z.abs v < Z.abs w)%Z)
    as Hsorted by (intros i j v w; by apply (model_sorted m n)).
  clear Habs. revert Hsorted. induction m as [|x m IH] using rev_ind; intros Hsorted Hreg.
  { left. split; [done|]. intros v row number Hv. by apply elem_of_nil in Hv. }
  assert (∀ v, v ∈ m → (0 < v)%Z → (0 < x)%Z → (v < x)%Z) as Hlast.
  { intros v [i Hi]%list_elem_of_lookup Hv Hx.
    pose proof (Hsorted i (length m) v x) as Hlt.
    rewrite lookup_app_l, lookup_app_r, Nat.sub_diag in Hlt
      by (lia || by eapply lookup_lt_Some).
    specialize (Hlt Hi eq_refl ltac:(by eapply lookup_lt_Some)). lia. }
  destruct IH as [[Hcell Hnone]|(v & row0 & Hv & Hpos & Hsame & Hidm & Hmax)].
  { intros i j v w Hi Hj. apply Hsorted; by apply lookup_app_l_Some. }
  { intros v Hv. apply Hreg, elem_of_app. by left. }
  all: unfold decode_shared in *; rewrite foldl_app; simpl;
    set (D := foldl (decode_step_shared rr idm) g m) in *;
    assert (dims_ok D) as HdD by (by apply decode_shared_dims);
    unfold decode_step_shared; destruct (0 <? x)%Z eqn:Hx;
    [apply Z.ltb_lt in Hx;
     destruct (Hreg x ltac:(apply elem_of_app; right; by left) Hx)
       as (row & col & number & Hidx & Hrow & Hcol);
     rewrite Hidx, cell_place_shared by done;
     destruct (decide (rr !! r = rr !! row ∧ c = col)) as [[Halias ->]|Hne]
    |apply Z.ltb_ge in Hx].
  - right. exists x, row. split_and!; [apply elem_of_app; right; by left|done..|].
    intros v' row' n' [Hv' | ->%list_elem_of_singleton]%elem_of_app Hpos' _ _; [|lia].
    specialize (Hlast v' Hv' Hpos' Hx). lia.
  - left. split; [done|].
    intros v' row' n' [Hv' | ->%list_elem_of_singleton]%elem_of_app Hpos';
      [by apply Hnone|].
    rewrite Hidx. intros [= -> -> ->] Heq. tauto.
  - left. split; [done|].
    intros v' row' n' [Hv' | ->%list_elem_of_singleton]%elem_of_app Hpos';
      [by apply Hnone|lia].
  - right. exists x, row. split_and!; [apply elem_of_app; right; by left|done..|].
    intros v' row' n' [Hv' | ->%list_elem_of_singleton]%elem_of_app Hpos' _ _; [|lia].
    specialize (Hlast v' Hv' Hpos' Hx). lia.
  - right. exists v, row0. split_and!; [apply elem_of_app; by left|done..|].
    intros v' row' n' [Hv' | ->%list_elem_of_singleton]%elem_of_app Hpos' Hidm' Heq;
      [by eapply Hmax|].
    rewrite Hidx in Hidm'. injection Hidm' as -> -> ->. tauto.
  - right. exists v, row0. split_and!; [apply elem_of_app; by left|done..|].
    intros v' row' n' [Hv' | ->%list_elem_of_singleton]%elem_of_app Hpos' Hidm' Heq;
      [by eapply Hmax|lia].
Qed.

(** A model of the formula of [G] decodes to a grid of digits, whatever
    rows the decoded object shares. *)
Lemma sat_decoded_shared G rr m :
  dims_ok G → is_model (interp (encoded G) (sym_cnf G)) m = true →
  dims_ok (decode_shared rr (id_atom (encoded G)) m G) ∧
  ∀ row col, row < 9 → col < 9 →
    (1 ≤ cell (decode_shared rr (id_atom (encoded G)) m G) row col ≤ 9)%Z.
Proof.
  intros Hd Hmodel. split; [by apply decode_shared_dims|].
  apply model_interp in Hmodel as [Habs Hsat].
  pose proof (encoded_wf G) as Hwf.
  pose proof (encoded_registered G) as Hreg.
  assert (∀ row col number, row < 9 → col < 9 → number ≠ cell G row col →
            is_Some (atom_id (encoded G) !! (row, col, number)) →
            (id_of (encoded G) (row, col, cell G row col) <
             id_of (encoded G) (row, col, number))%Z) as Horder.
  { intros row col number Hr Hc Hne [i Hi].
    destruct (encoded_order G row col number Hr Hc Hne) as [Hlt|Hnone]; [exact Hlt|].
    rewrite Hi in Hnone. discriminate Hnone. }
  assert (nvars (interp (encoded G) (sym_cnf G)) ≤ Z.of_nat (size (atom_id (encoded G))))%Z
    as Hvars.
  { apply nvars_interp; [exact Hwf|]. intros t Ht. by apply Hreg. }
  revert Habs Hsat Hwf Hreg Horder Hvars.
  generalize (nvars (interp (encoded G) (sym_cnf G))). generalize (encoded G).
  intros e n Habs Hsat Hwf Hreg Horder Hvars row col Hr Hc.
  destruct (decode_cell_shared rr (id_atom e) m n G row col Hd Hr Hc Habs)
    as [[_ Hnone]|(v & row0 & Hv & Hpos & Hsame & Hidm & Hmax)].
  { intros v Hv Hpos. by eapply (decode_registered G e m n). }
  { destruct (table_id G e Hwf Hreg row col (cell G row col) Hr Hc ltac:(by left))
      as (_ & Hid & Hpos).
    destruct (Hnone _ row (cell G row col)
                (true_given G e m Hsat row col Hr Hc) Hpos Hid). done. }
  revert Hidm Hmax. generalize (cell (decode_shared rr (id_atom e) m G) row col).
  intros d0 Hidm Hmax.
  destruct (model_atom G e m n Hwf Hreg Habs Hvars v Hv Hpos)
    as (row' & col' & d' & Hidm' & Hr0 & _ & Hidv & Hd').
  rewrite Hidm in Hidm'. injection Hidm' as <- <- <-.
  destruct (decide (1 ≤ d0 ≤ 9)%Z) as [Hdigit|Hother]; [done|].
  destruct Hd' as [Hgiven|?]; [|done].
  destruct (true_digit G e m Hsat row0 col Hr0 Hc) as (d & Hdg & Htrue).
  destruct (table_id G e Hwf Hreg row0 col d Hr0 Hc ltac:(by right)) as (Hknown & Hid & Hdpos).
  specialize (Hmax _ row0 d Htrue Hdpos Hid Hsame).
  assert (d ≠ cell G row0 col) as Hne by (rewrite <- Hgiven; lia).
  pose proof (Horder row0 col d Hr0 Hc Hne ltac:(by eexists)) as Hlt.
  rewrite <- Hgiven, Hidv in Hlt. lia.
Qed.

Lemma lit_le_nvars e cs c l :
  c ∈ cs → l ∈ c → (id_of e l.1 ≤ nvars (interp e cs))%Z.
Proof.
  intros Hc Hl.
  assert (Z.abs (lit_of e l) ≤ nvars (interp e cs))%Z as Hge.
  { apply (nvars_ge _ (lit_of e <$> c)).
    - unfold interp. apply list_elem_of_fmap. by exists c.
    - by apply list_elem_of_fmap_2. }
  revert Hge. unfold lit_of. destruct l.2; lia.
Qed.

(** A solved grid for [G] gives a model of the formula of [G]. *)
Lemma sat_satisfiable G S :
  solves G S → ∃ m, is_model (interp (encoded G) (sym_cnf G)) m = true.
Proof.
  intros HS. pose proof (encoded_wf G) as Hwf.
  pose proof (encoded_registered G) as Hreg.
  pose proof (λ c l, lit_le_nvars (encoded G) (sym_cnf G) c l) as Hvars.
  revert Hwf Hreg Hvars.
  generalize (encoded G). intros e Hwf Hreg Hvars.
  exists (model_of (id_atom e) G S (nvars (interp e (sym_cnf G)))).
  apply is_model_iff. split.
  - apply model_of_abs.
  - intros c (sc & -> & Hsc)%list_elem_of_fmap.
    destruct (model_of_satisfies G S e _ HS Hwf Hreg Hvars sc Hsc) as (l & Hl & Hm).
    exists (lit_of e l). split; [by apply list_elem_of_fmap_2|exact Hm].
Qed.

Section SolveSatResult.

Variable sat_solve : list clause → option (list Z).

(** The call of [solve_as_sat] when the oracle answers with a model: the
    result is a new grid object that shares rows where the given grid
    does, with the decoded entries. *)
Lemma solve_as_sat_model s G rr m :
  instance_inv G s → grid_objs (heap s) !! self_grid s = Some rr →
  sat_solve (interp (encoded G) (sym_cnf G)) = Some m →
  is_model (interp (encoded G) (sym_cnf G)) m = true →
  ∃ s' ys, solve_as_sat sat_solve s = Ok (Some (length (grid_objs (heap s))), s') ∧
        store_prefix (heap s) (heap s') ∧
        grid_objs (heap s') = grid_objs (heap s) ++ [ys] ∧ same_sharing rr ys ∧
        heap s' !! length (grid_objs (heap s)) =
          Some (decode_shared rr (id_atom (encoded G)) m G) ∧
        self_grid s' = self_grid s ∧ same_tables s' (encoded G).
Proof.
  intros Hinv Hrr Hanswer Hmodel. pose proof Hinv as (HG & Hd & Htab).
  destruct (solve_as_sat_run sat_solve s G rr HG Hrr Hd Htab)
    as (s1 & ys & rws & Henc & Hheap & Hgrid & Hsol & Hfound & Hp & Hval & Hshare & Hnew & Heq).
  rewrite Hanswer in Heq.
  destruct (sat_decoded G m Hd Hmodel) as (_ & _ & _ & _ & Hreg).
  set (sD := set_solution (Some (length (grid_objs (heap s))))
               (set_heap (mkStore rws (grid_objs (heap s) ++ [ys]))
                  (set_solution_found true s1))) in *.
  destruct Henc as [Ha Hi].
  destruct (decode_eq m sD (length (grid_objs (heap s))) ys G) as (rws' & Hdec & Hdval).
  { reflexivity. }
  { cbn [sD heap set_solution set_heap grid_objs]. by rewrite lookup_app_r, Nat.sub_diag by lia. }
  { exact Hval. }
  { exact Hd. }
  { change (id_atom sD) with (id_atom s1). rewrite Hi. exact Hreg. }
  change (id_atom sD) with (id_atom s1) in Hdval. rewrite Hi in Hdval.
  rewrite (decode_shared_sharing rr ys _ m G Hshare) in Hdval.
  rewrite (bind_step _ _ _ _ _ Hdec) in Heq.
  set (s' := set_heap (mkStore rws' (grid_objs (heap sD))) sD) in *.
  change ((get solution) s') with (Ok (Some (length (grid_objs (heap s))), s')) in Heq.
  destruct (solve_as_sat_frame sat_solve s G _ s' Hinv Heq) as (_ & Hpre & _).
  exists s', ys. split; [exact Heq|]. split; [exact Hpre|].
  split; [reflexivity|]. split; [exact Hshare|]. split.
  - apply store_lookup_Some. exists ys. split; [|exact Hdval].
    cbn [s' sD heap set_solution set_heap grid_objs]. by rewrite lookup_app_r, Nat.sub_diag by lia.
  - split; [exact Hgrid|]. split; [exact Ha|exact Hi].
Qed.

(** The call of [solve_as_sat] when the oracle answers unsatisfiable. *)
Lemma solve_as_sat_unsat s G :
  instance_inv G s →
  sat_solve (interp (encoded G) (sym_cnf G)) = None →
  ∃ s', solve_as_sat sat_solve s = Ok (None, s') ∧ heap s' = heap s ∧
        self_grid s' = self_grid s ∧ same_tables s' (encoded G).
Proof.
  intros (HG & Hd & Htab) Hanswer.
  pose proof HG as HG'. apply store_lookup_Some in HG' as (rr & Hrr & _).
  destruct (solve_as_sat_run sat_solve s G rr HG Hrr Hd Htab)
    as (s1 & ys & rws & Henc & Hheap & Hgrid & Hsol & Hfound & _ & _ & _ & _ & Heq).
  rewrite Heq, Hanswer. exists s1. split; [reflexivity|].
  split; [exact Hheap|]. split; [exact Hgrid|exact Henc].
Qed.

End SolveSatResult.

(** ** Decidable checks and the sample oracles *)

Lemma dims_okb_ok g : dims_okb g = true → dims_ok g.
Proof.
  unfold dims_okb. intros [Hlen Hrows]%andb_true_iff. split; [by apply Nat.eqb_eq|].
  intros row Hrow. rewrite forallb_forall in Hrows.
  apply Nat.eqb_eq, Hrows. by apply list_elem_of_In.
Qed.

Lemma solvesb_solves G S : solvesb G S = true → solves G S.
Proof.
  unfold solvesb. intros [[Hd Hcells]%andb_true_iff Hcheck]%andb_true_iff.
  apply dims_okb_ok in Hd. apply checkb_consistent in Hcheck; [|done].
  assert (∀ row col, row < 9 → col < 9 →
            (1 ≤ cell S row col ≤ 9)%Z ∧
            (cell G row col ≠ 0%Z → cell S row col = cell G row col)) as Hall.
  { intros row col Hr Hc. rewrite forallb_forall in Hcells.
    specialize (Hcells row ltac:(apply in_seq; lia)). rewrite forallb_forall in Hcells.
    specialize (Hcells col ltac:(apply in_seq; lia)).
    apply andb_true_iff in Hcells as [[H1 H9]%andb_true_iff Hg].
    apply Z.leb_le in H1, H9. split; [lia|]. intros Hnz.
    apply orb_true_iff in Hg as [Hz%Z.eqb_eq|Heq%Z.eqb_eq]; [done|done]. }
  split_and!; [done| | |done].
  - intros row col Hr Hc. by apply Hall.
  - intros row col Hr Hc. by apply Hall.
Qed.

Lemma constructed_init G : dims_ok G → init (store_of G) 0 = Ok (constructed G).
Proof. intros Hd. apply (init_ok (store_of G) 0 G); [apply store_of_lookup|done]. Qed.

Lemma hint_oracle_sound hint : oracle_sound (hint_oracle hint).
Proof.
  intros cnf m. unfold hint_oracle. destruct (is_model cnf hint) eqn:Hm; [|done].
  by intros [= <-].
Qed.

Lemma nvars_nonneg cnf : (0 ≤ nvars cnf)%Z.
Proof.
  unfold nvars. induction cnf as [|c cnf IH]; simpl; [done|].
  induction c as [|l c IHc]; simpl; [done|lia].
Qed.

Lemma sign_vectors_complete k : ∀ i m,
  Z.abs <$> m = seqZ i (Z.of_nat k) → m ∈ sign_vectors k i.
Proof.
  induction k as [|k IH]; intros i m Habs.
  - simpl in *. apply fmap_nil_inv in Habs as ->. by left.
  - rewrite Nat2Z.inj_succ, seqZ_cons in Habs by lia.
    replace (Z.pred (Z.succ (Z.of_nat k))) with (Z.of_nat k) in Habs by lia.
    destruct m as [|v m]; [done|]. injection Habs as Hv Hm.
    simpl. apply list_elem_of_bind. exists m. split; [|apply IH; exact Hm].
    rewrite !elem_of_cons. destruct (decide (0 ≤ v)%Z).
    + left. f_equal. lia.
    + right. left. f_equal. lia.
Qed.

Lemma brute_force_sound : oracle_sound brute_force.
Proof. intros cnf m Hfind. by apply find_some in Hfind as [_ Hm]. Qed.

Lemma brute_force_complete : oracle_complete brute_force.
Proof.
  intros cnf Hnone m. destruct (is_model cnf m) eqn:Hm; [|done].
  rewrite <- Hm. apply (find_none _ _ Hnone m), list_elem_of_In, sign_vectors_complete.
  apply is_model_iff in Hm as [Habs _]. rewrite Habs, Z2Nat.id; [done|apply nvars_nonneg].
Qed.

(** ** Sample inputs *)

Lemma grid_solved_dims : dims_ok grid_solved.
Proof. apply dims_okb_ok. vm_compute. reflexivity. Qed.

Lemma grid_blanks_dims : dims_ok grid_blanks.
Proof. apply dims_okb_ok. vm_compute. reflexivity. Qed.

Lemma grid_odd_dims : dims_ok grid_odd.
Proof. apply dims_okb_ok. vm_compute. reflexivity. Qed.

Lemma grid_solved_solves : solves grid_solved grid_solved.
Proof. apply solvesb_solves. vm_compute. reflexivity. Qed.

Lemma grid_blanks_solves : solves grid_blanks grid_solved.
Proof. apply solvesb_solves. vm_compute. reflexivity. Qed.

Lemma reachable_constructed sat_solve G :
  dims_ok G → reachable sat_solve G (constructed G).
Proof.
  intros Hd. apply (reachable_init sat_solve G (store_of G) 0); [apply store_of_lookup|].
  by apply constructed_init.
Qed.

(** A grid without blank cells is its only solution. *)
Lemma full_grid_unique G S :
  dims_ok G → solves G G → solves G S → S = G.
Proof.
  intros Hd (_ & Hdigits & _) (HdS & _ & Hgiven & _). apply grid_ext; [done..|].
  intros r c Hr Hc. apply Hgiven; [done..|]. specialize (Hdigits r c Hr Hc). lia.
Qed.

(** ** The unit clauses of the formula *)

Lemma unit_clauses G s :
  instance_inv G s →
  ∃ cnf s', encode s = Ok (cnf, s') ∧
    (∀ row col, row < 9 → col < 9 →
       [(Z.of_nat (idx row col) + 1)%Z] ∈ cnf ∧
       id_atom s' !! (Z.of_nat (idx row col) + 1)%Z = Some (row, col, cell G row col)) ∧
    (∀ l, [l] ∈ cnf →
       ∃ row col, row < 9 ∧ col < 9 ∧ l = (Z.of_nat (idx row col) + 1)%Z).
Proof.
  intros (HG & Hd & Htab). eexists _, _. split; [by apply encode_eq|].
  pose proof (encode_tables G s Htab) as Henc.
  rewrite (same_tables_interp _ _ _ Henc). destruct Henc as [_ ->].
  pose proof (encoded_wf G) as (Hfwd & _ & _).
  pose proof (encoded_initial_id G) as Hid. revert Hfwd Hid. generalize (encoded G).
  intros e Hfwd Hid. unfold interp. split.
  - intros row col Hr Hc. split; [|apply Hfwd, Hid; done].
    apply list_elem_of_fmap. exists [((row, col, cell G row col), false)]. split.
    + simpl. unfold lit_of, id_of. simpl. by rewrite (Hid row col Hr Hc).
    + apply elem_of_sym_cnf. left. apply elem_of_sym_initial. by exists row, col.
  - intros l (sc & Heq & Hsc)%list_elem_of_fmap. symmetry in Heq.
    apply fmap_cons_inv in Heq as (sl & rest & -> & Hrest & ->).
    symmetry in Hrest. apply fmap_nil_inv in Hrest as ->.
    apply elem_of_sym_cnf in Hsc as [Hsc|[Hsc|[Hsc|[Hsc|Hsc]]]].
    + apply elem_of_sym_initial in Hsc as (row & col & Hr & Hc & [= ->]).
      exists row, col. unfold lit_of, id_of. simpl. rewrite (Hid row col Hr Hc). done.
    + apply elem_of_sym_cells in Hsc as (row & col & _ & _ & Heq).
      apply (f_equal length) in Heq. rewrite length_fmap in Heq.
      unfold rangeZ in Heq. rewrite length_seqZ in Heq. simpl in Heq. lia.
    + by apply elem_of_sym_rows in Hsc as (? & ? & ? & ? & _ & _ & _ & _ & [=]).
    + by apply elem_of_sym_columns in Hsc as (? & ? & ? & ? & _ & _ & _ & _ & [=]).
    + by apply elem_of_sym_subgrids in Hsc
        as (? & ? & ? & ? & ? & _ & _ & _ & _ & _ & _ & _ & _ & [=]).
Qed.

Section SolveSatCases.

Variable sat_solve : list clause → option (list Z).
Hypothesis Hsound : oracle_sound sat_solve.

(** What a call of [solve_as_sat] returns, by the answer of the oracle:
    [None], or a new grid object that shares rows where the given grid
    does and holds the decoded entries. *)
Lemma solve_as_sat_cases G rr s :
  instance_inv G s → grid_objs (heap s) !! self_grid s = Some rr →
  match sat_solve (interp (encoded G) (sym_cnf G)) with
  | Some m =>
      is_model (interp (encoded G) (sym_cnf G)) m = true ∧
      ∃ s' ys, solve_as_sat sat_solve s = Ok (Some (length (grid_objs (heap s))), s') ∧
            store_prefix (heap s) (heap s') ∧
            grid_objs (heap s') = grid_objs (heap s) ++ [ys] ∧ same_sharing rr ys ∧
            heap s' !! length (grid_objs (heap s)) =
              Some (decode_shared rr (id_atom (encoded G)) m G)
  | None =>
      ∃ s', solve_as_sat sat_solve s = Ok (None, s') ∧ heap s' = heap s
  end.
Proof.
  intros Hinv Hrr. destruct (sat_solve (interp (encoded G) (sym_cnf G))) as [m|] eqn:Hanswer.
  - pose proof (Hsound _ _ Hanswer) as Hmodel. split; [exact Hmodel|].
    destruct (solve_as_sat_model sat_solve s G rr m Hinv Hrr Hanswer Hmodel)
      as (s' & ys & Hrun & Hpre & Hobjs & Hshare & Hval & _).
    exists s', ys. split; [exact Hrun|]. split; [exact Hpre|]. split; [exact Hobjs|].
    split; [exact Hshare|exact Hval].
  - destruct (solve_as_sat_unsat sat_solve s G Hinv Hanswer) as (s' & Hrun & Hheap & _).
    exists s'. split; [exact Hrun|exact Hheap].
Qed.

End SolveSatCases.

(** ** A given grid with rows that are one object *)

(** The candidates of the search have equal rows where the given grid
    shares a row. *)
Lemma search_shared_rows rr fuel i j :
  i < 9 → j < 9 → rr !! i = rr !! j →
  ∀ G g row col sol, dims_ok g → cursor_ok row col →
    (∀ c, cell g i c = cell g j c) →
    search_shared rr fuel G g row col = Some sol →
    ∀ c, cell sol i c = cell sol j c.
Proof.
  intros Hi Hj Hshare.
  induction fuel as [|fuel IH]; intros G g row col sol Hd Hcur Heq; [done|].
  cbn [search_shared]. destruct (checkb g); cbn [negb]; [|done].
  destruct (row =? 9) eqn:Hrow; [by intros [= <-]|].
  apply Nat.eqb_neq in Hrow. destruct Hcur as [[Hr Hc]|[? _]]; [|done].
  assert (∀ number c, cell (place_shared rr g row col number) i c =
                      cell (place_shared rr g row col number) j c) as Hplace.
  { intros number c. rewrite !cell_place_shared by done. rewrite <- Hshare.
    destruct (decide _); [done|apply Heq]. }
  destruct (cursor_next row col Hr Hc) as [(-> & Hnext & _)|(-> & Hnext & _)];
    (destruct (negb _);
     [by apply IH
     |intros (number & _ & Hrec)%first_some_Some;
      apply (IH _ _ _ _ _ (place_shared_dims rr g row col number Hd) Hnext
               (Hplace number) Hrec)]).
Qed.

(** With two rows of the given grid one object the search finds
    nothing: a full grid with two equal rows has a digit twice in a
    column. *)
Lemma search_shared_none rr fuel G i j :
  i < 9 → j < 9 → i ≠ j → rr !! i = rr !! j → dims_ok G →
  (∀ i j c, i < 9 → rr !! i = rr !! j → cell G i c = cell G j c) →
  search_shared rr fuel G G 0 0 = None.
Proof.
  intros Hi Hj Hne Hshare Hd HG.
  destruct (search_shared rr fuel G G 0 0) as [sol|] eqn:Hsearch; [exfalso|done].
  destruct (search_shared_keeps rr fuel G G 0 0 sol HG Hd ltac:(left; lia)
              ltac:(done) ltac:(intros ???? _; unfold idx; lia) Hsearch)
    as (Hdsol & (_ & Hcols & _) & Hgiven & Hblank).
  pose proof (search_shared_rows rr fuel i j Hi Hj Hshare G G 0 0 sol Hd
                ltac:(left; lia) (λ c, HG i j c Hi Hshare) Hsearch 0) as Heq.
  assert (cell sol i 0 ≠ 0%Z) as Hnz.
  { destruct (decide (cell G i 0 = 0%Z)) as [Hz|Hnz].
    - specialize (Hblank i 0 Hi ltac:(lia) Hz). lia.
    - by rewrite (Hgiven i 0 Hi ltac:(lia) Hnz). }
  by apply (Hcols 0 i j ltac:(lia) Hi Hj Hne Hnz).
Qed.

(** ** Forced cells *)

Lemma peers_unit row col p :
  p ∈ peers row col →
  p.1 < 9 ∧ p.2 < 9 ∧ p ≠ (row, col) ∧
  (p.1 = row ∨ p.2 = col ∨ (p.1 / 3 = row / 3 ∧ p.2 / 3 = col / 3)).
Proof.
  unfold peers. intros [[Hne Hunit] Hin]%list_elem_of_filter.
  unfold all_cells in Hin.
  apply list_elem_of_bind in Hin as (r & Hin & Hr%elem_of_range).
  apply list_elem_of_bind in Hin as (c & ->%list_elem_of_singleton & Hc%elem_of_range).
  simpl in *. split_and!; [lia|lia|done|done].
Qed.

(** The entry of a solved grid is a candidate of its cell. *)
Lemma candidates_solves G S row col :
  solves G S → row < 9 → col < 9 → cell S row col ∈ candidates G row col.
Proof.
  intros (_ & Hdigits & Hgiven & Hrows & Hcols & Hboxes) Hr Hc.
  pose proof (Hdigits row col Hr Hc) as Hd.
  unfold candidates. apply list_elem_of_filter. split; [|apply elem_of_seqZ; lia].
  apply Forall_forall. intros [r c] (Hr' & Hc' & Hne & Hunit)%peers_unit Heq. simpl in *.
  assert (cell S r c = cell S row col) as HS by (rewrite <- Heq; apply Hgiven; [done..|lia]).
  assert (cell S row col ≠ 0%Z) as Hnz by lia.
  destruct Hunit as [->|[->|[Hrb Hcb]]].
  - apply (Hrows row col c Hr Hc Hc'); [congruence|done|done].
  - apply (Hcols col row r Hc Hr Hr'); [congruence|done|done].
  - apply (Hboxes row col r c Hr Hc Hr' Hc'); [congruence|done..].
Qed.

Lemma fill_cell_solves G S p :
  p.1 < 9 → p.2 < 9 → dims_ok G → solves G S →
  dims_ok (fill_cell G p) ∧ solves (fill_cell G p) S.
Proof.
  intros Hr Hc Hd HS. unfold fill_cell.
  destruct (decide (cell G p.1 p.2 = 0%Z)) as [Hz|]; [|done].
  pose proof (candidates_solves G S p.1 p.2 HS Hr Hc) as Hin.
  destruct (candidates G p.1 p.2) as [|d [|??]]; [done| |done].
  apply list_elem_of_singleton in Hin. split; [by apply place_dims|].
  destruct HS as (HdS & Hdigits & Hgiven & Hcons). split_and!; [done..| |done].
  intros r c Hr' Hc'. rewrite cell_place by done.
  destruct (decide (r = p.1 ∧ c = p.2)) as [[-> ->]|_]; [done|by apply Hgiven].
Qed.

Lemma propagate_solves G S :
  dims_ok G → solves G S → dims_ok (propagate G) ∧ solves (propagate G) S.
Proof.
  unfold propagate.
  assert (Forall (λ p, p.1 < 9 ∧ p.2 < 9) all_cells) as Hcells.
  { apply Forall_forall. intros p Hin. unfold all_cells in Hin.
    apply list_elem_of_bind in Hin as (r & Hin & Hr%elem_of_range).
    apply list_elem_of_bind in Hin as (c & ->%list_elem_of_singleton & Hc%elem_of_range).
    simpl. lia. }
  revert G. induction Hcells as [|p l [Hr Hc] _ IH]; intros G Hd HS; simpl; [done|].
  destruct (fill_cell_solves G S p Hr Hc Hd HS). by apply IH.
Qed.

(** ** The atom of a cell without a digit *)

(** The atom of the given entry of a cell, where the entry is no digit
    1..9, occurs in the unit clause of the cell and nowhere else. *)
Lemma lone_atom G s :
  instance_inv G s →
  ∃ cnf s', encode s = Ok (cnf, s') ∧
    ∀ row col, row < 9 → col < 9 → ¬ (1 ≤ cell G row col ≤ 9)%Z →
      ∀ c l, c ∈ cnf → l ∈ c → Z.abs l = (Z.of_nat (idx row col) + 1)%Z →
        c = [(Z.of_nat (idx row col) + 1)%Z].
Proof.
  intros (HG & Hd & Htab). eexists _, _. split; [by apply encode_eq|].
  pose proof (encode_tables G s Htab) as Henc.
  rewrite (same_tables_interp _ _ _ Henc). clear Henc.
  pose proof (encoded_wf G) as Hwf. pose proof (encoded_registered G) as Hreg.
  pose proof (encoded_initial_id G) as Hid. revert Hwf Hreg Hid. generalize (encoded G).
  intros e (Hfwd & Hbwd & _) Hreg Hid row col Hr Hc Hnd c l Hc' Hl Habs.
  apply list_elem_of_fmap in Hc' as (sc & -> & Hsc).
  apply list_elem_of_fmap in Hl as (sl & -> & Hsl).
  assert (sl.1 = (row, col, cell G row col)) as Htriple.
  { destruct (proj2 (Hreg sl.1)) as [i Hi].
    { unfold triples_of. apply list_elem_of_bind. exists sc. split; [|done].
      by apply list_elem_of_fmap_2. }
    assert (i = (Z.of_nat (idx row col) + 1)%Z) as ->.
    { destruct (Hbwd _ _ (Hfwd _ _ Hi)) as [_ Hrange]. revert Habs.
      unfold lit_of, id_of. rewrite Hi. simpl. destruct sl.2; lia. }
    pose proof (Hfwd _ _ Hi) as H1. pose proof (Hfwd _ _ (Hid row col Hr Hc)) as H2.
    congruence. }
  apply elem_of_sym_cnf in Hsc as [Hsc|[Hsc|[Hsc|[Hsc|Hsc]]]].
  - apply elem_of_sym_initial in Hsc as (r & c & Hr' & Hc'' & ->).
    apply list_elem_of_singleton in Hsl as ->. simpl in Htriple.
    injection Htriple as -> -> _. simpl. unfold lit_of, id_of. simpl.
    by rewrite (Hid row col Hr Hc).
  - apply elem_of_sym_cells in Hsc as (r & c & _ & _ & ->).
    apply list_elem_of_fmap in Hsl as (number & -> & Hn%elem_of_rangeZ).
    simpl in Htriple. injection Htriple as _ _ ->. lia.
  - apply elem_of_sym_rows in Hsc as (r & cA & cB & number & _ & _ & _ & Hn & ->).
    rewrite !elem_of_cons, elem_of_nil in Hsl.
    destruct Hsl as [->|[->|[]]]; simpl in Htriple; injection Htriple as _ _ ->; lia.
  - apply elem_of_sym_columns in Hsc as (c & rA & rB & number & _ & _ & _ & Hn & ->).
    rewrite !elem_of_cons, elem_of_nil in Hsl.
    destruct Hsl as [->|[->|[]]]; simpl in Htriple; injection Htriple as _ _ ->; lia.
  - apply elem_of_sym_subgrids in Hsc
      as (rA & cA & rB & cB & number & _ & _ & _ & _ & _ & _ & _ & Hn & ->).
    rewrite !elem_of_cons, elem_of_nil in Hsl.
    destruct Hsl as [->|[->|[]]]; simpl in Htriple; injection Htriple as _ _ ->; lia.
Qed.

(** ** More sample inputs *)

Lemma grid_clash_dims : dims_ok grid_clash.
Proof. apply dims_okb_ok. vm_compute. reflexivity. Qed.

Lemma grid_shared_dims : dims_ok grid_shared.
Proof. apply dims_okb_ok. vm_compute. reflexivity. Qed.

Lemma grid_two_dims : dims_ok grid_two.
Proof. apply dims_okb_ok. vm_compute. reflexivity. Qed.

Lemma grid_shared_solves : solves grid_shared grid_solved.
Proof. apply solvesb_solves. vm_compute. reflexivity. Qed.

Lemma grid_two_solves : solves grid_two grid_solved.
Proof. apply solvesb_solves. vm_compute. reflexivity. Qed.

Lemma grid_two_solves_swapped : solves grid_two grid_swapped.
Proof. apply solvesb_solves. vm_compute. reflexivity. Qed.

(** The grids [grid_blanks] and [grid_shared] have one solution: filling
    the forced cells gives [grid_solved]. *)
Lemma grid_blanks_unique S : solves grid_blanks S → S = grid_solved.
Proof.
  intros HS. destruct (propagate_solves grid_blanks S grid_blanks_dims HS) as [_ HS1].
  assert (propagate grid_blanks = grid_solved) as Heq by (vm_compute; reflexivity).
  rewrite Heq in HS1.
  exact (full_grid_unique grid_solved S grid_solved_dims grid_solved_solves HS1).
Qed.

Lemma grid_shared_unique S : solves grid_shared S → S = grid_solved.
Proof.
  intros HS. destruct (propagate_solves grid_shared S grid_shared_dims HS) as [Hd1 HS1].
  destruct (propagate_solves _ S Hd1 HS1) as [_ HS2].
  assert (propagate (propagate grid_shared) = grid_solved) as Heq
    by (vm_compute; reflexivity).
  rewrite Heq in HS2.
  exact (full_grid_unique grid_solved S grid_solved_dims grid_solved_solves HS2).
Qed.

(** The instance for the grid object of [store_shared], whose rows 0 and
    6 are one object. *)
Lemma store_shared_lookup : store_shared !! 0 = Some grid_shared.
Proof. reflexivity. Qed.

Lemma reachable_shared sat_solve : reachable sat_solve grid_shared constructed_shared.
Proof.
  apply (reachable_init sat_solve grid_shared store_shared 0); [exact store_shared_lookup|].
  apply (init_ok store_shared 0 grid_shared); [exact store_shared_lookup|].
  exact grid_shared_dims.
Qed.

(** A grid value read from the store has equal rows where the object
    shares a row. *)
Lemma instance_shared_rows G s rr :
  heap s !! self_grid s = Some G → grid_objs (heap s) !! self_grid s = Some rr →
  dims_ok G →
  length rr = 9 ∧ ∀ i j c, i < 9 → rr !! i = rr !! j → cell G i c = cell G j c.
Proof.
  intros (rr' & Hrr' & Hval)%store_lookup_Some Hrr [Hlen _].
  assert (rr' = rr) as -> by congruence.
  assert (length rr = 9) as Hlen'.
  { apply deref_Some, Forall2_length in Hval. lia. }
  split; [done|]. intros i j c Hi Heq.
  apply (deref_shared_rows _ _ _ _ _ _ Hval); [lia|done].
Qed.

(** ** Instances whose given grid has distinct row objects *)

Lemma distinct_rows_refs G s :
  instance_inv G s → distinct_rows s →
  ∃ rr, grid_objs (heap s) !! self_grid s = Some rr ∧ NoDup rr ∧ length rr = 9.
Proof.
  intros (HG & Hd & _) (rr & Hrr & Hnd). exists rr. split; [done|]. split; [done|].
  by destruct (instance_shared_rows G s rr HG Hrr Hd).
Qed.

Lemma distinct_rows_later s s' :
  self_grid s' = self_grid s → store_prefix (heap s) (heap s') →
  distinct_rows s → distinct_rows s'.
Proof.
  intros Hgrid Hpre (rr & Hrr & Hnd). exists rr. split; [|done].
  rewrite Hgrid. by eapply store_prefix_objs.
Qed.

(** [solve_as_csp] on such an instance, by the search on grid values. *)
Lemma solve_as_csp_distinct s G :
  instance_inv G s → distinct_rows s →
  ∃ s', solve_as_csp s = Ok (solution s', s') ∧ same_instance s s' ∧
        match search search_depth G G 0 0 with
        | Some sol => ∃ r, solution s' = Some r ∧ heap s' !! r = Some sol
        | None => solution s' = None
        end.
Proof.
  intros Hinv Hdist. destruct (distinct_rows_refs G s Hinv Hdist) as (rr & Hrr & Hnd & Hlen).
  destruct Hinv as (HG & Hd & _).
  destruct (solve_as_csp_run s G rr HG Hrr Hd) as (s' & Hrun & Hsame & Hout).
  exists s'. split; [exact Hrun|]. split; [exact Hsame|].
  rewrite (search_shared_distinct rr search_depth G G 0 0 Hnd Hlen Hd ltac:(left; lia))
    in Hout.
  exact Hout.
Qed.

Section SolveSatDistinct.

Variable sat_solve : list clause → option (list Z).
Hypothesis Hsound : oracle_sound sat_solve.

(** [solve_as_sat] on such an instance: the returned grid is the model
    decoded on grid values. *)
Lemma solve_as_sat_distinct G s :
  instance_inv G s → distinct_rows s →
  match sat_solve (interp (encoded G) (sym_cnf G)) with
  | Some m =>
      is_model (interp (encoded G) (sym_cnf G)) m = true ∧
      ∃ s', solve_as_sat sat_solve s = Ok (Some (length (grid_objs (heap s))), s') ∧
            store_prefix (heap s) (heap s') ∧
            heap s' !! length (grid_objs (heap s)) =
              Some (decode_grid (id_atom (encoded G)) m G)
  | None =>
      ∃ s', solve_as_sat sat_solve s = Ok (None, s') ∧ heap s' = heap s
  end.
Proof.
  intros Hinv Hdist. destruct (distinct_rows_refs G s Hinv Hdist) as (rr & Hrr & Hnd & Hlen).
  pose proof (solve_as_sat_cases sat_solve Hsound G rr s Hinv Hrr) as Hcases.
  destruct (sat_solve (interp (encoded G) (sym_cnf G))) as [m|]; [|exact Hcases].
  destruct Hcases as (Hmodel & s' & ys & Hrun & Hpre & _ & _ & Hval).
  split; [exact Hmodel|]. exists s'. split; [exact Hrun|]. split; [exact Hpre|].
  destruct Hinv as (_ & Hd & _).
  destruct (sat_decoded G m Hd Hmodel) as (_ & _ & _ & _ & Hreg).
  rewrite <- (decode_shared_distinct rr (id_atom (encoded G)) m G Hnd Hlen Hd Hreg).
  exact Hval.
Qed.

End SolveSatDistinct.

(** ** Runs of the solve methods *)

Lemma extends_proper G S : proper G → extends G G 0 0 S → solves G S.
Proof.
  intros Hproper (HdS & _ & Hafter & Hcons).
  assert (∀ r c, r < 9 → c < 9 →
            if decide (cell G r c = 0%Z) then (1 ≤ cell S r c ≤ 9)%Z
            else cell S r c = cell G r c) as Hcells.
  { intros r c Hr Hc. apply Hafter; [done..|]. unfold idx. lia. }
  split_and!; [done| |  |done].
  - intros r c Hr Hc. specialize (Hcells r c Hr Hc). specialize (Hproper r c Hr Hc).
    destruct (decide (cell G r c = 0%Z)); lia.
  - intros r c Hr Hc Hnz. specialize (Hcells r c Hr Hc).
    by rewrite decide_False in Hcells.
Qed.

Lemma sat_decoded_solves G m :
  dims_ok G → proper G → is_model (interp (encoded G) (sym_cnf G)) m = true →
  solves G (decode_grid (id_atom (encoded G)) m G).
Proof.
  intros Hd Hproper Hmodel.
  destruct (sat_decoded G m Hd Hmodel) as (Hdims & Hdigits & Hcons & Hgiven & _).
  split_and!; [exact Hdims|exact Hdigits| |exact Hcons].
  intros row col Hr Hc Hnz. apply Hgiven; [done..|].
  specialize (Hproper row col Hr Hc). lia.
Qed.

Lemma solves_proper G S : solves G S → proper G.
Proof.
  intros (_ & Hdigits & Hgiven & _) row col Hr Hc.
  destruct (decide (cell G row col = 0%Z)) as [->|Hnz]; [lia|].
  rewrite <- (Hgiven row col Hr Hc Hnz). specialize (Hdigits row col Hr Hc). lia.
Qed.

Lemma grid_blanks_proper : proper grid_blanks.
Proof. exact (solves_proper _ _ grid_blanks_solves). Qed.

(** With a sound and complete oracle [solve_as_sat] returns a grid when the
    given grid has a solution. *)
Lemma solve_as_sat_solvable sat_solve G S s :
  oracle_sound sat_solve → oracle_complete sat_solve →
  instance_inv G s → solves G S →
  ∃ r s', solve_as_sat sat_solve s = Ok (Some r, s').
Proof.
  intros Hsound Hcomplete Hinv HS. pose proof Hinv as (HG & _).
  destruct (proj1 (store_lookup_Some _ _ _) HG) as (rr & Hrr & _).
  pose proof (solve_as_sat_cases sat_solve Hsound G rr s Hinv Hrr) as Hcases.
  destruct (sat_solve (interp (encoded G) (sym_cnf G))) as [m|] eqn:Hanswer.
  - destruct Hcases as (_ & s' & ys & Hrun & _). by eexists _, s'.
  - destruct (sat_satisfiable G S HS) as [m Hm].
    rewrite (Hcomplete _ Hanswer m) in Hm. discriminate Hm.
Qed.

(** [solve_as_csp] returns a grid when the given grid has a solution and
    its rows are distinct objects. *)
Lemma solve_as_csp_solvable G S s :
  instance_inv G s → distinct_rows s → solves G S →
  ∃ r s', solve_as_csp s = Ok (Some r, s').
Proof.
  intros Hinv Hdist HS. pose proof Hinv as (_ & Hd & _).
  destruct (solve_as_csp_distinct s G Hinv Hdist) as (s' & Hrun & _ & Hout).
  destruct (search_lexmin G S Hd HS) as (sol & Hsearch & _).
  rewrite Hsearch in Hout. destruct Hout as (r & Hr & _).
  exists r, s'. by rewrite Hrun, Hr.
Qed.

(** When two rows of the given grid are one list object [solve_as_csp]
    returns [None]: a digit placed in one of them shows in the other, in
    the same column. *)
Lemma solve_as_csp_aliased G s rr i j :
  instance_inv G s → grid_objs (heap s) !! self_grid s = Some rr →
  i < 9 → j < 9 → i ≠ j → rr !! i = rr !! j →
  ∃ s', solve_as_csp s = Ok (None, s') ∧ same_instance s s'.
Proof.
  intros (HG & Hd & _) Hrr Hi Hj Hij Halias.
  destruct (solve_as_csp_run s G rr HG Hrr Hd) as (s' & Hrun & Hsame & Hout).
  destruct (instance_shared_rows G s rr HG Hrr Hd) as [_ Hrows].
  rewrite (search_shared_none rr search_depth G i j Hi Hj Hij Halias Hd Hrows) in Hout.
  exists s'. split; [|exact Hsame]. by rewrite Hrun, Hout.
Qed.

Lemma constructed_shared_inv : instance_inv grid_shared constructed_shared.
Proof.
  split; [exact store_shared_lookup|]. split; [exact grid_shared_dims|].
  left. by split.
Qed.

(** The instance of [store_shared]: rows 0 and 6 are one object. *)
Lemma constructed_shared_csp :
  ∃ s', solve_as_csp constructed_shared = Ok (None, s').
Proof.
  destruct (solve_as_csp_aliased grid_shared constructed_shared [0; 1; 2; 3; 4; 5; 0; 6; 7]
              0 6 constructed_shared_inv eq_refl ltac:(lia) ltac:(lia) ltac:(lia) eq_refl)
    as (s' & Hrun & _).
  exists s'. exact Hrun.
Qed.

Lemma constructed_inv G : dims_ok G → instance_inv G (constructed G).
Proof.
  intros Hd. split; [exact (store_of_lookup G)|]. split; [exact Hd|]. left. by split.
Qed.

Lemma grid_blanks_sat_run :
  ∃ r s', solve_as_sat brute_force (constructed grid_blanks) = Ok (Some r, s').
Proof.
  exact (solve_as_sat_solvable brute_force grid_blanks grid_solved (constructed grid_blanks)
           brute_force_sound brute_force_complete (constructed_inv _ grid_blanks_dims)
           grid_blanks_solves).
Qed.

Lemma grid_blanks_csp_run :
  ∃ r s', solve_as_csp (constructed grid_blanks) = Ok (Some r, s').
Proof.
  exact (solve_as_csp_solvable grid_blanks grid_solved (constructed grid_blanks)
           (constructed_inv _ grid_blanks_dims) (store_of_distinct _) grid_blanks_solves).
Qed.

(** Two calls of [solve_as_sat] in a row on the instance of [grid_blanks]. *)
Lemma grid_blanks_sat_twice :
  ∃ r1 s1 r2 s2,
    solve_as_sat brute_force (constructed grid_blanks) = Ok (Some r1, s1) ∧
    solve_as_sat brute_force s1 = Ok (Some r2, s2).
Proof.
  destruct grid_blanks_sat_run as (r1 & s1 & Hrun1).
  pose proof (reachable_sat brute_force grid_blanks _ _ _
                (reachable_constructed brute_force grid_blanks grid_blanks_dims) Hrun1)
    as Hreach.
  destruct (solve_as_sat_solvable brute_force grid_blanks grid_solved s1
              brute_force_sound brute_force_complete
              (reachable_inv brute_force _ _ Hreach) grid_blanks_solves)
    as (r2 & s2 & Hrun2).
  exists r1, s1, r2, s2. split; [exact Hrun1|exact Hrun2].
Qed.

(** The tables of [encoded G] are not empty. *)
Lemma encoded_not_empty G : atom_id (encoded G) ≠ ∅.
Proof.
  intros Hempty.
  pose proof (encoded_initial_id G 0 0 ltac:(lia) ltac:(lia)) as Hid.
  rewrite Hempty, lookup_empty in Hid. discriminate Hid.
Qed.

Lemma grid_solved_not_swapped : grid_solved ≠ grid_swapped.
Proof. intros Heq. discriminate Heq. Qed.

(** * The claims *)

(** ** The constructor *)

(** C7: [Sudoku(grid)] raises the dimension error ([ValueError('Wrong grid
    size')] in the source) if and only if the grid does not have exactly 9
    rows or some row does not have exactly 9 entries; a 9x9 grid is
    accepted, and the new instance has empty atom tables: nothing has been
    encoded. *)
Theorem init_dimensions h r g :
  h !! r = Some g →
  (init h r = Raise ValueError ↔
     length g ≠ 9 ∨ ∃ row, row ∈ g ∧ length row ≠ 9) ∧
  (length g = 9 ∧ (∀ row, row ∈ g → length row = 9) →
     ∃ s, init h r = Ok s ∧ heap s = h ∧ self_grid s = r ∧
          atom_id s = ∅ ∧ id_atom s = ∅).
Proof.
  intros Hg. split.
  - rewrite (init_raises h r g Hg). apply not_dims_ok.
  - intros Hd. eexists. split; [by apply (init_ok h r g)|done].
Qed.

Lemma init_dimensions_witness :
  store_of grid_solved !! 0 = Some grid_solved ∧
  ((init (store_of grid_solved) 0 = Raise ValueError ↔
      length grid_solved ≠ 9 ∨ ∃ row, row ∈ grid_solved ∧ length row ≠ 9) ∧
   (length grid_solved = 9 ∧ (∀ row, row ∈ grid_solved → length row = 9) →
      ∃ s, init (store_of grid_solved) 0 = Ok s ∧ heap s = store_of grid_solved ∧
           self_grid s = 0 ∧ atom_id s = ∅ ∧ id_atom s = ∅)).
Proof.
  split; [exact (store_of_lookup grid_solved)|].
  exact (init_dimensions (store_of grid_solved) 0 grid_solved (store_of_lookup grid_solved)).
Defined.

(** C10: the constructor checks the dimensions only: every grid of 9 rows
    of 9 integers is accepted, whatever the integers are (negative
    numbers and numbers above 9 included). *)
Theorem init_no_range_check h r g :
  h !! r = Some g → length g = 9 → (∀ row, row ∈ g → length row = 9) →
  init h r = Ok (mkState h r ∅ ∅ None false).
Proof. intros Hg Hlen Hrows. by apply (init_ok h r g). Qed.

Lemma init_no_range_check_witness :
  cell grid_odd 0 0 = (-1)%Z ∧ cell grid_odd 0 1 = 10%Z ∧
  init (store_of grid_odd) 0 = Ok (mkState (store_of grid_odd) 0 ∅ ∅ None false).
Proof.
  split; [reflexivity|]. split; [reflexivity|].
  apply (init_no_range_check (store_of grid_odd) 0 grid_odd (store_of_lookup grid_odd)
           eq_refl).
  exact (proj2 grid_odd_dims).
Defined.

(** ** The atom registry *)

(** C5: the first call of [__atom] for a triple returns 1 plus the number
    of triples registered so far; every later call for the triple returns
    the same identifier, the reverse table maps the identifier back to the
    triple, and a triple that is registered later gets a larger
    identifier. *)
Theorem atom_first_and_later s row col number :
  atom_id s !! (row, col, number) = None →
  ∃ s1, atom row col number s = Ok ((Z.of_nat (size (atom_id s)) + 1)%Z, s1) ∧
    ∀ s2, atom_calls s1 s2 →
      atom row col number s2 = Ok ((Z.of_nat (size (atom_id s)) + 1)%Z, s2) ∧
      id_atom s2 !! (Z.of_nat (size (atom_id s)) + 1)%Z = Some (row, col, number) ∧
      ∀ row' col' number', atom_id s2 !! (row', col', number') = None →
        ∃ i s3, atom row' col' number' s2 = Ok (i, s3) ∧
                (Z.of_nat (size (atom_id s)) + 1 < i)%Z.
Proof.
  intros Hnew. destruct (register_new _ _ Hnew) as (Ha & Hi & Hs).
  exists (register (row, col, number) s). split.
  { rewrite atom_register. unfold id_of. by rewrite Ha, lookup_insert_eq. }
  intros s2 Hcalls. destruct (atom_calls_register _ _ Hcalls) as (Hsize & Hmono & Hrev).
  assert (atom_id s2 !! (row, col, number) = Some (Z.of_nat (size (atom_id s)) + 1)%Z) as Hid.
  { apply Hmono. by rewrite Ha, lookup_insert_eq. }
  split_and!.
  - rewrite atom_register, (register_known _ _ _ Hid). unfold id_of. by rewrite Hid.
  - apply Hrev; [by rewrite Hi, lookup_insert_eq|lia].
  - intros row' col' number' Hnew'. destruct (register_new _ _ Hnew') as (Ha' & _ & _).
    eexists _, _. split; [apply atom_register|].
    unfold id_of. rewrite Ha', lookup_insert_eq. simpl. lia.
Qed.

Lemma atom_first_and_later_witness :
  ∃ s1, atom 0 0 5 (constructed grid_solved) = Ok (1%Z, s1) ∧
    ∀ s2, atom_calls s1 s2 →
      atom 0 0 5 s2 = Ok (1%Z, s2) ∧ id_atom s2 !! 1%Z = Some (0, 0, 5%Z) ∧
      ∀ row' col' number', atom_id s2 !! (row', col', number') = None →
        ∃ i s3, atom row' col' number' s2 = Ok (i, s3) ∧ (1 < i)%Z.
Proof.
  exact (atom_first_and_later (constructed grid_solved) 0 0 5 (lookup_empty _)).
Defined.

(** ** The constraint checker *)

(** C3: on a 9x9 grid [__check_constraints] returns [True] if and only
    if the non-zero entries of every row, of every column and of every 3x3
    box are pairwise distinct (zero entries are never compared), and it
    leaves the state, the grid included, as it was. *)
Theorem check_constraints_spec s r g :
  heap s !! r = Some g → dims_ok g →
  ∃ b, check_constraints r s = Ok (b, s) ∧
       (b = true ↔ rows_distinct g ∧ columns_distinct g ∧ boxes_distinct g).
Proof.
  intros Hg Hd. exists (checkb g). split; [by apply check_constraints_eq|].
  by apply checkb_consistent.
Qed.

Lemma check_constraints_spec_witness :
  ∃ b, check_constraints 0 (constructed grid_blanks) = Ok (b, constructed grid_blanks) ∧
       (b = true ↔ rows_distinct grid_blanks ∧ columns_distinct grid_blanks ∧
                   boxes_distinct grid_blanks).
Proof.
  exact (check_constraints_spec (constructed grid_blanks) 0 grid_blanks
           (store_of_lookup grid_blanks) grid_blanks_dims).
Defined.

(** ** The solve methods *)

(** C6: neither solve method changes the given grid.  In every state of
    an instance built from a grid with the value [G], a call of
    [solve_as_sat] or of [solve_as_csp] that returns leaves [__grid]
    pointing at the same object, this object still holds [G], and every
    other object that existed before the call, grid or row, is unchanged
    as well; this covers the search, which starts on the given grid object
    itself, and grids whose rows are one list object. *)
Theorem solve_keeps_given_grid sat_solve G s :
  reachable sat_solve G s →
  heap s !! self_grid s = Some G ∧
  (∀ res s', solve_as_sat sat_solve s = Ok (res, s') →
     self_grid s' = self_grid s ∧ heap s' !! self_grid s' = Some G ∧
     store_prefix (heap s) (heap s')) ∧
  (∀ res s', solve_as_csp s = Ok (res, s') →
     self_grid s' = self_grid s ∧ heap s' !! self_grid s' = Some G ∧
     store_prefix (heap s) (heap s')).
Proof.
  intros Hreach. pose proof (reachable_inv sat_solve G s Hreach) as Hinv.
  pose proof Hinv as (HG & Hd & Htab). split; [exact HG|]. split.
  - intros res s' Hrun.
    destruct (solve_as_sat_frame sat_solve s G res s' Hinv Hrun) as (Hgrid & Hpre & _).
    split; [exact Hgrid|]. split; [|exact Hpre].
    rewrite Hgrid. by eapply store_prefix_lookup.
  - intros res s' Hrun.
    destruct (proj1 (store_lookup_Some _ _ _) HG) as (rr & Hrr & _).
    destruct (solve_as_csp_run s G rr HG Hrr Hd) as (s'' & Hrun' & Hsame & _).
    rewrite Hrun' in Hrun. injection Hrun as _ <-.
    split; [apply Hsame|]. split; [by eapply same_instance_grid|apply Hsame].
Qed.

Lemma solve_keeps_given_grid_witness :
  reachable brute_force grid_shared constructed_shared ∧
  heap constructed_shared !! 0 = Some grid_shared ∧
  (∀ res s', solve_as_sat brute_force constructed_shared = Ok (res, s') →
     self_grid s' = 0 ∧ heap s' !! self_grid s' = Some grid_shared ∧
     store_prefix store_shared (heap s')) ∧
  (∀ res s', solve_as_csp constructed_shared = Ok (res, s') →
     self_grid s' = 0 ∧ heap s' !! self_grid s' = Some grid_shared ∧
     store_prefix store_shared (heap s')).
Proof.
  split; [exact (reachable_shared brute_force)|].
  exact (solve_keeps_given_grid brute_force grid_shared constructed_shared
           (reachable_shared brute_force)).
Defined.

(** C9, for grids whose rows are distinct list objects: for a puzzle that
    has a solution, [solve_as_csp] returns a solved grid, and it is the
    first of all solved grids of the puzzle in the lexicographic order of
    the grids read in row-major order.  The grid depends on the given grid
    only, not on the state of the instance. *)
Theorem solve_as_csp_lexmin sat_solve G s S0 :
  reachable sat_solve G s → distinct_rows s → solves G S0 →
  ∃ r s' sol, solve_as_csp s = Ok (Some r, s') ∧ heap s' !! r = Some sol ∧
              solves G sol ∧ ∀ S', solves G S' → grid_lex_le sol S'.
Proof.
  intros Hreach Hdist HS0. pose proof (reachable_inv sat_solve G s Hreach) as Hinv.
  pose proof Hinv as (_ & Hd & _).
  destruct (solve_as_csp_distinct s G Hinv Hdist) as (s' & Hrun & _ & Hout).
  destruct (search_lexmin G S0 Hd HS0) as (sol & Hsearch & Hsol & Hmin).
  rewrite Hsearch in Hout. destruct Hout as (r & Hr & Hlook).
  exists r, s', sol. rewrite Hrun, Hr. by split_and!.
Qed.

(** [grid_two] has two solutions, [grid_solved] and [grid_swapped]; the
    rows of [constructed grid_two] are nine objects. *)
Lemma solve_as_csp_lexmin_witness :
  reachable brute_force grid_two (constructed grid_two) ∧
  distinct_rows (constructed grid_two) ∧
  solves grid_two grid_solved ∧ solves grid_two grid_swapped ∧
  grid_solved ≠ grid_swapped ∧
  ∃ r s' sol, solve_as_csp (constructed grid_two) = Ok (Some r, s') ∧
              heap s' !! r = Some sol ∧ solves grid_two sol ∧
              ∀ S', solves grid_two S' → grid_lex_le sol S'.
Proof.
  split; [exact (reachable_constructed brute_force grid_two grid_two_dims)|].
  split; [exact (store_of_distinct grid_two)|].
  split; [exact grid_two_solves|]. split; [exact grid_two_solves_swapped|].
  split; [exact grid_solved_not_swapped|].
  exact (solve_as_csp_lexmin brute_force grid_two (constructed grid_two) grid_swapped
           (reachable_constructed brute_force grid_two grid_two_dims)
           (store_of_distinct grid_two) grid_two_solves_swapped).
Defined.

(** C9 as stated fails: [grid_shared] has a solution, and on the instance
    built from the grid object of [store_shared], whose rows 0 and 6 are one
    list object, [solve_as_csp] returns [None]. *)
Lemma shared_rows_csp_none : ¬ csp_lexmin_at brute_force grid_shared constructed_shared.
Proof.
  intros Hclaim.
  destruct (Hclaim (reachable_shared brute_force) grid_solved grid_shared_solves)
    as (r & s' & sol & Hrun & _).
  destruct constructed_shared_csp as (s'' & Hnone).
  rewrite Hnone in Hrun. discriminate Hrun.
Qed.

(** C4: with an oracle that only returns models, [solve_as_sat] returns
    in every state of an instance, and when it returns a grid (the oracle
    reported satisfiable) every one of the 81 cells of this grid holds a
    digit 1..9. *)
Theorem solve_as_sat_no_blank sat_solve G s :
  oracle_sound sat_solve → reachable sat_solve G s →
  ∃ res s', solve_as_sat sat_solve s = Ok (res, s') ∧
    (res = None ↔ sat_solve (interp (encoded G) (sym_cnf G)) = None) ∧
    ∀ r, res = Some r →
      ∃ sol, heap s' !! r = Some sol ∧ dims_ok sol ∧
             ∀ row col, row < 9 → col < 9 → (1 ≤ cell sol row col ≤ 9)%Z.
Proof.
  intros Hsound Hreach. pose proof (reachable_inv sat_solve G s Hreach) as Hinv.
  pose proof Hinv as (HG & Hd & _).
  destruct (proj1 (store_lookup_Some _ _ _) HG) as (rr & Hrr & _).
  pose proof (solve_as_sat_cases sat_solve Hsound G rr s Hinv Hrr) as Hcases.
  destruct (sat_solve (interp (encoded G) (sym_cnf G))) as [m|].
  - destruct Hcases as (Hmodel & s' & ys & Hrun & _ & _ & _ & Hval).
    destruct (sat_decoded_shared G rr m Hd Hmodel) as (Hdims & Hdigits).
    exists (Some (length (grid_objs (heap s)))), s'. split; [exact Hrun|].
    split; [split; intros Heq; discriminate Heq|].
    intros r [= <-]. exists (decode_shared rr (id_atom (encoded G)) m G).
    split; [exact Hval|]. split; [exact Hdims|exact Hdigits].
  - destruct Hcases as (s' & Hrun & _).
    exists None, s'. split; [exact Hrun|]. split; [split; reflexivity|].
    intros r Heq. discriminate Heq.
Qed.

Lemma solve_as_sat_no_blank_witness :
  oracle_sound brute_force ∧
  reachable brute_force grid_blanks (constructed grid_blanks) ∧
  ∃ res s', solve_as_sat brute_force (constructed grid_blanks) = Ok (res, s') ∧
    (res = None ↔ brute_force (interp (encoded grid_blanks) (sym_cnf grid_blanks)) = None) ∧
    ∀ r, res = Some r →
      ∃ sol, heap s' !! r = Some sol ∧ dims_ok sol ∧
             ∀ row col, row < 9 → col < 9 → (1 ≤ cell sol row col ≤ 9)%Z.
Proof.
  split; [exact brute_force_sound|].
  split; [exact (reachable_constructed brute_force grid_blanks grid_blanks_dims)|].
  exact (solve_as_sat_no_blank brute_force grid_blanks (constructed grid_blanks)
           brute_force_sound
           (reachable_constructed brute_force grid_blanks grid_blanks_dims)).
Defined.

(** C1, for grids whose rows are distinct list objects: for a grid with
    exactly one solution, and an oracle that is sound and complete,
    [solve_as_sat] and [solve_as_csp] both return a grid, and the two grids
    are this solution. *)
Theorem solvers_agree sat_solve G s S :
  oracle_sound sat_solve → oracle_complete sat_solve →
  reachable sat_solve G s → distinct_rows s →
  solves G S → (∀ S', solves G S' → S' = S) →
  ∃ ra sa rb sb,
    solve_as_sat sat_solve s = Ok (Some ra, sa) ∧ heap sa !! ra = Some S ∧
    solve_as_csp s = Ok (Some rb, sb) ∧ heap sb !! rb = Some S.
Proof.
  intros Hsound Hcomplete Hreach Hdist HS Hunique.
  pose proof (reachable_inv sat_solve G s Hreach) as Hinv.
  pose proof Hinv as (HG & Hd & _).
  (* the SAT path *)
  pose proof (solve_as_sat_distinct sat_solve Hsound G s Hinv Hdist) as Hcases.
  destruct (sat_solve (interp (encoded G) (sym_cnf G))) as [m|] eqn:Hanswer.
  2:{ destruct (sat_satisfiable G S HS) as [m Hm].
      rewrite (Hcomplete _ Hanswer m) in Hm. discriminate Hm. }
  destruct Hcases as (Hmodel & sa & Hsat & _ & Hval).
  assert (decode_grid (id_atom (encoded G)) m G = S) as Hdecoded.
  { apply Hunique. apply sat_decoded_solves; [exact Hd| |exact Hmodel].
    exact (solves_proper G S HS). }
  (* the CSP path *)
  destruct (solve_as_csp_distinct s G Hinv Hdist) as (sb & Hcsp & _ & Hout).
  destruct (search_lexmin G S Hd HS) as (sol & Hsearch & Hsol & _).
  rewrite Hsearch in Hout. destruct Hout as (rb & Hrb & Hlook).
  exists (length (grid_objs (heap s))), sa, rb, sb. split_and!.
  - exact Hsat.
  - rewrite Hval, Hdecoded. reflexivity.
  - rewrite Hcsp, Hrb. reflexivity.
  - rewrite Hlook. f_equal. by apply Hunique.
Qed.

(** The grid [grid_shared], with 18 blank cells and one solution, given as
    a list of nine row objects. *)
Lemma solvers_agree_witness :
  oracle_sound brute_force ∧ oracle_complete brute_force ∧
  reachable brute_force grid_shared (constructed grid_shared) ∧
  distinct_rows (constructed grid_shared) ∧
  solves grid_shared grid_solved ∧
  (∀ S', solves grid_shared S' → S' = grid_solved) ∧
  ∃ ra sa rb sb,
    solve_as_sat brute_force (constructed grid_shared) = Ok (Some ra, sa) ∧
    heap sa !! ra = Some grid_solved ∧
    solve_as_csp (constructed grid_shared) = Ok (Some rb, sb) ∧
    heap sb !! rb = Some grid_solved.
Proof.
  split; [exact brute_force_sound|]. split; [exact brute_force_complete|].
  split; [exact (reachable_constructed brute_force grid_shared grid_shared_dims)|].
  split; [exact (store_of_distinct grid_shared)|].
  split; [exact grid_shared_solves|].
  split; [exact grid_shared_unique|].
  exact (solvers_agree brute_force grid_shared (constructed grid_shared) grid_solved
           brute_force_sound brute_force_complete
           (reachable_constructed brute_force grid_shared grid_shared_dims)
           (store_of_distinct grid_shared)
           grid_shared_solves grid_shared_unique).
Defined.

(** C1 as stated fails: [grid_shared] has exactly one solution, and on the
    instance built from the grid object of [store_shared], whose rows 0 and
    6 are one list object, [solve_as_csp] returns no grid. *)
Lemma shared_rows_disagree : ¬ solvers_agree_at brute_force grid_shared constructed_shared.
Proof.
  intros Hclaim.
  destruct (Hclaim brute_force_sound brute_force_complete (reachable_shared brute_force)
              grid_solved grid_shared_solves grid_shared_unique)
    as (ra & sa & rb & sb & _ & _ & Hrun & _).
  destruct constructed_shared_csp as (s'' & Hnone).
  rewrite Hnone in Hrun. discriminate Hrun.
Qed.

(** ** The unit clauses *)

(** C2, as the code has it: [solve_as_sat] adds a unit clause for every
    one of the 81 cells, blank or not.  For every cell [(row, col)] the
    formula has the unit clause [[9 * row + col + 1]], and the atom of
    this identifier is the triple of the cell and its given entry, which
    is [(row, col, 0)] for a blank cell; the formula has no other unit
    clause; and the atom of a blank cell occurs in no other clause: a
    clause with a literal of this atom, negated or not, is the unit clause
    of the cell. *)
Theorem unit_clause_for_every_cell sat_solve G s :
  reachable sat_solve G s →
  ∃ cnf s', encode s = Ok (cnf, s') ∧
    (∀ row col, row < 9 → col < 9 →
       [(Z.of_nat (9 * row + col) + 1)%Z] ∈ cnf ∧
       id_atom s' !! (Z.of_nat (9 * row + col) + 1)%Z = Some (row, col, cell G row col)) ∧
    (∀ l, [l] ∈ cnf →
       ∃ row col, row < 9 ∧ col < 9 ∧ l = (Z.of_nat (9 * row + col) + 1)%Z) ∧
    (∀ row col, row < 9 → col < 9 → cell G row col = 0%Z →
       ∀ c l, c ∈ cnf → l ∈ c → Z.abs l = (Z.of_nat (9 * row + col) + 1)%Z →
         c = [(Z.of_nat (9 * row + col) + 1)%Z]).
Proof.
  intros Hreach. pose proof (reachable_inv sat_solve G s Hreach) as Hinv.
  destruct (unit_clauses G s Hinv) as (cnf & s' & Hrun & Hunits & Hothers).
  destruct (lone_atom G s Hinv) as (cnf' & s'' & Hrun' & Hlone).
  rewrite Hrun in Hrun'. injection Hrun' as <- <-.
  exists cnf, s'. split; [exact Hrun|]. split; [exact Hunits|]. split; [exact Hothers|].
  intros row col Hr Hc Hblank. apply (Hlone row col Hr Hc). lia.
Qed.

Lemma unit_clause_for_every_cell_witness :
  reachable brute_force grid_blanks (constructed grid_blanks) ∧
  cell grid_blanks 0 0 = 0%Z ∧
  ∃ cnf s', encode (constructed grid_blanks) = Ok (cnf, s') ∧
    (∀ row col, row < 9 → col < 9 →
       [(Z.of_nat (9 * row + col) + 1)%Z] ∈ cnf ∧
       id_atom s' !! (Z.of_nat (9 * row + col) + 1)%Z =
         Some (row, col, cell grid_blanks row col)) ∧
    (∀ l, [l] ∈ cnf →
       ∃ row col, row < 9 ∧ col < 9 ∧ l = (Z.of_nat (9 * row + col) + 1)%Z) ∧
    (∀ row col, row < 9 → col < 9 → cell grid_blanks row col = 0%Z →
       ∀ c l, c ∈ cnf → l ∈ c → Z.abs l = (Z.of_nat (9 * row + col) + 1)%Z →
         c = [(Z.of_nat (9 * row + col) + 1)%Z]).
Proof.
  split; [exact (reachable_constructed brute_force grid_blanks grid_blanks_dims)|].
  split; [reflexivity|].
  exact (unit_clause_for_every_cell brute_force grid_blanks (constructed grid_blanks)
           (reachable_constructed brute_force grid_blanks grid_blanks_dims)).
Defined.

(** C2 as stated fails: in the formula of [grid_blanks] the blank cell
    (0, 0) has a unit clause, on the atom of the triple (0, 0, 0). *)
Lemma blank_cell_has_unit_clause :
  ¬ ∀ cnf s', encode (constructed grid_blanks) = Ok (cnf, s') →
              unit_clauses_for_givens_only grid_blanks cnf s'.
Proof.
  intros Hclaim.
  destruct (unit_clauses grid_blanks (constructed grid_blanks)
              (constructed_inv grid_blanks grid_blanks_dims))
    as (cnf & s' & Hrun & Hunits & _).
  destruct (Hunits 0 0 ltac:(lia) ltac:(lia)) as [Hclause Hatom].
  apply (proj1 (Hclaim cnf s' Hrun 0 0 ltac:(lia) ltac:(lia))); [|reflexivity].
  exists 1%Z, 0%Z. split; [exact Hclause|exact Hatom].
Qed.

(** ** The life of the atom tables *)

(** C8, as the code has it: the atom tables are created empty once, by the
    constructor, and no method clears them.  A call of [solve_as_sat]
    keeps every entry that it finds, with its identifier; after it the
    tables are those of the first encoding of the grid, which are not
    empty; a call that finds the tables filled leaves them as they are: it
    reuses the identifiers of the earlier call; and [solve_as_csp] does
    not touch the tables. *)
Theorem registry_persists sat_solve G s res s' :
  reachable sat_solve G s → solve_as_sat sat_solve s = Ok (res, s') →
  (∀ h r s0, init h r = Ok s0 → atom_id s0 = ∅ ∧ id_atom s0 = ∅) ∧
  (∀ t i, atom_id s !! t = Some i →
          atom_id s' !! t = Some i ∧ id_atom s' !! i = Some t) ∧
  same_tables s' (encoded G) ∧ atom_id s' ≠ ∅ ∧
  (atom_id s ≠ ∅ → same_tables s s') ∧
  (∀ res1 s1, solve_as_csp s' = Ok (res1, s1) → same_tables s' s1).
Proof.
  intros Hreach Hrun. pose proof (reachable_inv sat_solve G s Hreach) as Hinv.
  destruct (solve_as_sat_frame sat_solve s G res s' Hinv Hrun) as (_ & _ & Henc).
  pose proof (reachable_inv sat_solve G s' (reachable_sat sat_solve G s res s' Hreach Hrun))
    as (HG' & Hd & _).
  split.
  { intros h r s0 Hinit. unfold init in Hinit.
    destruct (h !! r) as [g|]; [|discriminate Hinit].
    repeat case_match; try discriminate Hinit; injection Hinit as <-; by split. }
  assert (atom_id s' ≠ ∅) as Hfilled.
  { destruct Henc as [-> _]. exact (encoded_not_empty G). }
  assert (∀ res1 s1, solve_as_csp s' = Ok (res1, s1) → same_tables s' s1) as Hcsp.
  { intros res1 s1 Hrun1.
    destruct (proj1 (store_lookup_Some _ _ _) HG') as (rr & Hrr & _).
    destruct (solve_as_csp_run s' G rr HG' Hrr Hd) as (s'' & Hrun' & Hsame & _).
    rewrite Hrun' in Hrun1. injection Hrun1 as _ <-.
    destruct Hsame as (_ & Ha & Hi & _). split; [symmetry; exact Ha|symmetry; exact Hi]. }
  destruct Hinv as (_ & _ & [[Ha Hi]|[Ha Hi]]).
  - split; [|split; [exact Henc|split; [exact Hfilled|split; [|exact Hcsp]]]].
    + intros t i Ht. rewrite Ha in Ht. cbn [fresh atom_id] in Ht.
      rewrite lookup_empty in Ht. discriminate Ht.
    + intros Hne. destruct Hne. exact Ha.
  - destruct Henc as [Ha' Hi'].
    split; [|split; [split; [exact Ha'|exact Hi']|split; [exact Hfilled|split; [|exact Hcsp]]]].
    + intros t i Ht. rewrite Ha', Hi'. rewrite Ha in Ht. split; [exact Ht|].
      destruct (encoded_wf G) as (Hfwd & _ & _). exact (Hfwd t i Ht).
    + intros _. split; [rewrite Ha, Ha'|rewrite Hi, Hi']; reflexivity.
Qed.

(** Two calls in a row on the instance of [grid_blanks], with an oracle
    that finds the model: the second call starts from the tables that the
    first one filled. *)
Lemma registry_persists_witness :
  ∃ r1 s1 r2 s2,
    solve_as_sat brute_force (constructed grid_blanks) = Ok (Some r1, s1) ∧
    solve_as_sat brute_force s1 = Ok (Some r2, s2) ∧
    atom_id s1 ≠ ∅ ∧
    (∀ t i, atom_id s1 !! t = Some i →
            atom_id s2 !! t = Some i ∧ id_atom s2 !! i = Some t) ∧
    same_tables s2 (encoded grid_blanks) ∧
    same_tables s1 s2.
Proof.
  destruct grid_blanks_sat_twice as (r1 & s1 & r2 & s2 & Hrun1 & Hrun2).
  pose proof (reachable_constructed brute_force grid_blanks grid_blanks_dims) as Hreach0.
  pose proof (reachable_sat brute_force grid_blanks _ _ _ Hreach0 Hrun1) as Hreach1.
  destruct (solve_as_sat_frame brute_force _ grid_blanks _ s1
              (reachable_inv brute_force _ _ Hreach0) Hrun1) as (_ & _ & [Ha1 _]).
  assert (atom_id s1 ≠ ∅) as Hfilled.
  { rewrite Ha1. exact (encoded_not_empty grid_blanks). }
  destruct (registry_persists brute_force grid_blanks s1 (Some r2) s2 Hreach1 Hrun2)
    as (_ & Hkeeps & Henc & _ & Hsame & _).
  exists r1, s1, r2, s2.
  split; [exact Hrun1|]. split; [exact Hrun2|]. split; [exact Hfilled|].
  split; [exact Hkeeps|]. split; [exact Henc|exact (Hsame Hfilled)].
Defined.

(** C8 as stated fails: after one call of [solve_as_sat] the instance is
    in a state whose tables are not empty, and the next call starts from
    these tables. *)
Lemma registry_not_fresh : ¬ registry_fresh_at_call brute_force grid_blanks.
Proof.
  intros Hclaim.
  pose proof (reachable_constructed brute_force grid_blanks grid_blanks_dims) as Hreach0.
  destruct grid_blanks_sat_run as (r & s' & Hrun).
  pose proof (reachable_sat brute_force grid_blanks _ _ s' Hreach0 Hrun) as Hreach.
  destruct (solve_as_sat_frame brute_force _ grid_blanks _ s'
              (reachable_inv brute_force _ _ Hreach0) Hrun) as (_ & _ & [Ha _]).
  destruct (Hclaim s' Hreach) as [Hempty _].
  apply (encoded_not_empty grid_blanks). rewrite <- Ha. exact Hempty.
Qed.

(** * Further properties of the solve methods *)

(** X1: with an oracle that only returns models, the grid that
    [solve_as_sat] returns for a puzzle of blanks and digits, given as a
    list of distinct row objects, is a solved Sudoku of the puzzle: digits
    1..9 everywhere, the given digits kept, and no digit twice in a row,
    column or box. *)
Theorem solve_as_sat_solves sat_solve G s r s' :
  oracle_sound sat_solve → reachable sat_solve G s → distinct_rows s → proper G →
  solve_as_sat sat_solve s = Ok (Some r, s') →
  ∃ sol, heap s' !! r = Some sol ∧ solves G sol.
Proof.
  intros Hsound Hreach Hdist Hproper Hrun.
  pose proof (reachable_inv sat_solve G s Hreach) as Hinv.
  pose proof (solve_as_sat_distinct sat_solve Hsound G s Hinv Hdist) as Hcases.
  destruct (sat_solve (interp (encoded G) (sym_cnf G))) as [m|].
  - destruct Hcases as (Hmodel & s'' & Hrun' & _ & Hval).
    rewrite Hrun' in Hrun. injection Hrun as <- <-.
    destruct Hinv as (_ & Hd & _).
    exists (decode_grid (id_atom (encoded G)) m G). split; [exact Hval|].
    by apply sat_decoded_solves.
  - destruct Hcases as (s'' & Hrun' & _). rewrite Hrun' in Hrun. discriminate Hrun.
Qed.

Lemma solve_as_sat_solves_witness :
  ∃ r s' sol, solve_as_sat brute_force (constructed grid_blanks) = Ok (Some r, s') ∧
              heap s' !! r = Some sol ∧ solves grid_blanks sol.
Proof.
  destruct grid_blanks_sat_run as (r & s' & Hrun).
  destruct (solve_as_sat_solves brute_force grid_blanks (constructed grid_blanks) r s'
              brute_force_sound
              (reachable_constructed brute_force grid_blanks grid_blanks_dims)
              (store_of_distinct grid_blanks)
              grid_blanks_proper Hrun) as (sol & Hsol).
  exists r, s', sol. split; [exact Hrun|exact Hsol].
Defined.

(** X2: with a sound and complete oracle, [solve_as_sat] on a puzzle of
    blanks and digits returns [None] exactly when the puzzle has no
    solution. *)
Theorem solve_as_sat_none_iff sat_solve G s :
  oracle_sound sat_solve → oracle_complete sat_solve →
  reachable sat_solve G s → proper G →
  ∃ res s', solve_as_sat sat_solve s = Ok (res, s') ∧
            (res = None ↔ ¬ ∃ S, solves G S).
Proof.
  intros Hsound Hcomplete Hreach Hproper.
  pose proof (reachable_inv sat_solve G s Hreach) as Hinv.
  pose proof Hinv as (HG & Hd & _).
  destruct (proj1 (store_lookup_Some _ _ _) HG) as (rr & Hrr & _).
  pose proof (solve_as_sat_cases sat_solve Hsound G rr s Hinv Hrr) as Hcases.
  destruct (sat_solve (interp (encoded G) (sym_cnf G))) as [m|] eqn:Hanswer.
  - destruct Hcases as (Hmodel & s' & ys & Hrun & _).
    exists (Some (length (grid_objs (heap s)))), s'. split; [exact Hrun|].
    split; [discriminate|].
    intros Hnone. destruct Hnone.
    exists (decode_grid (id_atom (encoded G)) m G). by apply sat_decoded_solves.
  - destruct Hcases as (s' & Hrun & _). exists None, s'. split; [exact Hrun|].
    split; [|reflexivity]. intros _ [S HS].
    destruct (sat_satisfiable G S HS) as [m Hm].
    rewrite (Hcomplete _ Hanswer m) in Hm. discriminate Hm.
Qed.

Lemma solve_as_sat_none_iff_witness :
  ∃ res s', solve_as_sat brute_force (constructed grid_blanks) = Ok (res, s') ∧
            (res = None ↔ ¬ ∃ S, solves grid_blanks S).
Proof.
  exact (solve_as_sat_none_iff brute_force grid_blanks (constructed grid_blanks)
           brute_force_sound brute_force_complete
           (reachable_constructed brute_force grid_blanks grid_blanks_dims)
           grid_blanks_proper).
Defined.

(** X3: [solve_as_csp] on a puzzle of blanks and digits, given as a list
    of distinct row objects, returns [None] exactly when the puzzle has no
    solution; no oracle is involved. *)
Theorem solve_as_csp_none_iff sat_solve G s :
  reachable sat_solve G s → distinct_rows s → proper G →
  ∃ res s', solve_as_csp s = Ok (res, s') ∧ (res = None ↔ ¬ ∃ S, solves G S).
Proof.
  intros Hreach Hdist Hproper. pose proof (reachable_inv sat_solve G s Hreach) as Hinv.
  pose proof Hinv as (_ & Hd & _).
  destruct (solve_as_csp_distinct s G Hinv Hdist) as (s' & Hrun & _ & Hout).
  pose proof (search_spec search_depth G G 0 0 Hd Hd ltac:(left; lia)
                ltac:(unfold search_depth, idx; lia) ltac:(by intros ???)) as Hspec.
  destruct (search search_depth G G 0 0) as [sol|].
  - destruct Hout as (r & Hr & _). destruct Hspec as [Hext _].
    exists (Some r), s'. rewrite Hrun, Hr. split; [reflexivity|].
    split; [discriminate|]. intros Hnone. destruct Hnone.
    exists sol. by apply extends_proper.
  - exists None, s'. rewrite Hrun, Hout. split; [reflexivity|].
    split; [|reflexivity]. intros _ [S HS]. apply (Hspec S). by apply solves_extends.
Qed.

Lemma solve_as_csp_none_iff_witness :
  ∃ res s', solve_as_csp (constructed grid_blanks) = Ok (res, s') ∧
            (res = None ↔ ¬ ∃ S, solves grid_blanks S).
Proof.
  exact (solve_as_csp_none_iff brute_force grid_blanks (constructed grid_blanks)
           (reachable_constructed brute_force grid_blanks grid_blanks_dims)
           (store_of_distinct grid_blanks) grid_blanks_proper).
Defined.

(** X4: whatever integers the 9x9 grid holds, a grid returned by
    [solve_as_csp] keeps every non-zero entry of the given grid as it is
    (also an entry that is no digit), holds a digit 1..9 in every cell
    that was blank, and has pairwise distinct entries in every row, column
    and box. *)
Theorem solve_as_csp_keeps_entries sat_solve G s r s' :
  reachable sat_solve G s → solve_as_csp s = Ok (Some r, s') →
  ∃ sol, heap s' !! r = Some sol ∧ dims_ok sol ∧ consistent sol ∧
    ∀ row col, row < 9 → col < 9 →
      (cell G row col ≠ 0%Z → cell sol row col = cell G row col) ∧
      (cell G row col = 0%Z → (1 ≤ cell sol row col ≤ 9)%Z).
Proof.
  intros Hreach Hrun. destruct (reachable_inv sat_solve G s Hreach) as (HG & Hd & _).
  destruct (proj1 (store_lookup_Some _ _ _) HG) as (rr & Hrr & _).
  destruct (solve_as_csp_run s G rr HG Hrr Hd) as (s'' & Hrun' & _ & Hout).
  rewrite Hrun' in Hrun. injection Hrun as Hres <-.
  destruct (instance_shared_rows G s rr HG Hrr Hd) as [_ Hrows].
  destruct (search_shared rr search_depth G G 0 0) as [sol|] eqn:Hsearch.
  - destruct Hout as (r' & Hr' & Hlook). rewrite Hr' in Hres. injection Hres as ->.
    destruct (search_shared_keeps rr search_depth G G 0 0 sol Hrows Hd
                ltac:(left; lia) ltac:(by intros) ltac:(unfold idx; intros; lia) Hsearch)
      as (Hds & Hcons & Hgiven & Hblank).
    exists sol. split_and!; [exact Hlook|exact Hds|exact Hcons|].
    intros row col Hr Hc. split; [by apply Hgiven|by apply Hblank].
  - rewrite Hout in Hres. discriminate Hres.
Qed.

Lemma solve_as_csp_keeps_entries_witness :
  ∃ r s' sol, solve_as_csp (constructed grid_blanks) = Ok (Some r, s') ∧
    heap s' !! r = Some sol ∧ dims_ok sol ∧ consistent sol ∧
    ∀ row col, row < 9 → col < 9 →
      (cell grid_blanks row col ≠ 0%Z → cell sol row col = cell grid_blanks row col) ∧
      (cell grid_blanks row col = 0%Z → (1 ≤ cell sol row col ≤ 9)%Z).
Proof.
  pose proof (reachable_constructed brute_force grid_blanks grid_blanks_dims) as Hreach.
  destruct grid_blanks_csp_run as (r & s' & Hrun).
  destruct (solve_as_csp_keeps_entries brute_force grid_blanks
              (constructed grid_blanks) r s' Hreach Hrun) as (sol & Hsol).
  exists r, s', sol. split; [exact Hrun|exact Hsol].
Defined.

(** ** Objects and fields after a call *)

(** The decoding loop allocates no row object. *)
Lemma decode_length model : ∀ s s',
  decode model s = Ok (tt, s') →
  length (row_objs (heap s')) = length (row_objs (heap s)).
Proof.
  unfold decode. induction model as [|v model IH]; intros s s'; simpl.
  { by intros [= <-]. }
  intros ([] & s1 & Hstep & Hrest)%bind_Ok.
  rewrite (IH _ _ Hrest).
  destruct (0 <? v)%Z; [|by injection Hstep as <-].
  apply bind_Ok in Hstep as (entry & s2 & [= <- <-] & Hstep).
  destruct (id_atom s !! v) as [[[row col] number]|]; [|done].
  apply bind_Ok in Hstep as (sol & s2 & [= <- <-] & Hstep).
  destruct (solution s) as [r|]; [|done].
  apply setitem_inv in Hstep as (rr & x & line & _ & _ & ->). simpl.
  by rewrite length_insert.
Qed.

(** A call of [solve_as_sat] that returns, whatever the oracle answers. *)
Lemma solve_as_sat_ok sat_solve G s res s' :
  instance_inv G s → solve_as_sat sat_solve s = Ok (res, s') →
  (res = None ∧ heap s' = heap s ∧ solution s' = None ∧ solution_found s' = false) ∨
  (res = Some (length (grid_objs (heap s))) ∧
   (∃ ys, grid_objs (heap s') = grid_objs (heap s) ++ [ys] ∧
          Forall (λ y, length (row_objs (heap s)) ≤ y < length (row_objs (heap s'))) ys) ∧
   solution s' = res ∧ solution_found s' = true).
Proof.
  intros (HG & Hd & Htab) Hrun.
  destruct (proj1 (store_lookup_Some _ _ _) HG) as (rr & Hrr & _).
  destruct (solve_as_sat_run sat_solve s G rr HG Hrr Hd Htab)
    as (s1 & ys & rws & _ & Hheap & _ & Hsol & Hfound & _ & Hval & _ & Hnew & Heq).
  rewrite Heq in Hrun. clear Heq. destruct (sat_solve _) as [model|].
  - right. apply bind_Ok in Hrun as ([] & s2 & Hdec & Hget).
    pose proof (decode_length _ _ _ Hdec) as Hlen.
    apply (decode_inv _ _ _ (length (grid_objs (heap s))) ys
             (length (row_objs (heap s)))) in Hdec as (rws' & -> & _);
      [|reflexivity|simpl; by rewrite lookup_app_r, Nat.sub_diag by lia|exact Hnew].
    injection Hget as <- <-. simpl in *. split_and!; [done| |done..].
    exists ys. split; [done|]. rewrite Hlen.
    apply deref_valid in Hval. rewrite Forall_forall in Hval, Hnew.
    apply Forall_forall. intros y Hy. split; [by apply Hnew|by apply Hval].
  - left. injection Hrun as <- <-. by split_and!.
Qed.

(** X5: the grid that [solve_as_sat] returns is always a new object: its
    reference did not exist in the store before the call, so it is not
    the given grid object; its rows are new row objects as well, none of
    them is a row of the given grid; and the call adds exactly this one
    grid object. *)
Theorem solve_as_sat_new_object sat_solve G s r s' :
  reachable sat_solve G s → solve_as_sat sat_solve s = Ok (Some r, s') →
  heap s !! r = None ∧ r ≠ self_grid s ∧ is_Some (heap s' !! r) ∧
  length (grid_objs (heap s')) = S (length (grid_objs (heap s))) ∧
  ∃ ys, grid_objs (heap s') !! r = Some ys ∧
        Forall (λ y, row_objs (heap s) !! y = None ∧ is_Some (row_objs (heap s') !! y)) ys.
Proof.
  intros Hreach Hrun. pose proof (reachable_inv sat_solve G s Hreach) as Hinv.
  destruct (solve_as_sat_ok sat_solve G s _ s' Hinv Hrun)
    as [(Hres & _)|(Hres & (ys & Hobjs & Hys) & _)]; [discriminate Hres|].
  injection Hres as ->. destruct Hinv as (HG & _).
  apply store_lookup_Some in HG as (rr & Hrr & _). apply lookup_lt_Some in Hrr.
  assert (grid_objs (heap s') !! length (grid_objs (heap s)) = Some ys) as Hlook.
  { by rewrite Hobjs, lookup_app_r, Nat.sub_diag by lia. }
  assert (Forall (λ y, row_objs (heap s) !! y = None ∧ is_Some (row_objs (heap s') !! y)) ys)
    as Hrows.
  { eapply Forall_impl; [exact Hys|]. intros y [Hlo Hhi]. split.
    - by apply lookup_ge_None_2.
    - by apply lookup_lt_is_Some_2. }
  split_and!.
  - destruct (heap s !! length (grid_objs (heap s))) as [g|] eqn:Hg; [|reflexivity].
    apply store_lookup_Some in Hg as (rr' & Hrr' & _). apply lookup_lt_Some in Hrr'. lia.
  - lia.
  - assert (is_Some (deref (row_objs (heap s')) ys)) as [g Hg].
    { apply mapM_is_Some. eapply Forall_impl; [exact Hrows|]. by intros y [_ Hy]. }
    exists g. apply store_lookup_Some. by exists ys.
  - rewrite Hobjs, length_app. simpl. lia.
  - by exists ys.
Qed.

Lemma solve_as_sat_new_object_witness :
  ∃ r s', solve_as_sat brute_force (constructed grid_blanks) = Ok (Some r, s') ∧
          heap (constructed grid_blanks) !! r = None ∧ r ≠ 0 ∧
          is_Some (heap s' !! r) ∧ length (grid_objs (heap s')) = 2 ∧
          ∃ ys, grid_objs (heap s') !! r = Some ys ∧
                Forall (λ y, row_objs (store_of grid_blanks) !! y = None ∧
                             is_Some (row_objs (heap s') !! y)) ys.
Proof.
  destruct grid_blanks_sat_run as (r & s' & Hrun). exists r, s'. split; [exact Hrun|].
  exact (solve_as_sat_new_object brute_force grid_blanks (constructed grid_blanks) r s'
           (reachable_constructed brute_force grid_blanks grid_blanks_dims) Hrun).
Defined.

(** The search on a consistent grid without blank cells walks over the
    cells and records the grid object it was given. *)
Lemma csp_search_full fuel : ∀ s row col G,
  heap s !! self_grid s = Some G → dims_ok G → checkb G = true →
  (∀ r c, r < 9 → c < 9 → cell G r c ≠ 0%Z) →
  solution_found s = false →
  cursor_ok row col → 82 ≤ fuel + idx row col →
  csp_search fuel (self_grid s) row col s =
  Ok (tt, set_solution (Some (self_grid s)) (set_solution_found true s)).
Proof.
  induction fuel as [|fuel IH]; intros s row col G HG Hd Hcheck Hfull Hfound Hcur Hfuel.
  { unfold cursor_ok, idx in *. lia. }
  cbn [csp_search]. change (9 - 1) with 8.
  rewrite (bind_step _ _ s (solution_found s) s) by reflexivity. rewrite Hfound.
  rewrite (bind_step _ _ _ _ _ (check_constraints_eq s _ G HG Hd)), Hcheck. cbn [negb].
  destruct (row =? 9) eqn:Hrow; [reflexivity|].
  apply Nat.eqb_neq in Hrow. destruct Hcur as [[Hr Hc]|[? _]]; [|done].
  rewrite (bind_step _ _ s (self_grid s) s) by reflexivity.
  rewrite (bind_step _ _ _ _ _ (getitem_cell s _ G row col HG Hd Hr Hc)).
  replace (cell G row col =? 0)%Z with false
    by (symmetry; apply Z.eqb_neq; by apply Hfull).
  cbn [negb].
  destruct (cursor_next row col Hr Hc) as [(-> & Hnext & Hidx)|(-> & Hnext & Hidx)];
    apply (IH s _ _ G); (done || lia).
Qed.

(** X6: for a consistent grid without blank cells [solve_as_csp] makes
    no copy: it returns the given grid object itself (the caller gets back
    the very list that was passed to the constructor) and leaves the store
    as it was. *)
Theorem solve_as_csp_returns_given_object sat_solve G s :
  reachable sat_solve G s →
  (∀ row col, row < 9 → col < 9 → cell G row col ≠ 0%Z) → consistent G →
  ∃ s', solve_as_csp s = Ok (Some (self_grid s), s') ∧ heap s' = heap s.
Proof.
  intros Hreach Hfull Hcons. destruct (reachable_inv sat_solve G s Hreach) as (HG & Hd & _).
  apply checkb_consistent in Hcons; [|done]. unfold solve_as_csp.
  set (s0 := set_solution_found false (set_solution None s)).
  rewrite (bind_step _ _ s tt (set_solution None s)) by reflexivity.
  rewrite (bind_step _ _ _ tt s0) by reflexivity.
  rewrite (bind_step _ _ s0 (self_grid s0) s0) by reflexivity.
  rewrite (bind_step _ _ _ _ _
             (csp_search_full search_depth s0 0 0 G HG Hd Hcons Hfull eq_refl
                ltac:(left; lia) ltac:(unfold search_depth, idx; lia))).
  eexists. split; reflexivity.
Qed.

Lemma solve_as_csp_returns_given_object_witness :
  ∃ s', solve_as_csp (constructed grid_solved) = Ok (Some 0, s') ∧
        heap s' = store_of grid_solved.
Proof.
  apply (solve_as_csp_returns_given_object brute_force grid_solved (constructed grid_solved)
           (reachable_constructed brute_force grid_solved grid_solved_dims)).
  - intros row col Hr Hc. destruct grid_solved_solves as (_ & Hdigits & _).
    specialize (Hdigits row col Hr Hc). lia.
  - exact (proj2 (proj2 (proj2 grid_solved_solves))).
Defined.

(** ** Repeated calls and the formula *)

(** X7: with a sound oracle, [solve_as_sat] gives the same answer in all
    states of an instance: two calls in states in which the given grid
    object holds the same row objects, whatever was called before each of
    them, both return [None] or return grids with the same entries. *)
Theorem solve_as_sat_repeatable sat_solve G s1 s2 :
  oracle_sound sat_solve → reachable sat_solve G s1 → reachable sat_solve G s2 →
  grid_objs (heap s1) !! self_grid s1 = grid_objs (heap s2) !! self_grid s2 →
  ∃ res1 s1' res2 s2',
    solve_as_sat sat_solve s1 = Ok (res1, s1') ∧
    solve_as_sat sat_solve s2 = Ok (res2, s2') ∧
    (res1 ≫= λ r, heap s1' !! r) = (res2 ≫= λ r, heap s2' !! r).
Proof.
  intros Hsound Hreach1 Hreach2 Hsame.
  pose proof (reachable_inv sat_solve G s1 Hreach1) as Hinv1.
  pose proof (reachable_inv sat_solve G s2 Hreach2) as Hinv2.
  destruct (proj1 (store_lookup_Some _ _ _) (proj1 Hinv1)) as (rr & Hrr1 & _).
  assert (grid_objs (heap s2) !! self_grid s2 = Some rr) as Hrr2 by congruence.
  pose proof (solve_as_sat_cases sat_solve Hsound G rr s1 Hinv1 Hrr1) as Hcases1.
  pose proof (solve_as_sat_cases sat_solve Hsound G rr s2 Hinv2 Hrr2) as Hcases2.
  destruct (sat_solve (interp (encoded G) (sym_cnf G))) as [m|].
  - destruct Hcases1 as (_ & s1' & ys1 & Hrun1 & _ & _ & _ & Hval1).
    destruct Hcases2 as (_ & s2' & ys2 & Hrun2 & _ & _ & _ & Hval2).
    exists (Some (length (grid_objs (heap s1)))), s1',
           (Some (length (grid_objs (heap s2)))), s2'.
    split; [exact Hrun1|]. split; [exact Hrun2|].
    cbn [mbind option_bind]. rewrite Hval1, Hval2. reflexivity.
  - destruct Hcases1 as (s1' & Hrun1 & _). destruct Hcases2 as (s2' & Hrun2 & _).
    exists None, s1', None, s2'. split; [exact Hrun1|]. split; [exact Hrun2|reflexivity].
Qed.

Lemma solve_as_sat_repeatable_witness :
  ∃ r s2 res1 s1' res2 s2',
    solve_as_csp (constructed grid_blanks) = Ok (Some r, s2) ∧
    solve_as_sat brute_force (constructed grid_blanks) = Ok (res1, s1') ∧
    solve_as_sat brute_force s2 = Ok (res2, s2') ∧
    (res1 ≫= λ r, heap s1' !! r) = (res2 ≫= λ r, heap s2' !! r).
Proof.
  pose proof (reachable_constructed brute_force grid_blanks grid_blanks_dims) as Hreach.
  destruct grid_blanks_csp_run as (r & s2 & Hrun).
  destruct (solve_as_csp_run (constructed grid_blanks) grid_blanks (seq 0 9)
              (store_of_lookup grid_blanks) eq_refl grid_blanks_dims)
    as (s2' & Hrun' & Hsame & _).
  rewrite Hrun in Hrun'. injection Hrun' as _ ->.
  destruct (solve_as_sat_repeatable brute_force grid_blanks (constructed grid_blanks) s2'
              brute_force_sound Hreach
              (reachable_csp brute_force grid_blanks _ _ _ Hreach Hrun))
    as (res1 & s1' & res2 & s3 & Hrun1 & Hrun2 & Heq).
  { destruct Hsame as (Hgrid & _ & _ & Hpre). symmetry. rewrite Hgrid.
    exact (store_prefix_objs _ _ 0 (seq 0 9) Hpre eq_refl). }
  exists r, s2', res1, s1', res2, s3.
  split; [exact Hrun|]. split; [exact Hrun1|]. split; [exact Hrun2|exact Heq].
Defined.




Lemma atom_calls_wf s s' : reg_wf s → atom_calls s s' → reg_wf s'.
Proof.
  intros Hwf. induction 1 as [|s s1 s2 row col number i _ IH Hcall]; [done|].
  rewrite atom_register in Hcall. injection Hcall as _ <-. by apply register_wf, IH.
Qed.

(** X9: in every state of an instance, also between calls of [__atom],
    the two atom tables are inverse to each other, the identifiers in use
    are exactly 1 .. len(__atom_id), and different triples have different
    identifiers. *)
Theorem registry_well_formed sat_solve G s s' :
  reachable sat_solve G s → atom_calls s s' →
  (∀ t i, atom_id s' !! t = Some i ↔ id_atom s' !! i = Some t) ∧
  (∀ i, is_Some (id_atom s' !! i) ↔ (1 ≤ i ≤ Z.of_nat (size (atom_id s')))%Z) ∧
  (∀ t1 t2 i, atom_id s' !! t1 = Some i → atom_id s' !! t2 = Some i → t1 = t2).
Proof.
  intros Hreach Hcalls.
  assert (reg_wf s') as (Hfwd & Hbwd & Hdense).
  { apply (atom_calls_wf s); [|exact Hcalls].
    destruct (reachable_inv sat_solve G s Hreach) as (_ & _ & [[Ha Hi]|[Ha Hi]]).
    - apply (same_tables_wf fresh s); [|exact fresh_wf].
      split; [symmetry; exact Ha|symmetry; exact Hi].
    - apply (same_tables_wf (encoded G) s); [|exact (encoded_wf G)].
      split; [symmetry; exact Ha|symmetry; exact Hi]. }
  split_and!.
  - intros t i. split; [apply Hfwd|]. intros Hi. by apply Hbwd.
  - intros i. split; [|apply Hdense]. intros [t Ht]. by apply (Hbwd i t).
  - intros t1 t2 i H1 H2. apply Hfwd in H1, H2. congruence.
Qed.

Lemma registry_well_formed_witness :
  ∃ s', atom 4 4 7 (constructed grid_blanks) = Ok (1%Z, s') ∧
    (∀ t i, atom_id s' !! t = Some i ↔ id_atom s' !! i = Some t) ∧
    (∀ i, is_Some (id_atom s' !! i) ↔ (1 ≤ i ≤ Z.of_nat (size (atom_id s')))%Z) ∧
    (∀ t1 t2 i, atom_id s' !! t1 = Some i → atom_id s' !! t2 = Some i → t1 = t2).
Proof.
  eexists. split; [reflexivity|].
  apply (registry_well_formed brute_force grid_blanks (constructed grid_blanks)).
  - exact (reachable_constructed brute_force grid_blanks grid_blanks_dims).
  - apply (atom_calls_step _ _ _ 4 4 7 1%Z (atom_calls_refl _)). reflexivity.
Defined.


(** ** Edge cases of the search *)

(** A call of [__csp_search] on a grid that fails the check returns at
    once. *)
Lemma csp_search_clash fuel s gref row col g :
  heap s !! gref = Some g → dims_ok g → checkb g = false → solution_found s = false →
  csp_search (S fuel) gref row col s = Ok (tt, s).
Proof.
  intros Hg Hd Hcheck Hfound. cbn [csp_search].
  rewrite (bind_step _ _ s (solution_found s) s) by reflexivity. rewrite Hfound.
  rewrite (bind_step _ _ _ _ _ (check_constraints_eq s gref g Hg Hd)), Hcheck.
  reflexivity.
Qed.

(** X10: when the given grid already has an entry twice in a row, column
    or box, [solve_as_csp] returns [None] after the first check: it makes
    no copy of the grid and leaves the store as it was. *)
Theorem solve_as_csp_clash sat_solve G s :
  reachable sat_solve G s → ¬ consistent G →
  ∃ s', solve_as_csp s = Ok (None, s') ∧ heap s' = heap s.
Proof.
  intros Hreach Hclash. destruct (reachable_inv sat_solve G s Hreach) as (HG & Hd & _).
  assert (checkb G = false) as Hcheck.
  { destruct (checkb G) eqn:Hc; [|reflexivity]. destruct Hclash. by apply checkb_consistent. }
  unfold solve_as_csp.
  set (s0 := set_solution_found false (set_solution None s)).
  rewrite (bind_step _ _ s tt (set_solution None s)) by reflexivity.
  rewrite (bind_step _ _ _ tt s0) by reflexivity.
  rewrite (bind_step _ _ s0 (self_grid s0) s0) by reflexivity.
  change search_depth with (S 81).
  rewrite (bind_step _ _ _ _ _
             (csp_search_clash 81 s0 (self_grid s0) 0 0 G HG Hd Hcheck eq_refl)).
  eexists. split; reflexivity.
Qed.

Lemma solve_as_csp_clash_witness :
  ∃ s', solve_as_csp (constructed grid_clash) = Ok (None, s') ∧ heap s' = store_of grid_clash.
Proof.
  apply (solve_as_csp_clash brute_force grid_clash (constructed grid_clash)
           (reachable_constructed brute_force grid_clash grid_clash_dims)).
  intros Hcons. apply (checkb_consistent grid_clash grid_clash_dims) in Hcons.
  vm_compute in Hcons. discriminate Hcons.
Defined.

(** ** Every solution can be returned *)

(** The assignment that a solved grid stands for is a model of the
    formula. *)
Lemma model_of_is_model G S :
  solves G S →
  is_model (interp (encoded G) (sym_cnf G))
    (model_of (id_atom (encoded G)) G S (nvars (interp (encoded G) (sym_cnf G)))) = true.
Proof.
  intros HS. pose proof (encoded_wf G) as Hwf.
  pose proof (encoded_registered G) as Hreg.
  pose proof (λ c l, lit_le_nvars (encoded G) (sym_cnf G) c l) as Hvars.
  revert Hwf Hreg Hvars.
  generalize (encoded G). intros e Hwf Hreg Hvars.
  apply is_model_iff. split.
  - apply model_of_abs.
  - intros c (sc & -> & Hsc)%list_elem_of_fmap.
    destruct (model_of_satisfies G S e _ HS Hwf Hreg Hvars sc Hsc) as (l & Hl & Hm).
    exists (lit_of e l). split; [by apply list_elem_of_fmap_2|exact Hm].
Qed.

(** Decoding this assignment gives the solved grid back. *)
Lemma decode_model_of G S :
  dims_ok G → solves G S →
  decode_grid (id_atom (encoded G))
    (model_of (id_atom (encoded G)) G S (nvars (interp (encoded G) (sym_cnf G)))) G = S.
Proof.
  intros Hd HS. pose proof (model_of_is_model G S HS) as Hmodel.
  apply model_interp in Hmodel as [Habs Hsat].
  pose proof (encoded_wf G) as Hwf.
  pose proof (encoded_registered G) as Hreg.
  assert (∀ row col number, row < 9 → col < 9 → number ≠ cell G row col →
            is_Some (atom_id (encoded G) !! (row, col, number)) →
            (id_of (encoded G) (row, col, cell G row col) <
             id_of (encoded G) (row, col, number))%Z) as Horder.
  { intros row col number Hr Hc Hne [i Hi].
    destruct (encoded_order G row col number Hr Hc Hne) as [Hlt|Hnone]; [exact Hlt|].
    rewrite Hi in Hnone. discriminate Hnone. }
  assert (nvars (interp (encoded G) (sym_cnf G)) ≤ Z.of_nat (size (atom_id (encoded G))))%Z
    as Hvars.
  { apply nvars_interp; [exact Hwf|]. intros t Ht. by apply Hreg. }
  pose proof (λ c l, lit_le_nvars (encoded G) (sym_cnf G) c l) as Hle.
  revert Habs Hsat Hwf Hreg Horder Hvars Hle.
  generalize (nvars (interp (encoded G) (sym_cnf G))). generalize (encoded G).
  intros e n Habs Hsat Hwf Hreg Horder Hvars Hle.
  apply grid_ext; [by apply decode_grid_dims|apply HS|].
  intros r c Hr Hc.
  assert ((1 ≤ cell (decode_grid (id_atom e) (model_of (id_atom e) G S n) G) r c ≤ 9)%Z ∧
          id_of e (r, c, cell (decode_grid (id_atom e) (model_of (id_atom e) G S n) G) r c)
            ∈ model_of (id_atom e) G S n) as [Hdigit Htrue]
    by (by eapply (decoded_digit G e (model_of (id_atom e) G S n) n)).
  revert Hdigit Htrue.
  generalize (cell (decode_grid (id_atom e) (model_of (id_atom e) G S n) G) r c).
  intros d Hdigit Htrue. symmetry.
  apply (truth_cell G S r c d HS Hr Hc Hdigit).
  apply (proj1 (literal_of G S e n Hwf Hreg Hle
                  ((λ number, ((r, c, number), false)) <$> rangeZ 1 10)
                  ((r, c, d), false)
                  ltac:(apply elem_of_sym_cnf; right; left; apply elem_of_sym_cells;
                        by exists r, c)
                  ltac:(apply list_elem_of_fmap; exists d; split; [done|];
                        apply elem_of_rangeZ; lia))).
  exact Htrue.
Qed.

(** X11: the formula loses no solution.  For every solved grid [S] of the
    puzzle there is an assignment such that, when the oracle answers with
    it, [solve_as_sat] on a grid of distinct row objects returns exactly
    [S]; the oracle used here only answers with an assignment after
    checking that it is a model. *)
Theorem solve_as_sat_reaches_every_solution G S :
  solves G S →
  ∃ m, ∀ s, reachable (hint_oracle m) G s → distinct_rows s →
    ∃ r s', solve_as_sat (hint_oracle m) s = Ok (Some r, s') ∧ heap s' !! r = Some S.
Proof.
  intros HS.
  exists (model_of (id_atom (encoded G)) G S (nvars (interp (encoded G) (sym_cnf G)))).
  intros s Hreach Hdist.
  pose proof (reachable_inv _ G s Hreach) as Hinv.
  pose proof (model_of_is_model G S HS) as Hmodel.
  pose proof (decode_model_of G S (proj1 (proj2 Hinv)) HS) as Hdecode.
  revert Hreach Hinv Hmodel Hdecode.
  generalize (model_of (id_atom (encoded G)) G S (nvars (interp (encoded G) (sym_cnf G)))).
  intros m Hreach Hinv Hmodel Hdecode.
  pose proof (solve_as_sat_distinct (hint_oracle m) (hint_oracle_sound m) G s Hinv Hdist)
    as Hcases.
  unfold hint_oracle at 1 in Hcases. rewrite Hmodel in Hcases.
  destruct Hcases as (_ & s' & Hrun & _ & Hval).
  exists (length (grid_objs (heap s))), s'. split; [exact Hrun|].
  rewrite Hval, Hdecode. reflexivity.
Qed.

(** The second solution of [grid_two], which [solve_as_csp] does not
    return. *)
Lemma solve_as_sat_reaches_every_solution_witness :
  ∃ m, ∀ s, reachable (hint_oracle m) grid_two s → distinct_rows s →
    ∃ r s', solve_as_sat (hint_oracle m) s = Ok (Some r, s') ∧
            heap s' !! r = Some grid_swapped.
Proof.
  exact (solve_as_sat_reaches_every_solution grid_two grid_swapped grid_two_solves_swapped).
Defined.

(** X12: [solve_as_csp] gives the same answer in all states of an
    instance, also after calls of [solve_as_sat] and of itself: the flag
    and the solution of an earlier call do not stop or change the search.
    The two states are states in which the given grid object holds the
    same row objects. *)
Theorem solve_as_csp_repeatable sat_solve G s1 s2 :
  reachable sat_solve G s1 → reachable sat_solve G s2 →
  grid_objs (heap s1) !! self_grid s1 = grid_objs (heap s2) !! self_grid s2 →
  ∃ res1 s1' res2 s2',
    solve_as_csp s1 = Ok (res1, s1') ∧ solve_as_csp s2 = Ok (res2, s2') ∧
    (res1 ≫= λ r, heap s1' !! r) = (res2 ≫= λ r, heap s2' !! r).
Proof.
  intros Hreach1 Hreach2 Hsame.
  destruct (reachable_inv sat_solve G s1 Hreach1) as (HG1 & Hd & _).
  destruct (reachable_inv sat_solve G s2 Hreach2) as (HG2 & _ & _).
  destruct (proj1 (store_lookup_Some _ _ _) HG1) as (rr & Hrr1 & _).
  assert (grid_objs (heap s2) !! self_grid s2 = Some rr) as Hrr2 by congruence.
  destruct (solve_as_csp_run s1 G rr HG1 Hrr1 Hd) as (s1' & Hrun1 & _ & Hout1).
  destruct (solve_as_csp_run s2 G rr HG2 Hrr2 Hd) as (s2' & Hrun2 & _ & Hout2).
  exists (solution s1'), s1', (solution s2'), s2'.
  split; [exact Hrun1|]. split; [exact Hrun2|].
  destruct (search_shared rr search_depth G G 0 0) as [sol|].
  - destruct Hout1 as (r1 & -> & Hlook1). destruct Hout2 as (r2 & -> & Hlook2).
    cbn [mbind option_bind]. rewrite Hlook1, Hlook2. reflexivity.
  - rewrite Hout1, Hout2. reflexivity.
Qed.

Lemma solve_as_csp_repeatable_witness :
  ∃ r s2 res1 s1' res2 s2',
    solve_as_sat brute_force (constructed grid_blanks) = Ok (Some r, s2) ∧
    solve_as_csp (constructed grid_blanks) = Ok (res1, s1') ∧
    solve_as_csp s2 = Ok (res2, s2') ∧
    (res1 ≫= λ r, heap s1' !! r) = (res2 ≫= λ r, heap s2' !! r).
Proof.
  pose proof (reachable_constructed brute_force grid_blanks grid_blanks_dims) as Hreach.
  destruct grid_blanks_sat_run as (r & s2 & Hrun).
  destruct (solve_as_sat_frame brute_force _ grid_blanks _ s2
              (reachable_inv brute_force _ _ Hreach) Hrun) as (Hgrid & Hpre & _).
  destruct (solve_as_csp_repeatable brute_force grid_blanks (constructed grid_blanks) s2
              Hreach (reachable_sat brute_force grid_blanks _ _ _ Hreach Hrun))
    as (res1 & s1' & res2 & s2' & Hrun1 & Hrun2 & Heq).
  { symmetry. rewrite Hgrid. exact (store_prefix_objs _ _ 0 (seq 0 9) Hpre eq_refl). }
  exists r, s2, res1, s1', res2, s2'.
  split; [exact Hrun|]. split; [exact Hrun1|]. split; [exact Hrun2|exact Heq].
Defined.

(** ** The recursion budget *)

Lemma bind_mono {A B} (m : M A) (k k' : A → M B) s r :
  (∀ a s1, k a s1 = Ok r → k' a s1 = Ok r) →
  bind m k s = Ok r → bind m k' s = Ok r.
Proof. intros Hk. unfold bind. destruct (m s) as [[a s1]|e]; [apply Hk|done]. Qed.

Lemma for_in_mono {A S} (l : list A) (body body' : A → S → M S) :
  (∀ x acc s r, body x acc s = Ok r → body' x acc s = Ok r) →
  ∀ acc s r, for_in l body acc s = Ok r → for_in l body' acc s = Ok r.
Proof.
  intros Hbody. induction l as [|x l IH]; intros acc s [b s']; cbn [for_in]; [exact id|].
  intros (acc' & s1 & Hx & Hrest)%bind_Ok. apply bind_Ok. exists acc', s1.
  split; [by apply Hbody|by apply IH].
Qed.

(** A call that returns within a budget returns the same with one more
    frame. *)
Lemma csp_search_more fuel : ∀ grid row col s r,
  csp_search fuel grid row col s = Ok r → csp_search (S fuel) grid row col s = Ok r.
Proof.
  induction fuel as [|fuel IH]; intros grid row col s r Hrun; [discriminate Hrun|].
  cbn [csp_search] in Hrun. remember (S fuel) as fuel' eqn:Hfuel.
  cbn [csp_search]. clear Hfuel. revert Hrun.
  apply bind_mono. intros found s1. destruct found; [exact id|].
  apply bind_mono. intros ok s2. destruct (negb ok); [exact id|].
  destruct (row =? 9); [exact id|].
  apply bind_mono. intros g s3. apply bind_mono. intros v s4.
  destruct (negb (v =? 0)%Z).
  - destruct (col =? 9 - 1); apply IH.
  - apply for_in_mono. intros number [] s5 r'.
    apply bind_mono. intros candidate s6. apply bind_mono. intros [] s7.
    destruct (col =? 9 - 1); apply IH.
Qed.

Lemma csp_search_budget fuel k grid row col s r :
  csp_search fuel grid row col s = Ok r → csp_search (fuel + k) grid row col s = Ok r.
Proof.
  intros Hrun. induction k as [|k IH].
  - by rewrite Nat.add_0_r.
  - rewrite Nat.add_succ_r. by apply csp_search_more.
Qed.

(** The search from the first cell returns within [search_depth] frames. *)
Lemma csp_search_total s G :
  heap s !! self_grid s = Some G → dims_ok G →
  ∃ s', csp_search search_depth (self_grid s) 0 0 s = Ok (tt, s').
Proof.
  intros HG Hd.
  assert (82 ≤ search_depth + idx 0 0) as Hfuel by (unfold search_depth, idx; lia).
  revert Hfuel. generalize search_depth. intros fuel Hfuel.
  destruct (proj1 (store_lookup_Some _ _ _) HG) as (rr & Hrr & _).
  destruct (csp_search_refines fuel s (self_grid s) 0 0 G rr G rr HG Hd Hrr
              ltac:(by split) HG Hd ltac:(left; lia) Hfuel) as (s' & Hrun & _).
  by exists s'.
Qed.

(** X13: the recursion of [__csp_search] needs at most 82 frames, one for
    each cell and one for the accepting call.  Started on the given grid at
    the first cell it returns within this budget in every state of an
    instance, and with every larger budget it returns the same and leaves
    the same state, so the limit on the recursion depth has no influence on
    [solve_as_csp]. *)
Theorem csp_search_depth sat_solve G s fuel :
  reachable sat_solve G s → 82 ≤ fuel →
  ∃ s', csp_search search_depth (self_grid s) 0 0 s = Ok (tt, s') ∧
        csp_search fuel (self_grid s) 0 0 s = Ok (tt, s').
Proof.
  intros Hreach Hfuel. destruct (reachable_inv sat_solve G s Hreach) as (HG & Hd & _).
  destruct (csp_search_total s G HG Hd) as (s' & Hrun). exists s'. split; [exact Hrun|].
  replace fuel with (search_depth + (fuel - 82)) by (unfold search_depth; lia).
  apply csp_search_budget. exact Hrun.
Qed.

Lemma csp_search_depth_witness :
  ∃ s', csp_search search_depth 0 0 0 (constructed grid_blanks) = Ok (tt, s') ∧
        csp_search 1000 0 0 0 (constructed grid_blanks) = Ok (tt, s').
Proof.
  apply (csp_search_depth brute_force grid_blanks (constructed grid_blanks) 1000
           (reachable_constructed brute_force grid_blanks grid_blanks_dims)).
  lia.
Defined.

(** ** The number of variables *)

Lemma elem_of_all_cells p : p ∈ all_cells ↔ p.1 < 9 ∧ p.2 < 9.
Proof.
  unfold all_cells. repeat setoid_rewrite list_elem_of_bind.
  setoid_rewrite elem_of_range. setoid_rewrite list_elem_of_singleton. split.
  - intros (row & (col & -> & Hcol) & Hrow). simpl. lia.
  - intros [Hr Hc]. exists p.1. split; [|lia]. exists p.2. split; [by destruct p|lia].
Qed.

Lemma elem_of_digit_triples t :
  t ∈ digit_triples ↔ t.1.1 < 9 ∧ t.1.2 < 9 ∧ (1 ≤ t.2 ≤ 9)%Z.
Proof.
  unfold digit_triples. rewrite list_elem_of_bind. split.
  - intros (p & Hin & Hp%elem_of_all_cells).
    apply list_elem_of_bind in Hin
      as (number & ->%list_elem_of_singleton & Hn%elem_of_rangeZ).
    simpl. lia.
  - intros (Hr & Hc & Hn). exists t.1. split; [|by apply elem_of_all_cells].
    apply list_elem_of_bind. exists t.2.
    split; [destruct t as [[] ?]; by left|apply elem_of_rangeZ; lia].
Qed.

Lemma NoDup_all_cells : NoDup all_cells.
Proof. apply (bool_decide_eq_true_1 (NoDup all_cells)). vm_compute. reflexivity. Qed.

Lemma NoDup_digit_triples : NoDup digit_triples.
Proof. apply (bool_decide_eq_true_1 (NoDup digit_triples)). vm_compute. reflexivity. Qed.

Lemma length_digit_triples : length digit_triples = 729.
Proof. vm_compute. reflexivity. Qed.

(** The atoms after the encoding: the nine digits of every cell, and the
    entry of every cell where it is no digit. *)
Lemma encoded_size G :
  size (atom_id (encoded G)) = 729 + length (non_digit_cells G).
Proof.
  pose proof (encoded_registered G) as Hreg. revert Hreg. generalize (encoded G).
  intros e Hreg.
  set (others := (λ p : nat * nat, (p.1, p.2, cell G p.1 p.2)) <$> non_digit_cells G).
  assert (dom (atom_id e) = list_to_set (digit_triples ++ others)) as Hdom.
  { apply set_eq. intros t.
    rewrite elem_of_dom, (Hreg t), elem_of_triples, elem_of_list_to_set, elem_of_app.
    rewrite elem_of_digit_triples. unfold others, non_digit_cells. split.
    - intros (row & col & number & -> & Hr & Hc & Hnum). simpl.
      destruct (decide (1 ≤ number ≤ 9)%Z) as [Hd|Hd]; [by left|]. right.
      destruct Hnum as [->|?]; [|done].
      apply list_elem_of_fmap. exists (row, col). split; [done|].
      apply list_elem_of_filter. split; [done|]. by apply elem_of_all_cells.
    - intros [(Hr & Hc & Hd)|(p & -> & Hp)%list_elem_of_fmap].
      + destruct t as [[row col] number]. exists row, col, number. simpl in *.
        split_and!; [done..|by right].
      + apply list_elem_of_filter in Hp as [_ [Hr Hc]%elem_of_all_cells].
        exists p.1, p.2, (cell G p.1 p.2). split_and!; [done..|by left]. }
  rewrite <- size_dom, Hdom, size_list_to_set.
  - unfold others. by rewrite length_app, length_fmap, length_digit_triples.
  - apply NoDup_app. split_and!.
    + apply NoDup_digit_triples.
    + intros t Ht%elem_of_digit_triples (p & -> & Hp)%list_elem_of_fmap.
      apply list_elem_of_filter in Hp as [Hnd _]. simpl in Ht. tauto.
    + unfold others. apply NoDup_fmap_2_strong.
      * intros [r1 c1] [r2 c2] _ _ [= -> -> _]. done.
      * apply NoDup_filter, NoDup_all_cells.
Qed.

(** Every identifier in use occurs in the formula. *)
Lemma encoded_nvars G :
  nvars (interp (encoded G) (sym_cnf G)) = Z.of_nat (size (atom_id (encoded G))).
Proof.
  pose proof (encoded_registered G) as Hreg. pose proof (encoded_wf G) as Hwf.
  revert Hreg Hwf. generalize (encoded G). intros e Hreg Hwf.
  apply Z.le_antisymm.
  - apply nvars_interp; [exact Hwf|]. intros t Ht. by apply Hreg.
  - destruct (decide (size (atom_id e) = 0)) as [->|Hpos]; [apply nvars_nonneg|].
    destruct Hwf as (_ & Hbwd & Hdense).
    assert (1 ≤ Z.of_nat (size (atom_id e)) ≤ Z.of_nat (size (atom_id e)))%Z as Hlast by lia.
    destruct (Hdense _ Hlast) as [t Ht].
    destruct (Hbwd _ _ Ht) as [Hid _].
    assert (t ∈ triples_of (sym_cnf G)) as Hin by (apply Hreg; by eexists).
    unfold triples_of in Hin.
    apply list_elem_of_bind in Hin as (c & (l & -> & Hl)%list_elem_of_fmap & Hc).
    pose proof (lit_le_nvars e (sym_cnf G) c l Hc Hl) as Hle.
    unfold id_of in Hle. rewrite Hid in Hle. exact Hle.
Qed.

(** X14: the formula of [solve_as_sat] has 729 variables for the digits
    of the cells and one more for every cell of the given grid whose entry
    is no digit 1..9, that is for every blank cell and every entry out of
    range; the atom tables hold exactly these variables, in the first call
    and in every later one. *)
Theorem encode_variables sat_solve G s :
  reachable sat_solve G s →
  ∃ cnf s', encode s = Ok (cnf, s') ∧
    nvars cnf = Z.of_nat (size (atom_id s')) ∧
    size (atom_id s') = 729 + length (non_digit_cells G).
Proof.
  intros Hreach. destruct (reachable_inv sat_solve G s Hreach) as (HG & Hd & Htab).
  eexists _, _. split; [by apply encode_eq|].
  pose proof (encode_tables G s Htab) as Henc.
  rewrite (same_tables_interp _ _ _ Henc). destruct Henc as [-> _].
  split; [exact (encoded_nvars G)|exact (encoded_size G)].
Qed.

Lemma encode_variables_witness :
  ∃ cnf s', encode (constructed grid_blanks) = Ok (cnf, s') ∧
    nvars cnf = Z.of_nat (size (atom_id s')) ∧
    size (atom_id s') = 729 + 3.
Proof.
  exact (encode_variables brute_force grid_blanks (constructed grid_blanks)
           (reachable_constructed brute_force grid_blanks grid_blanks_dims)).
Defined.

(** ** Grids whose rows are one list object *)

(** X15: when two rows of the given grid are one list object, as in
    [[[0] * 9] * 9], [solve_as_csp] returns [None], whether or not the grid
    has a solution: the copies that the search makes share the rows as the
    given grid does, so the digit that is written into a cell of one row
    shows in the same column of the other row, and every candidate fails
    the check. *)
Theorem solve_as_csp_shared_rows sat_solve G s rr i j :
  reachable sat_solve G s → grid_objs (heap s) !! self_grid s = Some rr →
  i < 9 → j < 9 → i ≠ j → rr !! i = rr !! j →
  ∃ s', solve_as_csp s = Ok (None, s').
Proof.
  intros Hreach Hrr Hi Hj Hij Halias.
  destruct (solve_as_csp_aliased G s rr i j (reachable_inv sat_solve G s Hreach)
              Hrr Hi Hj Hij Halias) as (s' & Hrun & _).
  exists s'. exact Hrun.
Qed.

Lemma solve_as_csp_shared_rows_witness :
  solves grid_shared grid_solved ∧
  ∃ s', solve_as_csp constructed_shared = Ok (None, s').
Proof.
  split; [exact grid_shared_solves|].
  apply (solve_as_csp_shared_rows brute_force grid_shared constructed_shared
           [0; 1; 2; 3; 4; 5; 0; 6; 7] 0 6 (reachable_shared brute_force) eq_refl);
    [lia|lia|lia|reflexivity].
Defined.

(** X16: when two rows of the given grid are one list object and the
    oracle answers with a model, the two rows of the grid that
    [solve_as_sat] returns are one object as well: they hold the same
    entries, so the returned grid has every entry of the one row a second
    time in its column and is no solved Sudoku. *)
Theorem solve_as_sat_shared_rows sat_solve G s rr i j r s' :
  oracle_sound sat_solve → reachable sat_solve G s →
  grid_objs (heap s) !! self_grid s = Some rr →
  i < 9 → j < 9 → i ≠ j → rr !! i = rr !! j →
  solve_as_sat sat_solve s = Ok (Some r, s') →
  ∃ sol, heap s' !! r = Some sol ∧ (∀ c, cell sol i c = cell sol j c) ∧
         ¬ consistent sol.
Proof.
  intros Hsound Hreach Hrr Hi Hj Hij Halias Hrun.
  pose proof (reachable_inv sat_solve G s Hreach) as Hinv.
  pose proof Hinv as (HG & Hd & _).
  pose proof (solve_as_sat_cases sat_solve Hsound G rr s Hinv Hrr) as Hcases.
  destruct (sat_solve (interp (encoded G) (sym_cnf G))) as [m|].
  2:{ destruct Hcases as (s'' & Hrun' & _). rewrite Hrun' in Hrun. discriminate Hrun. }
  destruct Hcases as (Hmodel & s'' & ys & Hrun' & _ & Hobjs & Hshare & Hval).
  rewrite Hrun' in Hrun. injection Hrun as <- <-.
  destruct (sat_decoded_shared G rr m Hd Hmodel) as (Hdims & Hdigits).
  revert Hval Hdims Hdigits. generalize (decode_shared rr (id_atom (encoded G)) m G).
  intros sol Hval Hdims Hdigits.
  assert (∀ c, cell sol i c = cell sol j c) as Hrows.
  { intros c. pose proof Hval as Hval'.
    apply store_lookup_Some in Hval' as (ys' & Hys' & Hderef).
    rewrite Hobjs, lookup_app_r, Nat.sub_diag in Hys' by lia. injection Hys' as <-.
    destruct Hshare as [Hlen Hiff].
    destruct (instance_shared_rows G s rr HG Hrr Hd) as [Hlen9 _].
    apply (deref_shared_rows _ ys sol i j c Hderef); [lia|]. by apply Hiff. }
  exists sol. split; [exact Hval|]. split; [exact Hrows|].
  intros (_ & Hcols & _). apply (Hcols 0 i j ltac:(lia) Hi Hj Hij); [|apply Hrows].
  specialize (Hdigits i 0 Hi ltac:(lia)). lia.
Qed.

Lemma solve_as_sat_shared_rows_witness :
  ∃ r s' sol, solve_as_sat brute_force constructed_shared = Ok (Some r, s') ∧
    heap s' !! r = Some sol ∧ (∀ c, cell sol 0 c = cell sol 6 c) ∧ ¬ consistent sol.
Proof.
  destruct (solve_as_sat_solvable brute_force grid_shared grid_solved constructed_shared
              brute_force_sound brute_force_complete constructed_shared_inv
              grid_shared_solves) as (r & s' & Hrun).
  destruct (solve_as_sat_shared_rows brute_force grid_shared constructed_shared
              [0; 1; 2; 3; 4; 5; 0; 6; 7] 0 6 r s' brute_force_sound
              (reachable_shared brute_force) eq_refl ltac:(lia) ltac:(lia) ltac:(lia)
              eq_refl Hrun) as (sol & Hsol).
  exists r, s', sol. split; [exact Hrun|exact Hsol].
Defined.
